(** * Inter-agent coordination protocol of code-analyzer-mcp

    Shallow embedding of [CoordinationManager]
    (src/utils/analysis-metrics.js, second document, lines 337-548) together
    with the parts of [BaseAgent] (unnamed/part_006) it calls, and the
    properties of the round-based question/answer exchange.

    Conventions of the embedding:
    - JavaScript numbers that hold counters ([maxRounds], [currentRound],
      the values of [roundLimits], [comment.round]) are integers [Z];
    - the [roundLimits] [Map] and the file system are [gmap]s keyed by
      strings;
    - methods of the manager are computations in a state-and-exception
      monad [M]: the state holds the fields of [this] and the outside world
      (files, error log, console), [Throw] is a JavaScript exception and
      [try_catch] is [try { ... } catch (error) { ... }];
    - an [async] method is rendered as the sequential computation its text
      describes, and [await Promise.all(coordinationPromises)] by letting
      the exchange of a pair run to its end before the next pair of the
      [for] loop is examined.  In the event loop the exchanges of one round
      interleave at their [await]s; they work on the counter of their own
      pair and resolve the comments they have read themselves, and the
      scenarios evaluated below have a single pair or pairs that share no
      comment;
    - files are addressed by the relative, normalised paths that
      [path.join] returns;
    - time stamps ([new Date().toISOString()]) are left out of log entries.

    The development also covers the methods of [BaseAgent] that answer a
    question, read files of the repository and rewrite the analysis section
    of a working file, the override and the reader of that section in
    [NextTaskAgent] (src/agents/security.js, second document), and the
    recording methods of [AnalysisMetrics] (src/utils/analysis-metrics.js,
    first document).  There a text is the list of its code units, and the
    floating-point numbers of the metrics are an abstract type. *)

From Stdlib Require Import ZArith Lia List Ascii String.
From stdpp Require Import base option list gmap strings sorting.

Open Scope string_scope.
Open Scope list_scope.
Open Scope Z_scope.

(** ** Node's [path.join] (POSIX flavour)

    [join] is the library function imported from 'path'.  It concatenates
    the non-empty arguments with '/' and normalises the result: empty and
    '.' segments disappear, '..' removes the segment before it. *)

Module Path.

Fixpoint split_slash (s : string) : list string :=
  match s with
  | EmptyString => [EmptyString]
  | String c s' =>
      if Ascii.eqb c "/" then EmptyString :: split_slash s'
      else match split_slash s' with
           | [] => [String c EmptyString]
           | seg :: rest => String c seg :: rest
           end
  end.

(** One step of [normalizeString]: the stack [acc] holds the kept segments,
    last one first. *)
Definition normalize_step (allowAboveRoot : bool) (acc : list string) (seg : string)
  : list string :=
  if String.eqb seg "" || String.eqb seg "." then acc
  else if String.eqb seg ".." then
    match acc with
    | top :: below =>
        if String.eqb top ".." then (if allowAboveRoot then ".." :: acc else acc)
        else below
    | [] => if allowAboveRoot then [".."] else []
    end
  else seg :: acc.

Definition normalize_segments (allowAboveRoot : bool) (segs : list string) : list string :=
  rev (fold_left (normalize_step allowAboveRoot) segs []).

Fixpoint intercalate (segs : list string) : string :=
  match segs with
  | [] => ""
  | [seg] => seg
  | seg :: rest => seg +:+ "/" +:+ intercalate rest
  end.

Fixpoint last_char (s : string) : option ascii :=
  match s with
  | EmptyString => None
  | String c EmptyString => Some c
  | String _ s' => last_char s'
  end.

Definition is_slash (o : option ascii) : bool :=
  match o with Some c => Ascii.eqb c "/" | None => false end.

Definition first_char (s : string) : option ascii :=
  match s with EmptyString => None | String c _ => Some c end.

Definition normalize (path : string) : string :=
  if String.eqb path "" then "."
  else
    let isAbsolute := is_slash (first_char path) in
    let trailingSeparator := is_slash (last_char path) in
    let p := intercalate (normalize_segments (negb isAbsolute) (split_slash path)) in
    if String.eqb p "" then
      (if isAbsolute then "/" else if trailingSeparator then "./" else ".")
    else
      let p := if trailingSeparator then p +:+ "/" else p in
      if isAbsolute then "/" +:+ p else p.

(** [joined] of [path.join]: the non-empty arguments glued with '/';
    [None] is JavaScript's [undefined]. *)
Fixpoint glue (joined : option string) (args : list string) : option string :=
  match args with
  | [] => joined
  | arg :: rest =>
      if String.eqb arg "" then glue joined rest
      else match joined with
           | None => glue (Some arg) rest
           | Some j => glue (Some (j +:+ "/" +:+ arg)) rest
           end
  end.

Definition join (args : list string) : string :=
  match glue None args with
  | None => "."
  | Some joined => normalize joined
  end.

End Path.

(** ** Data model *)

(** Modelled from the spec: the two values of [comment.status]; the
    manager compares it with 'pending'. *)
Inductive Status := pending | resolved.

#[global] Instance Status_eq_dec : EqDecision Status.
Proof. solve_decision. Defined.

(** Modelled from the spec: the comment record that
    [MarkdownManager.parseComments] (not part of the sources) hands to the
    manager, with the fields of the spec's data model.  The manager reads
    [targetAgent], [status], [round], [id], [question] and [context]. *)
Module Comment.
Record t := mk {
  id : string;
  askingAgent : string;
  targetAgent : string;
  question : string;
  context : string;
  round : Z;
  status : Status;
  response : option string
}.
End Comment.

(** Modelled from the spec: the working-memory document kept by
    [MarkdownManager] (utils/markdown-manager.js is not part of the
    sources): a report body and the ordered comment ledger of the
    coordination region. *)
Record Document := mkDocument {
  reportBody : string;
  ledger : list Comment.t
}.

(** The result of a JavaScript call: a value or a thrown [Error] (its
    [message]). *)
Inductive Result (A : Type) :=
| Ok (a : A)
| Throw (message : string).
Arguments Ok {A} a.
Arguments Throw {A} message.

(** The agent facade.  [respondToQuestion] calls out to the answer
    producer; here it is an oracle [answer] of the moment of the call (the
    number of events of the run so far), the question and the asking
    agent's name.  [BaseAgent]'s own version turns a failed model call into
    an answer text; a subclass may throw. *)
Record Agent := mkAgent {
  name : string;
  workingFile : string;
  answer : nat -> Comment.t -> string -> Result string
}.

(** Entries of the error log file. *)
Inductive LogEntry :=
| TimeoutEntry (agentPair : string) (maxRoundsReached : Z) (questions : list Comment.t)
| ErrorEntry (message : string).

(** What the run leaves behind apart from files: the console lines and a
    record of the calls made (bookkeeping used to count them). *)
Inductive Event :=
| RoundStarted (currentRound : Z)              (* console.log in startCoordinationRound *)
| Facilitated (pairKey : string)               (* facilitateCoordination was called *)
| Asked (answering : string) (questionId : string) (asking : string)
                                               (* respondToQuestion was called *)
| NotFoundWarning (file : string) (commentId : string).

#[global] Instance Event_eq_dec : EqDecision Event.
Proof. solve_decision. Defined.

(** The fields of a [CoordinationManager] and the world it acts on. *)
Record State := mkState {
  maxRounds : Z;
  currentRound : Z;
  roundLimits : gmap string Z;
  errorLogPath : string;
  files : gmap string Document;
  errorLog : gmap string (list LogEntry);
  trace : list Event
}.

Definition set_currentRound (v : Z) (s : State) : State :=
  mkState (maxRounds s) v (roundLimits s) (errorLogPath s) (files s) (errorLog s) (trace s).
Definition set_maxRounds (v : Z) (s : State) : State :=
  mkState v (currentRound s) (roundLimits s) (errorLogPath s) (files s) (errorLog s) (trace s).
Definition set_roundLimits (v : gmap string Z) (s : State) : State :=
  mkState (maxRounds s) (currentRound s) v (errorLogPath s) (files s) (errorLog s) (trace s).
Definition set_files (v : gmap string Document) (s : State) : State :=
  mkState (maxRounds s) (currentRound s) (roundLimits s) (errorLogPath s) v (errorLog s) (trace s).
Definition set_errorLog (v : gmap string (list LogEntry)) (s : State) : State :=
  mkState (maxRounds s) (currentRound s) (roundLimits s) (errorLogPath s) (files s) v (trace s).
Definition set_trace (v : list Event) (s : State) : State :=
  mkState (maxRounds s) (currentRound s) (roundLimits s) (errorLogPath s) (files s) (errorLog s) v.

(** ** The monad of manager methods *)

Definition M (A : Type) : Type := State -> Result A * State.

Definition ret {A} (a : A) : M A := fun s => (Ok a, s).

Definition bind {A B} (m : M A) (k : A -> M B) : M B :=
  fun s => match m s with
           | (Ok a, s') => k a s'
           | (Throw e, s') => (Throw e, s')
           end.

Definition throw {A} (message : string) : M A := fun s => (Throw message, s).

Definition try_catch {A} (body : M A) (handler : string -> M A) : M A :=
  fun s => match body s with
           | (Ok a, s') => (Ok a, s')
           | (Throw e, s') => handler e s'
           end.

Definition gets {A} (f : State -> A) : M A := fun s => (Ok (f s), s).
Definition modify (f : State -> State) : M unit := fun s => (Ok tt, f s).
Definition emit (e : Event) : M unit := modify (fun s => set_trace (trace s ++ [e]) s).

Notation "'let*' x ':=' m 'in' k" := (bind m (fun x => k))
  (at level 10, x name, m at level 200, k at level 200).

(** ** MarkdownManager *)

(** Modelled from the spec: [MarkdownManager.readFile] returns the document
    at a path and fails with a storage error when there is none. *)
Definition readFile (path : string) : M Document :=
  fun s => match files s !! path with
           | Some d => (Ok d, s)
           | None => (Throw ("ENOENT: no such file or directory, open '" +:+ path +:+ "'"), s)
           end.

(** Modelled from the spec: [MarkdownManager.parseComments] decodes the
    coordination region; a region without comments gives the empty list. *)
Definition parseComments (content : Document) : list Comment.t := ledger content.

(** Modelled from the spec: the single in-place update of a comment.  An
    answer is recorded once; resolving a resolved comment changes nothing. *)
Definition resolve (c : Comment.t) (r : string) : Comment.t :=
  match Comment.status c with
  | pending =>
      Comment.mk (Comment.id c) (Comment.askingAgent c) (Comment.targetAgent c)
        (Comment.question c) (Comment.context c) (Comment.round c)
        resolved (Some r)
  | resolved => c
  end.

(** Modelled from the spec: [resolveComment] on a ledger locates the comment
    by [id]; [None] when no comment carries the id. *)
Fixpoint resolveComment (l : list Comment.t) (commentId : string) (r : string)
  : option (list Comment.t) :=
  match l with
  | [] => None
  | c :: rest =>
      if decide (Comment.id c = commentId) then Some (resolve c r :: rest)
      else match resolveComment rest commentId r with
           | Some rest' => Some (c :: rest')
           | None => None
           end
  end.

(** Modelled from the spec: [MarkdownManager.respondToComment(file, id,
    response)]: a storage error when the document cannot be read, a logged
    warning and no change when the id is absent, the resolution otherwise. *)
Definition respondToComment (file : string) (commentId : string) (r : string) : M unit :=
  let* content := readFile file in
  match resolveComment (ledger content) commentId r with
  | Some l' =>
      modify (fun s => set_files (<[file := mkDocument (reportBody content) l']> (files s)) s)
  | None => emit (NotFoundWarning file commentId)
  end.

(** ** CoordinationManager *)

(** [constructor(outputDir = 'output')]: [None] is a call without argument.
    The files are those present when the manager is created. *)
Definition constructor (outputDir : option string) (fs : gmap string Document) : State :=
  {| maxRounds := 3;
     currentRound := 1;
     roundLimits := ∅;
     errorLogPath := Path.join [default "output" outputDir; "error-log.md"];
     files := fs;
     errorLog := ∅;
     trace := [] |}.

(** [appendToErrorLog]: the entry goes to the end of the log at
    [errorLogPath]; a log that does not exist yet is created.  The log is
    taken to be writable (the source falls back to the console otherwise). *)
Definition appendToErrorLog (content : LogEntry) : M unit :=
  modify (fun s =>
    let existingContent := default [] (errorLog s !! errorLogPath s) in
    set_errorLog (<[errorLogPath s := existingContent ++ [content]]> (errorLog s)) s).

Definition logCoordinationTimeout (agentPair : string) (questions : list Comment.t) : M unit :=
  let* mr := gets maxRounds in
  appendToErrorLog (TimeoutEntry agentPair mr questions).

Definition logError (message : string) : M unit :=
  appendToErrorLog (ErrorEntry message).

Definition getRoundCount (pairKey : string) : M Z :=
  gets (fun s => default 0 (roundLimits s !! pairKey)).

Definition incrementRoundCount (pairKey : string) : M unit :=
  let* current := getRoundCount pairKey in
  modify (fun s => set_roundLimits (<[pairKey := current + 1]> (roundLimits s)) s).

Definition findAgentFile (agentName : string) : string :=
  Path.join ["output"; agentName +:+ "-analysis.md"].

(** The filter of [checkForQuestions]. *)
Definition isQuestionFor (toAgentName : string) (round : Z) (comment : Comment.t) : Prop :=
  Comment.targetAgent comment = toAgentName ∧
  Comment.status comment = pending ∧
  Comment.round comment = round.

#[global] Instance isQuestionFor_dec to r c : Decision (isQuestionFor to r c).
Proof. unfold isQuestionFor. apply _. Defined.

Definition checkForQuestions (fromAgent : Agent) (toAgentName : string)
  : M (list Comment.t) :=
  let* content := readFile (workingFile fromAgent) in
  let comments := parseComments content in
  let* round := gets currentRound in
  ret (filter (isQuestionFor toAgentName round) comments).

(** [BaseAgent.respondToQuestion] as seen by the manager. *)
Definition respondToQuestion (answeringAgent : Agent) (question : Comment.t)
    (askingAgent : string) : M string :=
  let* asked := gets (fun s => length (trace s)) in
  let* _ := emit (Asked (name answeringAgent) (Comment.id question) askingAgent) in
  match answer answeringAgent asked question askingAgent with
  | Ok text => ret text
  | Throw message => throw message
  end.

(** A non-empty string is truthy. *)
Definition truthy (s : string) : bool := negb (String.eqb s "").

Fixpoint processQuestions (answeringAgent : Agent) (questions : list Comment.t)
    (askingAgentName : string) : M unit :=
  match questions with
  | [] => ret tt
  | question :: rest =>
      let* _ :=
        try_catch
          (let* response := respondToQuestion answeringAgent question askingAgentName in
           let askingAgentFile := findAgentFile askingAgentName in
           if truthy askingAgentFile
           then respondToComment askingAgentFile (Comment.id question) response
           else ret tt)
          (fun message =>
             logError ("Error processing question from " +:+ askingAgentName +:+ " to "
                       +:+ name answeringAgent +:+ ": " +:+ message)) in
      processQuestions answeringAgent rest askingAgentName
  end.

Definition facilitateCoordination (agent1 agent2 : Agent) (pairKey : string) : M unit :=
  let* _ := emit (Facilitated pairKey) in
  try_catch
    (let* questions1to2 := checkForQuestions agent1 (name agent2) in
     let* _ :=
       if Nat.ltb 0 (length questions1to2) then
         let* _ := processQuestions agent2 questions1to2 (name agent1) in
         incrementRoundCount pairKey
       else ret tt in
     let* questions2to1 := checkForQuestions agent2 (name agent1) in
     if Nat.ltb 0 (length questions2to1) then
       let* _ := processQuestions agent1 questions2to1 (name agent2) in
       incrementRoundCount pairKey
     else ret tt)
    (fun message =>
       logError ("Coordination error between " +:+ name agent1 +:+ " and "
                 +:+ name agent2 +:+ ": " +:+ message)).

(** [agents] is the list [Array.from(agents.values())]. *)
Fixpoint getAgentPairs (agentList : list Agent) : list (Agent * Agent) :=
  match agentList with
  | [] => []
  | agent :: rest => map (pair agent) rest ++ getAgentPairs rest
  end.

Definition pairKeyOf (p : Agent * Agent) : string := name (fst p) +:+ "-" +:+ name (snd p).

Fixpoint checkPendingQuestions (agents : list Agent) : M (list Comment.t) :=
  match agents with
  | [] => ret []
  | agent :: rest =>
      let* content := readFile (workingFile agent) in
      let comments := parseComments content in
      let pendingOfAgent := filter (fun comment => Comment.status comment = pending) comments in
      let* others := checkPendingQuestions rest in
      ret (pendingOfAgent ++ others)
  end.

Definition hasPendingQuestions (agents : list Agent) : M bool :=
  let* pendingQuestions := checkPendingQuestions agents in
  ret (Nat.ltb 0 (length pendingQuestions)).

(** The [for] loop of [startCoordinationRound] over the agent pairs. *)
Fixpoint coordinatePairs (agentPairs : list (Agent * Agent)) : M unit :=
  match agentPairs with
  | [] => ret tt
  | p :: rest =>
      let pairKey := pairKeyOf p in
      let* count := getRoundCount pairKey in
      let* mr := gets maxRounds in
      let* _ :=
        if Z.geb count mr then logCoordinationTimeout pairKey []
        else facilitateCoordination (fst p) (snd p) pairKey in
      coordinatePairs rest
  end.

(** One round: everything up to and including [await Promise.all]. *)
Definition coordinationRound (agents : list Agent) : M unit :=
  let* round := gets currentRound in
  let* _ := emit (RoundStarted round) in
  coordinatePairs (getAgentPairs agents).

(** [startCoordinationRound] calls itself for the next round.  The recursion
    is on [fuel]; [None] means the fuel ran out before the method
    returned. *)
Fixpoint startCoordinationRound_fuel (fuel : nat) (agents : list Agent) (s : State)
  : option (Result bool * State) :=
  match coordinationRound agents s with
  | (Throw message, s1) => Some (Throw message, s1)
  | (Ok _, s1) =>
      if Z.ltb (currentRound s1) (maxRounds s1) then
        match hasPendingQuestions agents s1 with
        | (Throw message, s2) => Some (Throw message, s2)
        | (Ok false, s2) => Some (Ok true, s2)
        | (Ok true, s2) =>
            match fuel with
            | O => None
            | S fuel' =>
                startCoordinationRound_fuel fuel' agents
                  (set_currentRound (currentRound s2 + 1) s2)
            end
        end
      else Some (Ok true, s1)
  end.

(** The rounds still allowed by the budget bound the depth of the
    recursion. *)
Definition startCoordinationRound (agents : list Agent) (s : State)
  : option (Result bool * State) :=
  startCoordinationRound_fuel (Z.to_nat (maxRounds s - currentRound s)) agents s.

(** [trackRoundLimits]: the lines of the coordination summary printed to the
    console, one per pair that exchanged something. *)
Definition trackRoundLimits (s : State) : list (string * Z * Z) :=
  map (fun e => (fst e, snd e, maxRounds s)) (map_to_list (roundLimits s)).

(** ** Parts of the methods, named for the statements below *)

(** The [try] block of [processQuestions] for one question. *)
Definition answerAndRecord (answeringAgent : Agent) (question : Comment.t)
    (askingAgentName : string) : M unit :=
  let* response := respondToQuestion answeringAgent question askingAgentName in
  let askingAgentFile := findAgentFile askingAgentName in
  if truthy askingAgentFile
  then respondToComment askingAgentFile (Comment.id question) response
  else ret tt.

(** The message [processQuestions] logs for a failed question. *)
Definition processingError (askingAgentName answeringName message : string) : string :=
  "Error processing question from " +:+ askingAgentName +:+ " to "
  +:+ answeringName +:+ ": " +:+ message.

(** The message [facilitateCoordination] logs when an exchange throws. *)
Definition coordinationError (name1 name2 message : string) : string :=
  "Coordination error between " +:+ name1 +:+ " and " +:+ name2 +:+ ": " +:+ message.

(** One direction of [facilitateCoordination]: the questions of [asking]
    for [answering] are read, answered and counted. *)
Definition exchange (asking answering : Agent) (pairKey : string) : M unit :=
  let* questions := checkForQuestions asking (name answering) in
  if Nat.ltb 0 (length questions) then
    let* _ := processQuestions answering questions (name asking) in
    incrementRoundCount pairKey
  else ret tt.

(** The state right after [facilitateCoordination] is entered. *)
Definition entered (pairKey : string) (s : State) : State :=
  set_trace (trace s ++ [Facilitated pairKey]) s.

(** The state right after a round has announced itself on the console. *)
Definition announced (s : State) : State :=
  set_trace (trace s ++ [RoundStarted (currentRound s)]) s.

(** ** Measures on a run *)

Definition isRoundStarted (e : Event) : bool :=
  match e with RoundStarted _ => true | _ => false end.
Definition isFacilitated (e : Event) : bool :=
  match e with Facilitated _ => true | _ => false end.

Definition roundsRun (s : State) : nat := length (List.filter isRoundStarted (trace s)).
Definition pairAttempts (s : State) : nat := length (List.filter isFacilitated (trace s)).

(** How often [facilitateCoordination] was entered for a pair key. *)
Definition facilitatedCount (pairKey : string) (s : State) : nat :=
  length (filter (fun e => e = Facilitated pairKey) (trace s)).

(** The counter of a pair as [getRoundCount] reads it. *)
Definition roundCount (s : State) (pairKey : string) : Z :=
  default 0 (roundLimits s !! pairKey).

(** The rounds a call can still run, and the number of agent pairs. *)
Definition roundsLeft (s : State) : Z := Z.max 1 (maxRounds s - currentRound s + 1).
Definition pairCount (agents : list Agent) : Z := Z.of_nat (length (getAgentPairs agents)).

(** The number of comments still pending in the agents' documents (0 when
    a document cannot be read). *)
Definition unresolved (agents : list Agent) (s : State) : nat :=
  match fst (checkPendingQuestions agents s) with
  | Ok pendingQuestions => length pendingQuestions
  | Throw _ => 0%nat
  end.

(** ** Predicates on computations and relations between states

    [preserves R m]: running [m] relates the state before to the state
    after by [R], whether [m] returns or throws.  [succeeds m]: [m] never
    throws. *)

Definition preserves (R : State -> State -> Prop) {A} (m : M A) : Prop :=
  forall s, R s (snd (m s)).

Definition succeeds {A} (m : M A) : Prop := forall s, exists a, fst (m s) = Ok a.

(** What no step of a round changes: the budget, the round number, the log
    path, the number of rounds and pair exchanges started; counters only
    grow. *)
Record frame (s s' : State) : Prop := mkFrame {
  frame_maxRounds : maxRounds s' = maxRounds s;
  frame_currentRound : currentRound s' = currentRound s;
  frame_errorLogPath : errorLogPath s' = errorLogPath s;
  frame_roundsRun : roundsRun s' = roundsRun s;
  frame_pairAttempts : pairAttempts s' = pairAttempts s;
  frame_roundCount : forall pairKey, roundCount s pairKey <= roundCount s' pairKey;
  frame_trace : trace s `prefix_of` trace s';
  frame_files : forall path, is_Some (files s !! path) -> is_Some (files s' !! path)
}.

(** What a whole round leaves unchanged. *)
Record stable (s s' : State) : Prop := mkStable {
  stable_maxRounds : maxRounds s' = maxRounds s;
  stable_currentRound : currentRound s' = currentRound s;
  stable_errorLogPath : errorLogPath s' = errorLogPath s;
  stable_roundCount : forall pairKey, roundCount s pairKey <= roundCount s' pairKey;
  stable_trace : trace s `prefix_of` trace s';
  stable_files : forall path, is_Some (files s !! path) -> is_Some (files s' !! path)
}.

(** No counter is negative. *)
Definition nonnegCounts (s : State) : Prop := forall pairKey, 0 <= roundCount s pairKey.

(** [sameLimits]: the counters are untouched.  [boundedCounts B]: no
    counter is above [B]. *)
Definition sameLimits (s s' : State) : Prop := roundLimits s' = roundLimits s.

Definition boundedCounts (B : Z) (s : State) : Prop :=
  forall pairKey, roundCount s pairKey <= B.

(** [leftAlone pairKey s s']: if the counter of the pair has reached
    [maxRounds] in [s], it has in [s'] too and the pair was not processed
    in between. *)
Definition leftAlone (pairKey : string) (s s' : State) : Prop :=
  maxRounds s <= roundCount s pairKey ->
  maxRounds s' = maxRounds s /\
  roundCount s pairKey <= roundCount s' pairKey /\
  facilitatedCount pairKey s' = facilitatedCount pairKey s.

(** Every agent's working file can be read. *)
Definition readable (agents : list Agent) (s : State) : Prop :=
  forall agent, agent ∈ agents -> is_Some (files s !! workingFile agent).

(** No comment is pending in any agent's document. *)
Definition converged (agents : list Agent) (s : State) : Prop :=
  forall agent, agent ∈ agents ->
    exists d, files s !! workingFile agent = Some d /\
              forall comment, comment ∈ ledger d -> Comment.status comment <> pending.

(** Every comment with this id, in whatever document, has a round number
    other than [currentRound]. *)
Definition carriesOtherRound (commentId : string) (s : State) : Prop :=
  forall path d comment,
    files s !! path = Some d -> comment ∈ ledger d ->
    Comment.id comment = commentId -> Comment.round comment <> currentRound s.

(** [quiet commentId s s']: if the comments with this id are not of the
    current round in [s], this is still so in [s'] and no answer has been
    requested for the id in between. *)
Definition quiet (commentId : string) (s s' : State) : Prop :=
  carriesOtherRound commentId s ->
  carriesOtherRound commentId s' /\
  currentRound s' = currentRound s /\
  forall answering asking,
    Asked answering commentId asking ∈ trace s' -> Asked answering commentId asking ∈ trace s.

(** [onlyFile file s s']: apart from [file], every document is the same in
    [s'] as in [s]. *)
Definition onlyFile (file : string) (s s' : State) : Prop :=
  forall path, path <> file -> files s' !! path = files s !! path.

(** [directionExamined agents s asking answering se]: in the round started
    in state [s], the pair of [asking] and [answering] is reached with its
    counter below [maxRounds], and [se] is the state in which
    [facilitateCoordination] reads the questions of [asking] for
    [answering].  For the second agent of the pair this is after the first
    direction has been dealt with, which requires the first agent's file to
    be readable. *)
Definition directionExamined (agents : list Agent) (s : State)
    (asking answering : Agent) (se : State) : Prop :=
  exists before after agent1 agent2,
    getAgentPairs agents = before ++ (agent1, agent2) :: after /\
    let pairKey := pairKeyOf (agent1, agent2) in
    let sp := snd (coordinatePairs before (announced s)) in
    roundCount sp pairKey < maxRounds sp /\
    ((asking = agent1 /\ answering = agent2 /\ se = entered pairKey sp) \/
     (asking = agent2 /\ answering = agent1 /\
      is_Some (files sp !! workingFile agent1) /\
      se = snd (exchange agent1 agent2 pairKey (entered pairKey sp)))).

(** ** Paths of documents *)

(** [readAgentReports] (agents/security.js, second document) locates the
    document of an agent in an output directory. *)
Definition reportPath (outputDir agentName : string) : string :=
  Path.join [outputDir; agentName +:+ "-analysis.md"].




(** ** Scenarios *)

(** An agent whose answer production works, and one whose
    [respondToQuestion] always throws; both keep their document in
    'output'. *)
Definition helpful (agentName : string) : Agent :=
  {| name := agentName;
     workingFile := reportPath "output" agentName;
     answer := fun _ question _ => Ok ("Answer to: " +:+ Comment.question question) |}.

Definition failing (agentName : string) : Agent :=
  {| name := agentName;
     workingFile := reportPath "output" agentName;
     answer := fun _ _ _ => Throw "answer production failed" |}.


(** B keeps its document in 'tmp' and its answer production fails. *)
Definition elsewhere (agentName : string) : Agent :=
  {| name := agentName;
     workingFile := reportPath "tmp" agentName;
     answer := fun _ _ _ => Throw "answer production failed" |}.

(** A pending question as [addComment(targetAgent, question, context, round)]
    leaves it in the asking agent's ledger. *)
Definition ask (commentId asking target text : string) (round : Z) : Comment.t :=
  Comment.mk commentId asking target text "src/" round pending None.

Definition document (comments : list Comment.t) : Document :=
  {| reportBody := "# Analysis"; ledger := comments |}.

(** Two agents; A asked B one question in round 1. *)
Definition oneQuestion : gmap string Document :=
  <[reportPath "output" "A" := document [ask "c1" "A" "B" "Is input validated?" 1]]>
    (<[reportPath "output" "B" := document []]> ∅).


(** Two agents that ask each other a question in round 1 and in round 2. *)
Definition bidirectional : gmap string Document :=
  <[reportPath "output" "A" :=
      document [ask "a1" "A" "B" "Is input validated?" 1;
                ask "a2" "A" "B" "Which routes need auth?" 2]]>
    (<[reportPath "output" "B" :=
         document [ask "b1" "B" "A" "Is the API documented?" 1;
                   ask "b2" "B" "A" "Are errors documented?" 2]]> ∅).

(** A asks B in rounds 1, 2 and 3; B asks A in round 1. *)
Definition exhausted : gmap string Document :=
  <[reportPath "output" "A" :=
      document [ask "a1" "A" "B" "Is input validated?" 1;
                ask "a2" "A" "B" "Which routes need auth?" 2;
                ask "a3" "A" "B" "Any open redirects?" 3]]>
    (<[reportPath "output" "B" :=
         document [ask "b1" "B" "A" "Is the API documented?" 1]]> ∅).

(** Three agents: A and B ask each other, C asks A; B's answer
    production fails. *)
Definition threeAgents : list Agent := [helpful "A"; elsewhere "B"; helpful "C"].

(** Their documents: B's is in 'tmp', and there is no output/B-analysis.md. *)
Definition fanOut : gmap string Document :=
  <[reportPath "output" "A" := document [ask "a1" "A" "B" "Is input validated?" 1]]>
    (<[reportPath "tmp" "B" := document [ask "b1" "B" "A" "Is the API documented?" 1]]>
       (<[reportPath "output" "C" := document [ask "c1" "C" "A" "Which module is central?" 1]]>
          ∅)).

(** The state in which round 2 starts when B's answer production failed in
    round 1: what [startCoordinationRound] passes to its recursive call. *)
Definition secondRoundAfterFailure : State :=
  set_currentRound 2
    (snd (coordinationRound [helpful "A"; failing "B"] (constructor None oneQuestion))).

(** ** The error log and the keys of pairs *)

(** A name without '-': the separator [startCoordinationRound] puts between
    the two names of a pair key. *)
Fixpoint hyphenFree (s : string) : bool :=
  match s with
  | EmptyString => true
  | String c s' => negb (Ascii.eqb c "-") && hyphenFree s'
  end.

(** The entries of the log file at a path, as [appendToErrorLog] reads
    them: a file that does not exist has none. *)
Definition logAt (s : State) (path : string) : list LogEntry :=
  default [] (errorLog s !! path).

Definition isTimeoutEntry (e : LogEntry) : bool :=
  match e with TimeoutEntry _ _ _ => true | ErrorEntry _ => false end.

(** The timeout entries in the manager's error log. *)
Definition timeoutEntries (s : State) : nat :=
  length (List.filter isTimeoutEntry (logAt s (errorLogPath s))).

Definition isAsked (e : Event) : bool :=
  match e with Asked _ _ _ => true | _ => false end.

(** The calls of [respondToQuestion] so far, in order. *)
Definition askedSoFar (s : State) : list Event := List.filter isAsked (trace s).

(** [appendOnly s s']: the log path is the same, every log of [s] is the
    beginning of the log at the same path in [s'], and only the manager's
    log can differ. *)
Definition appendOnly (s s' : State) : Prop :=
  errorLogPath s' = errorLogPath s /\
  forall path,
    logAt s path `prefix_of` logAt s' path /\
    (path <> errorLogPath s -> errorLog s' !! path = errorLog s !! path).

(** [sameTimeouts s s']: no timeout entry was written. *)
Definition sameTimeouts (s s' : State) : Prop :=
  errorLogPath s' = errorLogPath s /\ timeoutEntries s' = timeoutEntries s.

(** A document of one of the agents, where [findAgentFile] looks for it. *)
Definition agentFile (agents : list Agent) (path : string) : Prop :=
  exists agent, agent ∈ agents /\ path = findAgentFile (name agent).

(** The key of one of the pairs of [agents]. *)
Definition pairKeyIn (agents : list Agent) (pairKey : string) : Prop :=
  exists p, p ∈ getAgentPairs agents /\ pairKey = pairKeyOf p.

(** [writesOnly agents s s']: the same documents exist in [s'] as in [s],
    and those that are not an agent's file under 'output' are unchanged. *)
Definition writesOnly (agents : list Agent) (s s' : State) : Prop :=
  forall path,
    (is_Some (files s' !! path) <-> is_Some (files s !! path)) /\
    (~ agentFile agents path -> files s' !! path = files s !! path).

(** [countsOnly agents s s']: counters whose key is not the key of a pair of
    [agents] are untouched. *)
Definition countsOnly (agents : list Agent) (s s' : State) : Prop :=
  forall pairKey,
    ~ pairKeyIn agents pairKey -> roundLimits s' !! pairKey = roundLimits s !! pairKey.

(** The value of [questions.length > 0] as a number. *)
Definition anyQuestion (questions : list Comment.t) : Z :=
  if Nat.ltb 0 (length questions) then 1 else 0.

(** The pending questions of the running round that [asking]'s document
    holds for [answering] ([checkForQuestions] on a readable document). *)
Definition questionsFor (s : State) (d : Document) (answering : Agent) : list Comment.t :=
  filter (isQuestionFor (name answering) (currentRound s)) (ledger d).

(** Every counter that exists is at least 1: a pair gets its entry in
    [roundLimits] with its first exchange. *)
Definition positiveCounts (s : State) : Prop :=
  forall pairKey count, roundLimits s !! pairKey = Some count -> 1 <= count.

Definition keepsPositive (s s' : State) : Prop := positiveCounts s -> positiveCounts s'.

(** [untouched s s']: nothing but the console output and the round number
    differs: no document, no log, no counter has changed, no answer was
    requested and no pair was exchanged. *)
Definition untouched (s s' : State) : Prop :=
  files s' = files s /\ errorLog s' = errorLog s /\ roundLimits s' = roundLimits s /\
  askedSoFar s' = askedSoFar s /\ pairAttempts s' = pairAttempts s.

(** ** The text of a working file

    The working file of an agent is a Markdown text with the headings
    '## Analysis Results' and '## Coordination'.  A text is the list of its
    code units; the library functions of [String.prototype] that the
    agents use on it are modelled on lists. *)

Definition Text : Type := list ascii.

Definition text (s : string) : Text := list_ascii_of_string s.

(** [needle] is what [s] begins with. *)
Fixpoint startsWith (needle s : Text) : bool :=
  match needle, s with
  | [], _ => true
  | _ :: _, [] => false
  | c :: needle', d :: s' => Ascii.eqb c d && startsWith needle' s'
  end.

(** The position of the first occurrence of [needle] in [s]. *)
Fixpoint firstOccurrence (needle s : Text) : option nat :=
  if startsWith needle s then Some 0%nat
  else match s with
       | [] => None
       | _ :: s' => S <$> firstOccurrence needle s'
       end.

(** [s.indexOf(needle)]: -1 when [needle] does not occur. *)
Definition indexOf (s needle : Text) : Z :=
  match firstOccurrence needle s with
  | Some n => Z.of_nat n
  | None => -1
  end.

(** An index of [substring] is brought into the range from 0 to the
    length. *)
Definition clamp (s : Text) (index : Z) : nat := Nat.min (Z.to_nat index) (length s).

(** [s.substring(indexStart, indexEnd)]; [None] is a call without
    [indexEnd].  The two indexes are swapped when the first is the larger
    one. *)
Definition substring (s : Text) (indexStart : Z) (indexEnd : option Z) : Text :=
  let a := clamp s indexStart in
  let b := match indexEnd with Some e => clamp s e | None => length s end in
  take (Nat.max a b - Nat.min a b) (drop (Nat.min a b) s).

(** [s.replace(pattern, replacement)] with a string pattern: the first
    occurrence is replaced ([replacement] has no '$'). *)
Definition replace (s pattern replacement : Text) : Text :=
  match firstOccurrence pattern s with
  | Some n => take n s ++ replacement ++ drop (n + length pattern) s
  | None => s
  end.

(** White space and line terminators among the code units below 256: tab,
    line feed, vertical tab, form feed, carriage return, space and
    no-break space. *)
Definition isWhiteSpace (c : ascii) : bool :=
  let n := nat_of_ascii c in
  (Nat.leb 9 n && Nat.leb n 13) || Nat.eqb n 32 || Nat.eqb n 160.

Fixpoint trimStart (s : Text) : Text :=
  match s with
  | [] => []
  | c :: s' => if isWhiteSpace c then trimStart s' else s
  end.

Definition trimEnd (s : Text) : Text := rev (trimStart (rev s)).

(** [s.trim()]. *)
Definition trim (s : Text) : Text := trimEnd (trimStart s).

Definition analysisHeading : Text := text "## Analysis Results".
Definition coordinationHeading : Text := text "## Coordination".

(** The two line feeds of '\n\n'. *)
Definition blankLine : Text := ["010"%char; "010"%char].

(** ** BaseAgent (unnamed/part_006, second document)

    The methods of the agent base class that answer a question, read files
    of the repository and rewrite the analysis section of the working
    file, with the fields they read.  The model call
    [anthropicClient.call] is an oracle of the moment of the call, the
    prompt, the system prompt and the token limit; the repository is a map
    from full paths to what is stored there.  What the methods print on the
    console is left out. *)

Module BaseAgent.

Record t := mk {
  name : string;
  systemPrompt : string;                    (* config.systemPrompt *)
  maxTokens : Z;                            (* config.maxTokens *)
  workingFile : option string;              (* null until initialize *)
  repoPath : option string;                 (* null until initialize *)
  anthropicClient : nat -> string -> string -> Z -> Result string
}.

(** [constructor(name, config = {})] with the defaults of [config]. *)
Definition constructor (agentName : string) (configSystemPrompt : option string)
    (configMaxTokens : option Z)
    (client : nat -> string -> string -> Z -> Result string) : t :=
  {| name := agentName;
     systemPrompt := default "" configSystemPrompt;
     maxTokens := default 4000 configMaxTokens;
     workingFile := None;
     repoPath := None;
     anthropicClient := client |}.

(** A template literal prints [null] for a field that is not set. *)
Definition shown (field : option string) : string := default "null" field.

(** The prompt of [respondToQuestion]. *)
Definition responsePrompt (this : t) (question : Comment.t) (askingAgent : string) : string :=
  "
You are being asked a question by another analysis agent about the codebase you've been analyzing.

**Question from " +:+ askingAgent +:+ ":** " +:+ Comment.question question +:+ "
**Context:** " +:+ Comment.context question +:+ "

Based on your analysis of the repository at " +:+ shown (repoPath this) +:+ ", please provide a helpful and specific response.
Your response should be concise but informative, focusing on practical insights.

If you need to examine specific files to answer this question, you can reference them by path.
".

(** [callAnthropic(prompt, context = '')]: the error of a failed call is
    printed and thrown again. *)
Definition callAnthropic (this : t) (moment : nat) (prompt context : string)
  : Result string :=
  let fullPrompt := if truthy context then context +:+ "

" +:+ prompt else prompt in
  match anthropicClient this moment fullPrompt (systemPrompt this) (maxTokens this) with
  | Ok response => Ok response
  | Throw message => Throw message
  end.

(** [respondToQuestion(question, askingAgent)]: the [catch] turns a failed
    model call into the returned text. *)
Definition respondToQuestion (this : t) (moment : nat) (question : Comment.t)
    (askingAgent : string) : Result string :=
  match callAnthropic this moment (responsePrompt this question askingAgent) "" with
  | Ok response => Ok response
  | Throw message => Ok ("I encountered an error while trying to respond: " +:+ message)
  end.

(** The agent as the coordination manager sees it, once [initialize] has
    set its working file. *)
Definition facade (this : t) (file : string) : Agent :=
  mkAgent (name this) file (respondToQuestion this).

(** What the repository holds at a full path. *)
Inductive Entry :=
| File (content : string)
| Directory.

(** The message of the [TypeError] that [path.join] throws for an argument
    that is not a string (Node 12 and later). *)
Definition pathTypeError : string :=
  "The " +:+ String (Ascii.ascii_of_nat 34) "path" +:+ String (Ascii.ascii_of_nat 34)
    " argument must be of type string. Received null".

(** [readFile(filePath)]: [existsSync], then [readFileSync(fullPath, 'utf8')],
    which fails on a directory. *)
Definition readFile (this : t) (repository : gmap string Entry) (filePath : string)
  : Result string :=
  match repoPath this with
  | None => Throw pathTypeError
  | Some repo =>
      let fullPath := Path.join [repo; filePath] in
      match repository !! fullPath with
      | None => Throw ("File not found: " +:+ filePath)
      | Some (File content) => Ok content
      | Some Directory => Throw "EISDIR: illegal operation on a directory, read"
      end
  end.

(** [results[filePath] = value] on the object literal [{}]: assigning a
    string to the key '__proto__' changes nothing. *)
Definition assign (results : gmap string string) (key value : string) : gmap string string :=
  if decide (key = "__proto__") then results else <[key := value]> results.

(** [readFiles(filePaths)]: the [for] loop with its [try]/[catch]. *)
Definition readFiles (this : t) (repository : gmap string Entry) (filePaths : list string)
  : gmap string string :=
  fold_left
    (fun results filePath =>
       match readFile this repository filePath with
       | Ok content => assign results filePath content
       | Throw message => assign results filePath ("Error reading file: " +:+ message)
       end)
    filePaths ∅.

(** The entry [readFiles] makes for a path. *)
Definition entryFor (this : t) (repository : gmap string Entry) (filePath : string) : string :=
  match readFile this repository filePath with
  | Ok content => content
  | Throw message => "Error reading file: " +:+ message
  end.

(** What is written when [analysisContent] is falsy: null, undefined or the
    empty string. *)
Definition contentOr (placeholder : string) (analysisContent : option Text) : Text :=
  match analysisContent with
  | Some (c :: rest) => c :: rest
  | _ => text placeholder
  end.

(** [updateAnalysisSection(analysisContent)], from the text that
    [readWorkingMemory] returns to the text handed to
    [writeWorkingMemory]; both go through [MarkdownManager], which is not
    among the sources, and both throw when the agent has no working file.
    The calls in between only print.  [analysisContent] is a string, or
    [None] for null and undefined. *)
Definition updateAnalysisSection (this : t) (currentContent : Text)
    (analysisContent : option Text) : Result Text :=
  match workingFile this with
  | None => Throw "Agent not initialized. Call initialize() first."
  | Some _ =>
      let resultsStart := indexOf currentContent analysisHeading in
      let coordinationStart := indexOf currentContent coordinationHeading in
      if Z.eqb resultsStart (-1) || Z.eqb coordinationStart (-1)
      then Throw "Invalid working file format"
      else
        let analysisContent :=
          contentOr "Analysis failed to generate content" analysisContent in
        let beforeResults :=
          substring currentContent 0
            (Some (resultsStart + Z.of_nat (length analysisHeading))) in
        let afterCoordination := substring currentContent coordinationStart None in
        Ok (beforeResults ++ blankLine ++ analysisContent ++ blankLine ++ afterCoordination)
  end.

End BaseAgent.

(** ** NextTaskAgent (src/agents/security.js, second document)

    The agent overrides [updateAnalysisSection] and reads the analysis
    section of a report with [extractAnalysisSection]. *)

Module NextTaskAgent.

Definition updateAnalysisSection (this : BaseAgent.t) (currentContent : Text)
    (analysisContent : option Text) : Result Text :=
  match BaseAgent.workingFile this with
  | None => Throw "Agent not initialized. Call initialize() first."
  | Some _ =>
      let resultsStart := indexOf currentContent analysisHeading in
      let coordinationStart := indexOf currentContent coordinationHeading in
      if Z.eqb resultsStart (-1) || Z.eqb coordinationStart (-1)
      then Throw "Invalid working file format"
      else
        let analysisContent :=
          BaseAgent.contentOr "Next task analysis failed to generate content"
            analysisContent in
        let beforeResults := substring currentContent 0 (Some resultsStart) in
        let afterCoordination := substring currentContent coordinationStart None in
        Ok (beforeResults ++ analysisHeading ++ blankLine ++ analysisContent ++ blankLine
            ++ afterCoordination)
  end.

Definition extractAnalysisSection (reportContent : Text) : Text :=
  let analysisStart := indexOf reportContent analysisHeading in
  let coordinationStart := indexOf reportContent coordinationHeading in
  if Z.eqb analysisStart (-1) then text "No analysis results found"
  else
    let endIndex :=
      if negb (Z.eqb coordinationStart (-1)) then coordinationStart
      else Z.of_nat (length reportContent) in
    let analysisSection := substring reportContent analysisStart (Some endIndex) in
    trim (replace analysisSection analysisHeading []).

End NextTaskAgent.

(** An agent after [initialize], and a working file with the two
    headings. *)
Definition initialized : BaseAgent.t :=
  BaseAgent.mk "security" "" 4000 (Some "output/security-analysis.md") (Some "/repo")
    (fun _ _ _ _ => Throw "No API key configured").

Definition workingText : Text :=
  text "# security Analysis

## Analysis Results

*Analysis in progress...*

## Coordination

<!-- comments -->
".

(** ** AnalysisMetrics (src/utils/analysis-metrics.js, first document)

    Token counts, call counts, file sizes and times in milliseconds are
    integers.  Costs and averages are floating-point numbers: their type
    [Num] and its operations (the constant 0, the sum, and the quotient of
    two integers) are left abstract, and nothing is assumed about them.
    [Date.now()] is an argument [now] of the methods that read the clock.
    The [Map] of agents is a [gmap]; the methods modelled here never
    iterate over it. *)

Class Floating (Num : Type) := {
  fzero : Num;                              (* 0 *)
  fadd : Num -> Num -> Num;                 (* a + b *)
  fdiv : Z -> Z -> Num                      (* a / b for integers a and b *)
}.

Module AgentData.
Record t (Num : Type) := mk {
  startTime : Z;
  endTime : option Z;
  workStartTime : option Z;
  workEndTime : option Z;
  inputTokens : Z;
  outputTokens : Z;
  cost : Num;
  apiCalls : Z;
  filesProcessed : Z;
  contentTruncated : Z;
  duration : Z;
  workDuration : Z;
  apiResponseTimes : list Z
}.
Arguments mk {Num}.
Arguments startTime {Num}.
Arguments endTime {Num}.
Arguments workStartTime {Num}.
Arguments workEndTime {Num}.
Arguments inputTokens {Num}.
Arguments outputTokens {Num}.
Arguments cost {Num}.
Arguments apiCalls {Num}.
Arguments filesProcessed {Num}.
Arguments contentTruncated {Num}.
Arguments duration {Num}.
Arguments workDuration {Num}.
Arguments apiResponseTimes {Num}.
End AgentData.

Module GlobalMetrics.
Record t (Num : Type) := mk {
  totalInputTokens : Z;
  totalOutputTokens : Z;
  totalCost : Num;
  totalApiCalls : Z;
  filesProcessed : Z;
  contentTruncated : Z;
  totalFileSize : Z
}.
Arguments mk {Num}.
Arguments totalInputTokens {Num}.
Arguments totalOutputTokens {Num}.
Arguments totalCost {Num}.
Arguments totalApiCalls {Num}.
Arguments filesProcessed {Num}.
Arguments contentTruncated {Num}.
Arguments totalFileSize {Num}.
End GlobalMetrics.

(** An element of [largestFiles]. *)
Module LargestFile.
Record t := mk {
  fileName : string;
  size : Z
}.
End LargestFile.

(** An element of [truncatedFiles]. *)
Module TruncatedFile.
Record t := mk {
  fileName : string;
  originalSize : Z;
  processedSize : Z
}.
End TruncatedFile.

Module ContentBreakdown.
Record t := mk {
  code : Z;
  comments : Z;
  imports : Z;
  other : Z
}.
End ContentBreakdown.

Module RepositoryStats.
Record t (Num : Type) := mk {
  fileCount : Z;
  totalSize : Z;
  averageFileSize : Num;
  largestFiles : list LargestFile.t;
  truncatedFiles : list TruncatedFile.t;
  contentBreakdown : ContentBreakdown.t
}.
Arguments mk {Num}.
Arguments fileCount {Num}.
Arguments totalSize {Num}.
Arguments averageFileSize {Num}.
Arguments largestFiles {Num}.
Arguments truncatedFiles {Num}.
Arguments contentBreakdown {Num}.
End RepositoryStats.

Module PerformanceMetrics.
Record t (Num : Type) := mk {
  analysisStartTime : Z;
  analysisEndTime : option Z;
  totalDuration : Z;
  agentDurations : gmap string Z;
  apiResponseTimes : list Z;
  averageResponseTime : Num;
  tokensPerSecond : Num;
  filesPerMinute : Num
}.
Arguments mk {Num}.
Arguments analysisStartTime {Num}.
Arguments analysisEndTime {Num}.
Arguments totalDuration {Num}.
Arguments agentDurations {Num}.
Arguments apiResponseTimes {Num}.
Arguments averageResponseTime {Num}.
Arguments tokensPerSecond {Num}.
Arguments filesPerMinute {Num}.
End PerformanceMetrics.

(** The argument of [recordApiCall]; [None] is a property that is not
    given, for which the destructuring pattern has a default. *)
Module CallMetrics.
Record t (Num : Type) := mk {
  inputTokens : option Z;                   (* inputTokens = 0 *)
  outputTokens : option Z;                  (* outputTokens = 0 *)
  cost : option Num;                        (* cost = 0 *)
  responseTime : option Z;                  (* responseTime = 0 *)
  model : option string                     (* model = 'unknown' *)
}.
Arguments mk {Num}.
Arguments inputTokens {Num}.
Arguments outputTokens {Num}.
Arguments cost {Num}.
Arguments responseTime {Num}.
Arguments model {Num}.
End CallMetrics.

(** The argument of [recordFileProcessing]. *)
Module FileMetrics.
Record t := mk {
  fileName : option string;                 (* fileName = '' *)
  fileSize : option Z;                      (* fileSize = 0 *)
  wasTruncated : option bool;               (* wasTruncated = false *)
  contentSize : option Z                    (* contentSize = 0 *)
}.
End FileMetrics.

(** The sum of a quantity over a list. *)
Definition sumOf {A} (quantity : A -> Z) (l : list A) : Z :=
  foldr (fun x sum => quantity x + sum) 0 l.

Module AnalysisMetrics.

Record t (Num : Type) := mk {
  startTime : Z;
  endTime : option Z;
  agentMetrics : gmap string (AgentData.t Num);
  globalMetrics : GlobalMetrics.t Num;
  repositoryStats : RepositoryStats.t Num;
  performanceMetrics : PerformanceMetrics.t Num
}.
Arguments mk {Num}.
Arguments startTime {Num}.
Arguments endTime {Num}.
Arguments agentMetrics {Num}.
Arguments globalMetrics {Num}.
Arguments repositoryStats {Num}.
Arguments performanceMetrics {Num}.

Section Methods.
Context {Num : Type} {floating : Floating Num}.

Definition constructor (now : Z) : t Num :=
  {| startTime := now;
     endTime := None;
     agentMetrics := ∅;
     globalMetrics := GlobalMetrics.mk 0 0 fzero 0 0 0 0;
     repositoryStats :=
       RepositoryStats.mk 0 0 fzero [] [] (ContentBreakdown.mk 0 0 0 0);
     performanceMetrics := PerformanceMetrics.mk now None 0 ∅ [] fzero fzero fzero |}.

Definition set_agentMetrics (v : gmap string (AgentData.t Num)) (this : t Num) : t Num :=
  mk (startTime this) (endTime this) v (globalMetrics this) (repositoryStats this)
    (performanceMetrics this).

(** [agentMetrics.get(agentName)] followed by assignments to fields of the
    object it returns: [change] is applied to the entry of a known agent. *)
Definition updateAgent (agentName : string) (change : AgentData.t Num -> AgentData.t Num)
    (this : t Num) : t Num :=
  match agentMetrics this !! agentName with
  | Some agentData => set_agentMetrics (<[agentName := change agentData]> (agentMetrics this)) this
  | None => this
  end.

Definition initializeAgent (agentName : string) (now : Z) (this : t Num) : t Num :=
  set_agentMetrics
    (<[agentName := AgentData.mk now None None None 0 0 fzero 0 0 0 0 0 []]>
       (agentMetrics this))
    this.

Definition startAgentWork (agentName : string) (now : Z) (this : t Num) : t Num :=
  updateAgent agentName
    (fun d =>
       AgentData.mk (AgentData.startTime d) (AgentData.endTime d) (Some now)
         (AgentData.workEndTime d) (AgentData.inputTokens d) (AgentData.outputTokens d)
         (AgentData.cost d) (AgentData.apiCalls d) (AgentData.filesProcessed d)
         (AgentData.contentTruncated d) (AgentData.duration d) (AgentData.workDuration d)
         (AgentData.apiResponseTimes d))
    this.

(** [if (agentData.workStartTime)]: a start time that is null or 0 is
    falsy. *)
Definition endAgentWork (agentName : string) (now : Z) (this : t Num) : t Num :=
  updateAgent agentName
    (fun d =>
       let workDuration :=
         match AgentData.workStartTime d with
         | Some started => if Z.eqb started 0 then AgentData.workDuration d else now - started
         | None => AgentData.workDuration d
         end in
       AgentData.mk (AgentData.startTime d) (AgentData.endTime d) (AgentData.workStartTime d)
         (Some now) (AgentData.inputTokens d) (AgentData.outputTokens d)
         (AgentData.cost d) (AgentData.apiCalls d) (AgentData.filesProcessed d)
         (AgentData.contentTruncated d) (AgentData.duration d) workDuration
         (AgentData.apiResponseTimes d))
    this.

(** [apiResponseTimes.reduce((a, b) => a + b, 0)]. *)
Definition total (times : list Z) : Z := fold_left Z.add times 0.

Definition recordApiCall (agentName : string) (callMetrics : CallMetrics.t Num) (this : t Num)
  : t Num :=
  let inputTokens := default 0 (CallMetrics.inputTokens callMetrics) in
  let outputTokens := default 0 (CallMetrics.outputTokens callMetrics) in
  let cost := default fzero (CallMetrics.cost callMetrics) in
  let responseTime := default 0 (CallMetrics.responseTime callMetrics) in
  let this1 :=
    updateAgent agentName
      (fun d =>
         AgentData.mk (AgentData.startTime d) (AgentData.endTime d)
           (AgentData.workStartTime d) (AgentData.workEndTime d)
           (AgentData.inputTokens d + inputTokens) (AgentData.outputTokens d + outputTokens)
           (fadd (AgentData.cost d) cost) (AgentData.apiCalls d + 1)
           (AgentData.filesProcessed d) (AgentData.contentTruncated d)
           (AgentData.duration d) (AgentData.workDuration d)
           (AgentData.apiResponseTimes d ++ [responseTime]))
      this in
  let g := globalMetrics this1 in
  let p := performanceMetrics this1 in
  let times := PerformanceMetrics.apiResponseTimes p ++ [responseTime] in
  mk (startTime this1) (endTime this1) (agentMetrics this1)
    (GlobalMetrics.mk
       (GlobalMetrics.totalInputTokens g + inputTokens)
       (GlobalMetrics.totalOutputTokens g + outputTokens)
       (fadd (GlobalMetrics.totalCost g) cost)
       (GlobalMetrics.totalApiCalls g + 1)
       (GlobalMetrics.filesProcessed g) (GlobalMetrics.contentTruncated g)
       (GlobalMetrics.totalFileSize g))
    (repositoryStats this1)
    (PerformanceMetrics.mk
       (PerformanceMetrics.analysisStartTime p) (PerformanceMetrics.analysisEndTime p)
       (PerformanceMetrics.totalDuration p) (PerformanceMetrics.agentDurations p)
       times (fdiv (total times) (Z.of_nat (length times)))
       (PerformanceMetrics.tokensPerSecond p) (PerformanceMetrics.filesPerMinute p)).

(** [Array.prototype.sort] is stable; with the comparator
    [(a, b) => b.size - a.size] it puts the larger file first and keeps
    files of the same size in the order they had.  [insertBySize] puts a
    file behind the files that are not smaller. *)
Fixpoint insertBySize (file : LargestFile.t) (sorted : list LargestFile.t)
  : list LargestFile.t :=
  match sorted with
  | [] => [file]
  | other :: rest =>
      if Z.ltb (LargestFile.size other) (LargestFile.size file) then file :: sorted
      else other :: insertBySize file rest
  end.

Definition sortBySize (files : list LargestFile.t) : list LargestFile.t :=
  fold_left (fun sorted file => insertBySize file sorted) files [].

Definition recordFileProcessing (agentName : string) (fileMetrics : FileMetrics.t)
    (this : t Num) : t Num :=
  let fileName := default "" (FileMetrics.fileName fileMetrics) in
  let fileSize := default 0 (FileMetrics.fileSize fileMetrics) in
  let wasTruncated := default false (FileMetrics.wasTruncated fileMetrics) in
  let contentSize := default 0 (FileMetrics.contentSize fileMetrics) in
  let this1 :=
    updateAgent agentName
      (fun d =>
         AgentData.mk (AgentData.startTime d) (AgentData.endTime d)
           (AgentData.workStartTime d) (AgentData.workEndTime d)
           (AgentData.inputTokens d) (AgentData.outputTokens d)
           (AgentData.cost d) (AgentData.apiCalls d)
           (AgentData.filesProcessed d + 1)
           (if wasTruncated then AgentData.contentTruncated d + 1
            else AgentData.contentTruncated d)
           (AgentData.duration d) (AgentData.workDuration d)
           (AgentData.apiResponseTimes d))
      this in
  let g := globalMetrics this1 in
  let r := repositoryStats this1 in
  mk (startTime this1) (endTime this1) (agentMetrics this1)
    (GlobalMetrics.mk
       (GlobalMetrics.totalInputTokens g) (GlobalMetrics.totalOutputTokens g)
       (GlobalMetrics.totalCost g) (GlobalMetrics.totalApiCalls g)
       (GlobalMetrics.filesProcessed g + 1)
       (if wasTruncated then GlobalMetrics.contentTruncated g + 1
        else GlobalMetrics.contentTruncated g)
       (GlobalMetrics.totalFileSize g + fileSize))
    (RepositoryStats.mk
       (RepositoryStats.fileCount r + 1)
       (RepositoryStats.totalSize r + fileSize)
       (RepositoryStats.averageFileSize r)
       (take 10 (sortBySize (RepositoryStats.largestFiles r
                             ++ [LargestFile.mk fileName fileSize])))
       (if wasTruncated
        then RepositoryStats.truncatedFiles r
             ++ [TruncatedFile.mk fileName fileSize contentSize]
        else RepositoryStats.truncatedFiles r)
       (RepositoryStats.contentBreakdown r))
    (performanceMetrics this1).

Definition completeAgent (agentName : string) (now : Z) (this : t Num) : t Num :=
  match agentMetrics this !! agentName with
  | Some d =>
      let duration := now - AgentData.startTime d in
      let this1 :=
        updateAgent agentName
          (fun d =>
             AgentData.mk (AgentData.startTime d) (Some now)
               (AgentData.workStartTime d) (AgentData.workEndTime d)
               (AgentData.inputTokens d) (AgentData.outputTokens d)
               (AgentData.cost d) (AgentData.apiCalls d) (AgentData.filesProcessed d)
               (AgentData.contentTruncated d) duration (AgentData.workDuration d)
               (AgentData.apiResponseTimes d))
          this in
      let p := performanceMetrics this1 in
      mk (startTime this1) (endTime this1) (agentMetrics this1) (globalMetrics this1)
        (repositoryStats this1)
        (PerformanceMetrics.mk
           (PerformanceMetrics.analysisStartTime p) (PerformanceMetrics.analysisEndTime p)
           (PerformanceMetrics.totalDuration p)
           (<[agentName := duration]> (PerformanceMetrics.agentDurations p))
           (PerformanceMetrics.apiResponseTimes p) (PerformanceMetrics.averageResponseTime p)
           (PerformanceMetrics.tokensPerSecond p) (PerformanceMetrics.filesPerMinute p))
  | None => this
  end.

(** A use of the metrics object: one of the recording methods with its
    arguments. *)
Inductive Call :=
| InitializeAgent (agentName : string) (now : Z)
| StartAgentWork (agentName : string) (now : Z)
| EndAgentWork (agentName : string) (now : Z)
| RecordApiCall (agentName : string) (callMetrics : CallMetrics.t Num)
| RecordFileProcessing (agentName : string) (fileMetrics : FileMetrics.t)
| CompleteAgent (agentName : string) (now : Z).

Definition perform (this : t Num) (call : Call) : t Num :=
  match call with
  | InitializeAgent agentName now => initializeAgent agentName now this
  | StartAgentWork agentName now => startAgentWork agentName now this
  | EndAgentWork agentName now => endAgentWork agentName now this
  | RecordApiCall agentName callMetrics => recordApiCall agentName callMetrics this
  | RecordFileProcessing agentName fileMetrics =>
      recordFileProcessing agentName fileMetrics this
  | CompleteAgent agentName now => completeAgent agentName now this
  end.

(** The metrics object after a sequence of calls on a new one. *)
Definition after (now : Z) (calls : list Call) : t Num :=
  fold_left perform calls (constructor now).

(** The files given to [recordFileProcessing] in a sequence of calls. *)
Definition recorded (call : Call) : option LargestFile.t :=
  match call with
  | RecordFileProcessing _ fileMetrics =>
      Some (LargestFile.mk (default "" (FileMetrics.fileName fileMetrics))
              (default 0 (FileMetrics.fileSize fileMetrics)))
  | _ => None
  end.

Definition truncated (call : Call) : bool :=
  match call with
  | RecordFileProcessing _ fileMetrics => default false (FileMetrics.wasTruncated fileMetrics)
  | _ => false
  end.

(** The metrics given to [recordApiCall] in a sequence of calls. *)
Definition apiCall (call : Call) : option (CallMetrics.t Num) :=
  match call with RecordApiCall _ callMetrics => Some callMetrics | _ => None end.

Definition initializes (agentName : string) (call : Call) : bool :=
  match call with
  | InitializeAgent initialized _ => bool_decide (initialized = agentName)
  | _ => false
  end.

(** The sum of a counter over the agents. *)
Definition overAgents (counter : AgentData.t Num -> Z) (this : t Num) : Z :=
  map_fold (fun _ agentData sum => counter agentData + sum) 0 (agentMetrics this).

(** [covered]: the counters of every agent are not negative and their sums
    do not exceed the global counters. *)
Definition covered (this : t Num) : Prop :=
  (forall agentName d,
     agentMetrics this !! agentName = Some d ->
     0 <= AgentData.filesProcessed d /\ 0 <= AgentData.contentTruncated d /\
     0 <= AgentData.apiCalls d) /\
  overAgents AgentData.filesProcessed this
    <= GlobalMetrics.filesProcessed (globalMetrics this) /\
  overAgents AgentData.contentTruncated this
    <= GlobalMetrics.contentTruncated (globalMetrics this) /\
  overAgents AgentData.apiCalls this <= GlobalMetrics.totalApiCalls (globalMetrics this).

End Methods.
End AnalysisMetrics.

(** Largest first. *)
Definition bySizeDescending (files : list LargestFile.t) : Prop :=
  StronglySorted (fun a b => LargestFile.size b <= LargestFile.size a) files.

(** * Properties *)

(** ** A small program logic for [M] *)

Section Preservation.
Variable R : State -> State -> Prop.
Hypothesis R_refl : forall s, R s s.
Hypothesis R_trans : forall s1 s2 s3, R s1 s2 -> R s2 s3 -> R s1 s3.

Lemma preserves_ret {A} (a : A) : preserves R (ret a).
Proof. intros s. apply R_refl. Qed.

Lemma preserves_throw {A} e : preserves R (@throw A e).
Proof. intros s. apply R_refl. Qed.

Lemma preserves_gets {A} (f : State -> A) : preserves R (gets f).
Proof. intros s. apply R_refl. Qed.

Lemma preserves_modify f : (forall s, R s (f s)) -> preserves R (modify f).
Proof. intros H s. apply H. Qed.

Lemma preserves_bind {A B} (m : M A) (k : A -> M B) :
  preserves R m -> (forall a, preserves R (k a)) -> preserves R (bind m k).
Proof.
  intros Hm Hk s. unfold bind. specialize (Hm s).
  destruct (m s) as [[a|e] s1]; simpl in *; [|exact Hm].
  eapply R_trans; [exact Hm | apply Hk].
Qed.

Lemma preserves_try_catch {A} (body : M A) handler :
  preserves R body -> (forall e, preserves R (handler e)) -> preserves R (try_catch body handler).
Proof.
  intros Hm Hk s. unfold try_catch. specialize (Hm s).
  destruct (body s) as [[a|e] s1]; simpl in *; [exact Hm|].
  eapply R_trans; [exact Hm | apply Hk].
Qed.

Lemma preserves_if {A} (b : bool) (m1 m2 : M A) :
  preserves R m1 -> preserves R m2 -> preserves R (if b then m1 else m2).
Proof. destruct b; auto. Qed.
End Preservation.

Lemma succeeds_ret {A} (a : A) : succeeds (ret a).
Proof. intros s. eexists. reflexivity. Qed.

Lemma succeeds_gets {A} (f : State -> A) : succeeds (gets f).
Proof. intros s. eexists. reflexivity. Qed.

Lemma succeeds_modify f : succeeds (modify f).
Proof. intros s. eexists. reflexivity. Qed.

Lemma succeeds_emit e : succeeds (emit e).
Proof. apply succeeds_modify. Qed.

Lemma succeeds_bind {A B} (m : M A) (k : A -> M B) :
  succeeds m -> (forall a, succeeds (k a)) -> succeeds (bind m k).
Proof.
  intros Hm Hk s. unfold bind. destruct (Hm s) as [a Ha].
  destruct (m s) as [[a'|e] s1]; simpl in Ha; [|discriminate].
  apply Hk.
Qed.

Lemma succeeds_try_catch {A} (body : M A) handler :
  (forall e, succeeds (handler e)) -> succeeds (try_catch body handler).
Proof.
  intros Hk s. unfold try_catch.
  destruct (body s) as [[a|e] s1]; simpl; [eexists; reflexivity | apply Hk].
Qed.

Lemma succeeds_if {A} (b : bool) (m1 m2 : M A) :
  succeeds m1 -> succeeds m2 -> succeeds (if b then m1 else m2).
Proof. destruct b; auto. Qed.

Lemma succeeds_run {A} (m : M A) s :
  succeeds m -> exists a s', m s = (Ok a, s').
Proof.
  intros H. destruct (H s) as [a Ha]. destruct (m s) as [r s'] eqn:E.
  simpl in Ha. subst r. eauto.
Qed.

Lemma filter_none {A} (P : A -> Prop) `{forall x, Decision (P x)} (l : list A) :
  (forall x, x ∈ l -> ~ P x) -> filter P l = [].
Proof.
  induction l as [|x l IH]; intros Hl; [reflexivity|].
  rewrite filter_cons_False; [|apply Hl; apply elem_of_cons; left; reflexivity].
  apply IH. intros y Hy. apply Hl. apply elem_of_cons. right. exact Hy.
Qed.

(** ** Nothing in a round throws *)

Lemma succeeds_appendToErrorLog content : succeeds (appendToErrorLog content).
Proof. apply succeeds_modify. Qed.

Lemma succeeds_logError message : succeeds (logError message).
Proof. apply succeeds_appendToErrorLog. Qed.

Lemma succeeds_logCoordinationTimeout agentPair questions :
  succeeds (logCoordinationTimeout agentPair questions).
Proof.
  apply succeeds_bind; [apply succeeds_gets | intros; apply succeeds_appendToErrorLog].
Qed.

Lemma succeeds_getRoundCount pairKey : succeeds (getRoundCount pairKey).
Proof. apply succeeds_gets. Qed.

Lemma succeeds_incrementRoundCount pairKey : succeeds (incrementRoundCount pairKey).
Proof.
  apply succeeds_bind; [apply succeeds_gets | intros; apply succeeds_modify].
Qed.

Lemma succeeds_processQuestions answeringAgent questions askingAgentName :
  succeeds (processQuestions answeringAgent questions askingAgentName).
Proof.
  induction questions as [|question rest IH]; simpl.
  - apply succeeds_ret.
  - apply succeeds_bind; [|intros; exact IH].
    apply succeeds_try_catch. intros e. apply succeeds_logError.
Qed.

Lemma succeeds_facilitateCoordination agent1 agent2 pairKey :
  succeeds (facilitateCoordination agent1 agent2 pairKey).
Proof.
  apply succeeds_bind; [apply succeeds_emit|]. intros _.
  apply succeeds_try_catch. intros e. apply succeeds_logError.
Qed.

Lemma succeeds_coordinatePairs agentPairs : succeeds (coordinatePairs agentPairs).
Proof.
  induction agentPairs as [|p rest IH]; simpl.
  - apply succeeds_ret.
  - apply succeeds_bind; [apply succeeds_getRoundCount|]. intros count.
    apply succeeds_bind; [apply succeeds_gets|]. intros mr.
    apply succeeds_bind; [|intros; exact IH].
    apply succeeds_if;
      [apply succeeds_logCoordinationTimeout | apply succeeds_facilitateCoordination].
Qed.

Lemma succeeds_coordinationRound agents : succeeds (coordinationRound agents).
Proof.
  apply succeeds_bind; [apply succeeds_gets|]. intros r.
  apply succeeds_bind; [apply succeeds_emit|]. intros _.
  apply succeeds_coordinatePairs.
Qed.

(** ** Equations of the methods *)

Lemma bind_ok {A B} (m : M A) (k : A -> M B) s a s1 :
  m s = (Ok a, s1) -> bind m k s = k a s1.
Proof. intros E. unfold bind. rewrite E. reflexivity. Qed.

Lemma bind_throw {A B} (m : M A) (k : A -> M B) s e s1 :
  m s = (Throw e, s1) -> bind m k s = (Throw e, s1).
Proof. intros E. unfold bind. rewrite E. reflexivity. Qed.

Lemma bind_assoc {A B C} (m : M A) (f : A -> M B) (g : B -> M C) s :
  bind (bind m f) g s = bind m (fun a => bind (f a) g) s.
Proof. unfold bind. destruct (m s) as [[a|e] s1]; reflexivity. Qed.

Lemma try_catch_bind_ok {A B} (m : M A) (k : A -> M B) handler s a s1 :
  m s = (Ok a, s1) -> try_catch (bind m k) handler s = try_catch (k a) handler s1.
Proof. intros E. unfold try_catch, bind. rewrite E. reflexivity. Qed.

Lemma try_catch_throw {A} (body : M A) handler s e s1 :
  body s = (Throw e, s1) -> try_catch body handler s = handler e s1.
Proof. intros E. unfold try_catch. rewrite E. reflexivity. Qed.

Lemma try_catch_ok {A} (body : M A) handler s a s1 :
  body s = (Ok a, s1) -> try_catch body handler s = (Ok a, s1).
Proof. intros E. unfold try_catch. rewrite E. reflexivity. Qed.

Lemma processQuestions_cons answeringAgent question rest askingAgentName :
  processQuestions answeringAgent (question :: rest) askingAgentName
  = bind (try_catch (answerAndRecord answeringAgent question askingAgentName)
            (fun message =>
               logError (processingError askingAgentName (name answeringAgent) message)))
      (fun _ => processQuestions answeringAgent rest askingAgentName).
Proof. reflexivity. Qed.

Lemma facilitateCoordination_exchange agent1 agent2 pairKey s :
  facilitateCoordination agent1 agent2 pairKey s
  = try_catch
      (let* _ := exchange agent1 agent2 pairKey in exchange agent2 agent1 pairKey)
      (fun message => logError (coordinationError (name agent1) (name agent2) message))
      (entered pairKey s).
Proof.
  unfold facilitateCoordination, bind at 1, emit, modify. cbn iota beta.
  fold (entered pairKey s). unfold try_catch, exchange.
  rewrite bind_assoc. reflexivity.
Qed.

(** The loop body of [startCoordinationRound], one pair at a time. *)
Lemma coordinatePairs_cons p rest s :
  coordinatePairs (p :: rest) s =
  bind (if Z.geb (roundCount s (pairKeyOf p)) (maxRounds s)
        then logCoordinationTimeout (pairKeyOf p) []
        else facilitateCoordination (fst p) (snd p) (pairKeyOf p))
       (fun _ => coordinatePairs rest) s.
Proof. reflexivity. Qed.

Lemma coordinationRound_eq agents s :
  coordinationRound agents s
  = coordinatePairs (getAgentPairs agents)
      (set_trace (trace s ++ [RoundStarted (currentRound s)]) s).
Proof. reflexivity. Qed.

Lemma coordinatePairs_app before rest s :
  coordinatePairs (before ++ rest) s = coordinatePairs rest (snd (coordinatePairs before s)).
Proof.
  revert s. induction before as [|p before IH]; intros s; [reflexivity|].
  rewrite <- app_comm_cons, !coordinatePairs_cons.
  set (m := if Z.geb _ _ then _ else _).
  assert (Hm : succeeds m).
  { unfold m. apply succeeds_if;
      [apply succeeds_logCoordinationTimeout | apply succeeds_facilitateCoordination]. }
  destruct (succeeds_run _ s Hm) as ([] & s1 & E).
  rewrite !(bind_ok _ _ _ _ _ E). apply IH.
Qed.

(** ** The frame of a round's steps *)

Lemma frame_refl s : frame s s.
Proof. split; auto; intros; lia. Qed.

Lemma frame_trans s1 s2 s3 : frame s1 s2 -> frame s2 s3 -> frame s1 s3.
Proof.
  intros [] []. split; try congruence.
  - intros k. etransitivity; eauto.
  - etransitivity; eauto.
  - auto.
Qed.

Ltac preserves_with Hrefl Htrans :=
  lazymatch goal with
  | |- preserves _ (ret _) => apply preserves_ret; apply Hrefl
  | |- preserves _ (throw _) => apply preserves_throw; apply Hrefl
  | |- preserves _ (gets _) => apply preserves_gets; apply Hrefl
  | |- preserves _ (bind _ _) => apply preserves_bind; [apply Htrans | | intros ?]
  | |- preserves _ (try_catch _ _) =>
      apply preserves_try_catch; [apply Htrans | | intros ?]
  | |- preserves _ (if _ then _ else _) => apply preserves_if
  | |- preserves _ (let _ := _ in _) => cbv zeta
  end.

Ltac frame_step := preserves_with frame_refl frame_trans.

Lemma roundsRun_emit e s :
  roundsRun (set_trace (trace s ++ [e]) s)
  = (roundsRun s + (if isRoundStarted e then 1 else 0))%nat.
Proof.
  unfold roundsRun; simpl. rewrite List.filter_app, length_app; simpl.
  destruct (isRoundStarted e); reflexivity.
Qed.

Lemma pairAttempts_emit e s :
  pairAttempts (set_trace (trace s ++ [e]) s)
  = (pairAttempts s + (if isFacilitated e then 1 else 0))%nat.
Proof.
  unfold pairAttempts; simpl. rewrite List.filter_app, length_app; simpl.
  destruct (isFacilitated e); reflexivity.
Qed.

Lemma frame_emit e :
  isRoundStarted e = false -> isFacilitated e = false -> preserves frame (emit e).
Proof.
  intros H1 H2 s. unfold emit, modify; simpl. split; try reflexivity.
  - rewrite roundsRun_emit, H1. lia.
  - rewrite pairAttempts_emit, H2. lia.
  - apply prefix_app_r. reflexivity.
  - auto.
Qed.

Lemma frame_appendToErrorLog content : preserves frame (appendToErrorLog content).
Proof. intros s. split; try reflexivity. auto. Qed.

Lemma frame_logError message : preserves frame (logError message).
Proof. apply frame_appendToErrorLog. Qed.

Lemma frame_logCoordinationTimeout agentPair questions :
  preserves frame (logCoordinationTimeout agentPair questions).
Proof.
  unfold logCoordinationTimeout. repeat frame_step. apply frame_appendToErrorLog.
Qed.

Lemma roundCount_increment s pairKey k :
  roundCount (set_roundLimits (<[pairKey := roundCount s pairKey + 1]> (roundLimits s)) s) k
  = if decide (pairKey = k) then roundCount s k + 1 else roundCount s k.
Proof.
  unfold roundCount; simpl. rewrite lookup_insert.
  destruct (decide (pairKey = k)); subst; reflexivity.
Qed.

Lemma frame_incrementRoundCount pairKey : preserves frame (incrementRoundCount pairKey).
Proof.
  intros s. unfold incrementRoundCount, getRoundCount, bind, gets, modify; simpl.
  split; try reflexivity; [|auto].
  intros k. fold (roundCount s pairKey). rewrite roundCount_increment.
  destruct (decide (pairKey = k)); lia.
Qed.

Lemma readFile_state path s : snd (readFile path s) = s.
Proof. unfold readFile. destruct (files s !! path); reflexivity. Qed.

Lemma frame_readFile path : preserves frame (readFile path).
Proof. intros s. rewrite readFile_state. apply frame_refl. Qed.

Lemma frame_respondToComment file commentId r :
  preserves frame (respondToComment file commentId r).
Proof.
  unfold respondToComment. frame_step; [apply frame_readFile|].
  destruct (resolveComment _ _ _).
  - intros s. split; try reflexivity. simpl. intros path H.
    rewrite lookup_insert. destruct (decide (file = path)); [eexists; reflexivity | exact H].
  - apply frame_emit; reflexivity.
Qed.

Lemma frame_respondToQuestion answeringAgent question askingAgent :
  preserves frame (respondToQuestion answeringAgent question askingAgent).
Proof.
  unfold respondToQuestion. repeat frame_step.
  - apply frame_emit; reflexivity.
  - destruct (answer _ _ _ _); frame_step.
Qed.

Lemma frame_checkForQuestions fromAgent toAgentName :
  preserves frame (checkForQuestions fromAgent toAgentName).
Proof.
  unfold checkForQuestions. repeat frame_step. apply frame_readFile.
Qed.

Lemma frame_processQuestions answeringAgent questions askingAgentName :
  preserves frame (processQuestions answeringAgent questions askingAgentName).
Proof.
  induction questions as [|question rest IH]; simpl.
  - frame_step.
  - repeat frame_step; auto.
    + apply frame_respondToQuestion.
    + apply frame_respondToComment.
    + apply frame_logError.
Qed.

Lemma frame_stable s s' : frame s s' -> stable s s'.
Proof. intros []. split; auto. Qed.

Lemma stable_refl s : stable s s.
Proof. apply frame_stable, frame_refl. Qed.

Lemma stable_trans s1 s2 s3 : stable s1 s2 -> stable s2 s3 -> stable s1 s3.
Proof.
  intros [] []. split; try congruence.
  - intros k. etransitivity; eauto.
  - etransitivity; eauto.
  - auto.
Qed.

Lemma frame_facilitateCoordination_body agent1 agent2 pairKey :
  preserves frame
    (try_catch
       (let* questions1to2 := checkForQuestions agent1 (name agent2) in
        let* _ :=
          if Nat.ltb 0 (length questions1to2) then
            let* _ := processQuestions agent2 questions1to2 (name agent1) in
            incrementRoundCount pairKey
          else ret tt in
        let* questions2to1 := checkForQuestions agent2 (name agent1) in
        if Nat.ltb 0 (length questions2to1) then
          let* _ := processQuestions agent1 questions2to1 (name agent2) in
          incrementRoundCount pairKey
        else ret tt)
       (fun message =>
          logError ("Coordination error between " +:+ name agent1 +:+ " and "
                    +:+ name agent2 +:+ ": " +:+ message))).
Proof.
  repeat frame_step;
    auto using frame_checkForQuestions, frame_processQuestions,
      frame_incrementRoundCount, frame_logError.
Qed.

(** One pair exchange counts as exactly one attempt and starts no round. *)
Lemma facilitateCoordination_counts agent1 agent2 pairKey s :
  let s' := snd (facilitateCoordination agent1 agent2 pairKey s) in
  stable s s' /\ roundsRun s' = roundsRun s /\ pairAttempts s' = S (pairAttempts s).
Proof.
  unfold facilitateCoordination.
  match goal with |- context [bind _ (fun _ => ?b)] => set (body := b) end.
  assert (Hb : preserves frame body)
    by apply frame_facilitateCoordination_body.
  clearbody body. unfold bind, emit, modify. cbn iota beta.
  set (s1 := set_trace _ s). cbv zeta.
  destruct (Hb s1) as [H1 H2 H3 H4 H5 H6 H7 H8].
  assert (Hr : roundsRun s1 = roundsRun s)
    by (unfold s1; rewrite roundsRun_emit; simpl; lia).
  assert (Hp : pairAttempts s1 = S (pairAttempts s))
    by (unfold s1; rewrite pairAttempts_emit; simpl; lia).
  split; [|split]; [|congruence|congruence].
  split; try (etransitivity; [eassumption|reflexivity]).
  - intros k. specialize (H6 k). exact H6.
  - etransitivity; [|exact H7]. unfold s1; simpl. apply prefix_app_r. reflexivity.
  - exact H8.
Qed.

Lemma coordinatePairs_counts agentPairs s :
  let s' := snd (coordinatePairs agentPairs s) in
  stable s s' /\ roundsRun s' = roundsRun s /\
  (pairAttempts s' <= pairAttempts s + length agentPairs)%nat /\
  (maxRounds s <= 0 -> nonnegCounts s -> pairAttempts s' = pairAttempts s).
Proof.
  revert s. induction agentPairs as [|p rest IH]; intros s.
  - simpl. split; [apply stable_refl|]. split; [reflexivity|]. split; [lia|]. reflexivity.
  - rewrite coordinatePairs_cons. cbv zeta.
    destruct (Z.geb (roundCount s (pairKeyOf p)) (maxRounds s)) eqn:Hge.
    + pose proof (frame_logCoordinationTimeout (pairKeyOf p) [] s) as Hf.
      destruct (succeeds_run _ s (succeeds_logCoordinationTimeout (pairKeyOf p) []))
        as ([] & s1 & E).
      rewrite (bind_ok _ _ _ _ _ E). rewrite E in Hf. simpl in Hf.
      specialize (IH s1). cbv zeta in IH. destruct IH as (I1 & I2 & I3 & I4).
      pose proof (frame_stable _ _ Hf) as Hs. destruct Hf as [F1 F2 F3 F4 F5 F6 F7 F8].
      split; [apply (stable_trans _ _ _ Hs I1)|].
      split; [lia|]. split; [simpl; lia|].
      intros Hm Hn. rewrite I4; try lia.
      intros k. specialize (F6 k). specialize (Hn k). lia.
    + pose proof (facilitateCoordination_counts (fst p) (snd p) (pairKeyOf p) s) as Hf.
      cbv zeta in Hf.
      destruct (succeeds_run _ s
                  (succeeds_facilitateCoordination (fst p) (snd p) (pairKeyOf p)))
        as ([] & s1 & E).
      rewrite (bind_ok _ _ _ _ _ E). rewrite E in Hf. simpl in Hf.
      destruct Hf as (Hs & Hr & Hp).
      specialize (IH s1). cbv zeta in IH. destruct IH as (I1 & I2 & I3 & I4).
      split; [apply (stable_trans _ _ _ Hs I1)|].
      split; [lia|]. split; [simpl; lia|].
      intros Hm Hn. exfalso. specialize (Hn (pairKeyOf p)).
      rewrite Z.geb_leb in Hge. apply Z.leb_gt in Hge. lia.
Qed.

Lemma coordinationRound_counts agents s :
  let s' := snd (coordinationRound agents s) in
  stable s s' /\ roundsRun s' = S (roundsRun s) /\
  (pairAttempts s' <= pairAttempts s + length (getAgentPairs agents))%nat /\
  (maxRounds s <= 0 -> nonnegCounts s -> pairAttempts s' = pairAttempts s).
Proof.
  rewrite coordinationRound_eq.
  set (s1 := set_trace _ s).
  destruct (coordinatePairs_counts (getAgentPairs agents) s1) as (I1 & I2 & I3 & I4).
  assert (Hr : roundsRun s1 = S (roundsRun s))
    by (unfold s1; rewrite roundsRun_emit; simpl; lia).
  assert (Hp : pairAttempts s1 = pairAttempts s)
    by (unfold s1; rewrite pairAttempts_emit; simpl; lia).
  cbv zeta. split; [|split; [lia|split; [lia|]]].
  - destruct I1 as [J1 J2 J3 J4 J5 J6]. split; auto.
    etransitivity; [|exact J5]. unfold s1; simpl. apply prefix_app_r. reflexivity.
  - intros Hm Hn. rewrite I4; auto.
Qed.

(** Looking for pending questions reads files and changes nothing. *)
Lemma checkPendingQuestions_state agents s : snd (checkPendingQuestions agents s) = s.
Proof.
  induction agents as [|agent rest IH]; simpl; [reflexivity|].
  unfold bind at 1. pose proof (readFile_state (workingFile agent) s) as Hr.
  destruct (readFile (workingFile agent) s) as [[content|e] s1]; simpl in Hr; subst s1;
    [|reflexivity].
  unfold bind. destruct (checkPendingQuestions rest s) as [[others|e] s2];
    simpl in IH; subst s2; reflexivity.
Qed.

Lemma hasPendingQuestions_state agents s : snd (hasPendingQuestions agents s) = s.
Proof.
  unfold hasPendingQuestions, bind.
  pose proof (checkPendingQuestions_state agents s) as H.
  destruct (checkPendingQuestions agents s) as [[l|e] s1]; simpl in H; subst; reflexivity.
Qed.

(** ** Rounds and pair exchanges of a call *)

(** [getAgentPairs] lists the n(n-1)/2 unordered pairs. *)
Lemma getAgentPairs_length_double agentList :
  (2 * length (getAgentPairs agentList) = length agentList * (length agentList - 1))%nat.
Proof.
  induction agentList as [|agent rest IH]; simpl; [reflexivity|].
  rewrite length_app, length_map. nia.
Qed.


Section Run.
Variable agents : list Agent.

(** The recursion of [startCoordinationRound] returns whenever the fuel
    covers the rounds left, and how much a call can do is bounded by the
    rounds left. *)
Lemma startCoordinationRound_fuel_bounds fuel : forall s,
  (Z.to_nat (maxRounds s - currentRound s) <= fuel)%nat ->
  exists r s',
    startCoordinationRound_fuel fuel agents s = Some (r, s') /\
    maxRounds s' = maxRounds s /\
    (forall pairKey, roundCount s pairKey <= roundCount s' pairKey) /\
    Z.of_nat (roundsRun s) < Z.of_nat (roundsRun s') <= Z.of_nat (roundsRun s) + roundsLeft s /\
    Z.of_nat (pairAttempts s') <= Z.of_nat (pairAttempts s) + roundsLeft s * pairCount agents /\
    (maxRounds s <= 0 -> nonnegCounts s -> pairAttempts s' = pairAttempts s).
Proof.
  induction fuel as [|fuel IH]; intros s Hfuel.
  all: destruct (succeeds_run _ s (succeeds_coordinationRound agents)) as ([] & s1 & E).
  all: destruct (coordinationRound_counts agents s) as ([S1 S2 S3 S4 S5 S6] & Hr & Hp & Hz).
  all: rewrite E in *; simpl in S1, S2, S3, S4, S5, S6, Hr, Hp, Hz.
  all: simpl; rewrite E.
  all: assert (Hdone :
    Z.of_nat (roundsRun s) < Z.of_nat (roundsRun s1) <= Z.of_nat (roundsRun s) + roundsLeft s /\
    Z.of_nat (pairAttempts s1) <= Z.of_nat (pairAttempts s) + roundsLeft s * pairCount agents)
    by (unfold roundsLeft, pairCount; split; [lia|nia]).
  all: destruct (Z.ltb (currentRound s1) (maxRounds s1)) eqn:Hlt;
    [|exists (Ok true), s1; intuition].
  all: pose proof (hasPendingQuestions_state agents s1) as Hst.
  all: destruct (hasPendingQuestions agents s1) as [[[|]|e] s2]; simpl in Hst; subst s2.
  all: try (eexists _, s1; split; [reflexivity|]; intuition; fail).
  - apply Z.ltb_lt in Hlt. lia.
  - apply Z.ltb_lt in Hlt.
    set (s2 := set_currentRound (currentRound s1 + 1) s1).
    destruct (IH s2) as (r & s' & E' & M1 & M2 & M3 & M4 & M5).
    { unfold s2; simpl. lia. }
    exists r, s'. split; [exact E'|].
    assert (B2 : roundsLeft s2 + 1 = roundsLeft s)
      by (unfold roundsLeft, s2; simpl; lia).
    change (roundsRun s2) with (roundsRun s1) in M3.
    change (pairAttempts s2) with (pairAttempts s1) in M4, M5.
    change (maxRounds s2) with (maxRounds s1) in M1, M5.
    split; [congruence|].
    split; [intros k; specialize (M2 k); specialize (S4 k);
            change (roundCount s2 k) with (roundCount s1 k) in M2; lia|].
    split; [lia|]. split; [unfold pairCount in *; nia|].
    intros Hm Hn. rewrite M5; auto; try lia.
    intros k. specialize (S4 k). specialize (Hn k).
    change (roundCount s2 k) with (roundCount s1 k). lia.
Qed.
End Run.

(** ** C1: termination bound *)



(** ** Every question handed to [processQuestions] is asked *)

Lemma frame_answerAndRecord answeringAgent question askingAgentName :
  preserves frame (answerAndRecord answeringAgent question askingAgentName).
Proof.
  unfold answerAndRecord. repeat frame_step.
  - apply frame_respondToQuestion.
  - apply frame_respondToComment.
Qed.

Lemma respondToQuestion_asked answeringAgent question askingAgent s :
  Asked (name answeringAgent) (Comment.id question) askingAgent
  ∈ trace (snd (respondToQuestion answeringAgent question askingAgent s)).
Proof.
  unfold respondToQuestion, bind, gets, emit, modify. cbn iota beta.
  destruct (answer _ _ _ _); simpl; apply elem_of_app; right; apply list_elem_of_singleton;
    reflexivity.
Qed.

Lemma answerAndRecord_asked answeringAgent question askingAgentName s :
  Asked (name answeringAgent) (Comment.id question) askingAgentName
  ∈ trace (snd (answerAndRecord answeringAgent question askingAgentName s)).
Proof.
  unfold answerAndRecord, bind.
  pose proof (respondToQuestion_asked answeringAgent question askingAgentName s) as H.
  destruct (respondToQuestion _ _ _ s) as [[response|e] s1]; simpl in H; [|exact H].
  cbv zeta. eapply elem_of_prefix; [exact H|].
  destruct (truthy _).
  - apply (frame_respondToComment _ _ _ s1).
  - reflexivity.
Qed.

Lemma processQuestions_asks answeringAgent askingAgentName questions : forall s question,
  question ∈ questions ->
  Asked (name answeringAgent) (Comment.id question) askingAgentName
  ∈ trace (snd (processQuestions answeringAgent questions askingAgentName s)).
Proof.
  induction questions as [|q rest IH]; intros s question Hin.
  - apply elem_of_nil in Hin. destruct Hin.
  - rewrite processQuestions_cons.
    set (step := try_catch _ _).
    assert (Hstep : succeeds step)
      by (apply succeeds_try_catch; intros; apply succeeds_logError).
    destruct (succeeds_run _ s Hstep) as ([] & s1 & E).
    rewrite (bind_ok _ _ _ _ _ E).
    apply elem_of_cons in Hin as [->|Hin]; [|apply IH; exact Hin].
    eapply elem_of_prefix;
      [|apply (frame_processQuestions answeringAgent rest askingAgentName s1)].
    replace s1 with (snd (step s)) by (rewrite E; reflexivity).
    unfold step, try_catch.
    pose proof (answerAndRecord_asked answeringAgent q askingAgentName s) as H.
    destruct (answerAndRecord answeringAgent q askingAgentName s) as [[[]|e] s2];
      simpl in H; [exact H|].
    eapply elem_of_prefix; [exact H|]. apply (frame_logError _ s2).
Qed.

(** ** One direction of an exchange *)

Lemma checkForQuestions_readable fromAgent toAgentName s d :
  files s !! workingFile fromAgent = Some d ->
  checkForQuestions fromAgent toAgentName s
  = (Ok (filter (isQuestionFor toAgentName (currentRound s)) (ledger d)), s).
Proof.
  intros Hd. unfold checkForQuestions, bind, readFile. rewrite Hd. reflexivity.
Qed.

Lemma frame_exchange asking answering pairKey :
  preserves frame (exchange asking answering pairKey).
Proof.
  unfold exchange. repeat frame_step;
    auto using frame_checkForQuestions, frame_processQuestions, frame_incrementRoundCount.
Qed.

Lemma exchange_readable asking answering pairKey s :
  is_Some (files s !! workingFile asking) ->
  exists s', exchange asking answering pairKey s = (Ok tt, s').
Proof.
  intros [d Hd]. unfold exchange.
  rewrite (bind_ok _ _ _ _ _ (checkForQuestions_readable _ _ _ _ Hd)).
  destruct (Nat.ltb 0 _).
  - match goal with |- exists s', ?m s = _ => destruct (succeeds_run m s) as ([] & s' & E) end.
    + apply succeeds_bind;
        [apply succeeds_processQuestions | intros; apply succeeds_incrementRoundCount].
    + exists s'. exact E.
  - eexists. reflexivity.
Qed.

Lemma exchange_asks asking answering pairKey s d comment :
  files s !! workingFile asking = Some d ->
  comment ∈ ledger d ->
  isQuestionFor (name answering) (currentRound s) comment ->
  Asked (name answering) (Comment.id comment) (name asking)
  ∈ trace (snd (exchange asking answering pairKey s)).
Proof.
  intros Hd Hin Hq. unfold exchange.
  rewrite (bind_ok _ _ _ _ _ (checkForQuestions_readable _ _ _ _ Hd)).
  set (questions := filter _ _).
  assert (Hc : comment ∈ questions) by (apply list_elem_of_filter; split; assumption).
  destruct questions as [|q rest] eqn:Eq; [apply elem_of_nil in Hc; destruct Hc|].
  rewrite <- Eq in *. replace (Nat.ltb 0 (length questions)) with true
    by (rewrite Eq; reflexivity).
  destruct (succeeds_run _ s (succeeds_processQuestions answering questions (name asking)))
    as ([] & s1 & E).
  rewrite (bind_ok _ _ _ _ _ E).
  eapply elem_of_prefix; [|apply (frame_incrementRoundCount pairKey s1)].
  replace s1 with (snd (processQuestions answering questions (name asking) s))
    by (rewrite E; reflexivity).
  apply processQuestions_asks. exact Hc.
Qed.

(** Whatever a direction asked is still on record when
    [facilitateCoordination] is over. *)
Lemma facilitateCoordination_first agent1 agent2 pairKey s :
  trace (snd (exchange agent1 agent2 pairKey (entered pairKey s)))
  `prefix_of` trace (snd (facilitateCoordination agent1 agent2 pairKey s)).
Proof.
  rewrite facilitateCoordination_exchange.
  set (s0 := entered pairKey s). unfold try_catch, bind.
  destruct (exchange agent1 agent2 pairKey s0) as [[[]|e] s1]; cbn [fst snd].
  - pose proof (frame_exchange agent2 agent1 pairKey s1) as H.
    destruct (exchange agent2 agent1 pairKey s1) as [[[]|e] s2]; cbn [fst snd] in *.
    + apply H.
    + etransitivity; [apply H|].
      apply (frame_logError (coordinationError (name agent1) (name agent2) e) s2).
  - apply (frame_logError (coordinationError (name agent1) (name agent2) e) s1).
Qed.

Lemma facilitateCoordination_second agent1 agent2 pairKey s :
  is_Some (files s !! workingFile agent1) ->
  trace (snd (exchange agent2 agent1 pairKey
                (snd (exchange agent1 agent2 pairKey (entered pairKey s)))))
  `prefix_of` trace (snd (facilitateCoordination agent1 agent2 pairKey s)).
Proof.
  intros Hr. rewrite facilitateCoordination_exchange.
  set (s0 := entered pairKey s).
  destruct (exchange_readable agent1 agent2 pairKey s0 Hr) as (s1 & E1).
  rewrite (try_catch_bind_ok _ _ _ _ _ _ E1), E1. cbn [fst snd].
  unfold try_catch.
  destruct (exchange agent2 agent1 pairKey s1) as [[[]|e] s2]; cbn [fst snd].
  - reflexivity.
  - apply (frame_logError (coordinationError (name agent1) (name agent2) e) s2).
Qed.

Lemma currentRound_coordinatePairs agentPairs s :
  currentRound (snd (coordinatePairs agentPairs s)) = currentRound s.
Proof. destruct (coordinatePairs_counts agentPairs s) as ([_ H _ _ _ _] & _). exact H. Qed.

Lemma trace_coordinatePairs agentPairs s :
  trace s `prefix_of` trace (snd (coordinatePairs agentPairs s)).
Proof. destruct (coordinatePairs_counts agentPairs s) as ([_ _ _ _ H _] & _). exact H. Qed.

(** ** Questions of other rounds are left alone *)

Lemma quiet_refl commentId s : quiet commentId s s.
Proof. intros H. split; [exact H|]. split; [reflexivity|]. auto. Qed.

Lemma quiet_trans commentId s1 s2 s3 :
  quiet commentId s1 s2 -> quiet commentId s2 s3 -> quiet commentId s1 s3.
Proof.
  intros H12 H23 H1. destruct (H12 H1) as (H2 & E2 & T2).
  destruct (H23 H2) as (H3 & E3 & T3).
  split; [exact H3|]. split; [congruence|]. auto.
Qed.

Lemma quiet_same commentId s s' :
  files s' = files s -> trace s' = trace s -> currentRound s' = currentRound s ->
  quiet commentId s s'.
Proof.
  intros Hf Ht Hc H. split; [|split; [exact Hc|]].
  - intros path d c. rewrite Hf, Hc. apply H.
  - intros a b. rewrite Ht. auto.
Qed.

Lemma quiet_emit commentId e :
  (forall answering asking, e <> Asked answering commentId asking) ->
  preserves (quiet commentId) (emit e).
Proof.
  intros He s H. split; [exact H|]. split; [reflexivity|].
  intros a b Hin. simpl in Hin. apply elem_of_app in Hin as [Hin|Hin]; [exact Hin|].
  apply list_elem_of_singleton in Hin. symmetry in Hin. destruct (He _ _ Hin).
Qed.

Lemma quiet_logError commentId message : preserves (quiet commentId) (logError message).
Proof. intros s. apply quiet_same; reflexivity. Qed.

Lemma quiet_logCoordinationTimeout commentId agentPair questions :
  preserves (quiet commentId) (logCoordinationTimeout agentPair questions).
Proof. intros s. apply quiet_same; reflexivity. Qed.

Lemma quiet_incrementRoundCount commentId pairKey :
  preserves (quiet commentId) (incrementRoundCount pairKey).
Proof. intros s. apply quiet_same; reflexivity. Qed.

Lemma quiet_readFile commentId path : preserves (quiet commentId) (readFile path).
Proof. intros s. rewrite readFile_state. apply quiet_refl. Qed.

(** Resolving changes neither the id nor the round number of a comment. *)
Lemma resolveComment_keeps l commentId r l' :
  resolveComment l commentId r = Some l' ->
  forall c', c' ∈ l' ->
    exists c, c ∈ l /\ Comment.id c' = Comment.id c /\ Comment.round c' = Comment.round c.
Proof.
  revert l'. induction l as [|c rest IH]; intros l'; simpl; [discriminate|].
  destruct (decide (Comment.id c = commentId)).
  - intros [= <-] c' Hin. apply elem_of_cons in Hin as [->|Hin].
    + exists c. split; [apply elem_of_cons; left; reflexivity|].
      unfold resolve. destruct (Comment.status c); split; reflexivity.
    + exists c'. split; [apply elem_of_cons; right; exact Hin|]. split; reflexivity.
  - destruct (resolveComment rest commentId r) as [rest'|]; [|discriminate].
    intros [= <-] c' Hin. apply elem_of_cons in Hin as [->|Hin].
    + exists c. split; [apply elem_of_cons; left; reflexivity|]. split; reflexivity.
    + destruct (IH rest' eq_refl c' Hin) as (c0 & H0 & Hid & Hr).
      exists c0. split; [apply elem_of_cons; right; exact H0|]. split; assumption.
Qed.

Lemma quiet_respondToComment commentId file cid r :
  preserves (quiet commentId) (respondToComment file cid r).
Proof.
  intros s. unfold respondToComment, bind, readFile.
  destruct (files s !! file) as [content|] eqn:Hf; [|apply quiet_refl].
  destruct (resolveComment (ledger content) cid r) as [l'|] eqn:E.
  - intros H. split; [|split; [reflexivity|auto]].
    intros path d c Hd Hin Hid. simpl in Hd.
    rewrite lookup_insert in Hd. destruct (decide (file = path)) as [->|Hne].
    + injection Hd as <-. simpl in Hin.
      destruct (resolveComment_keeps _ _ _ _ E c Hin) as (c0 & H0 & Hid0 & Hr0).
      rewrite Hr0. apply (H path content c0 Hf H0). congruence.
    + eapply H; eauto.
  - apply (quiet_emit commentId (NotFoundWarning file cid)). discriminate.
Qed.

Lemma quiet_respondToQuestion commentId answeringAgent question askingAgent :
  Comment.id question <> commentId ->
  preserves (quiet commentId) (respondToQuestion answeringAgent question askingAgent).
Proof.
  intros Hne. unfold respondToQuestion.
  repeat preserves_with (quiet_refl commentId) (quiet_trans commentId).
  - apply quiet_emit. intros x y [= _ Hid _]. contradiction.
  - destruct (answer _ _ _ _); preserves_with (quiet_refl commentId) (quiet_trans commentId).
Qed.

Lemma quiet_processQuestions commentId answeringAgent questions askingAgentName :
  (forall question, question ∈ questions -> Comment.id question <> commentId) ->
  preserves (quiet commentId) (processQuestions answeringAgent questions askingAgentName).
Proof.
  induction questions as [|question rest IH]; intros Hq; simpl.
  - preserves_with (quiet_refl commentId) (quiet_trans commentId).
  - repeat preserves_with (quiet_refl commentId) (quiet_trans commentId).
    + apply quiet_respondToQuestion. apply Hq. apply elem_of_cons. left. reflexivity.
    + apply quiet_respondToComment.
    + apply quiet_logError.
    + apply IH. intros q Hin. apply Hq. apply elem_of_cons. right. exact Hin.
Qed.

Lemma quiet_exchange commentId asking answering pairKey :
  preserves (quiet commentId) (exchange asking answering pairKey).
Proof.
  intros s. unfold exchange, bind at 1, checkForQuestions, bind at 1, readFile.
  destruct (files s !! workingFile asking) as [content|] eqn:Hf; [|apply quiet_refl].
  cbn iota beta. unfold bind at 1, gets, ret. cbn iota beta.
  set (questions := filter _ _).
  destruct (Nat.ltb 0 (length questions)); [|apply quiet_refl].
  intros H.
  assert (Hq : forall question, question ∈ questions -> Comment.id question <> commentId).
  { intros question Hin Hid. apply list_elem_of_filter in Hin as [(_ & _ & Hr) Hin].
    exact (H _ _ _ Hf Hin Hid Hr). }
  exact (preserves_bind (quiet commentId) (quiet_trans commentId) _ _
           (quiet_processQuestions commentId answering questions (name asking) Hq)
           (fun _ => quiet_incrementRoundCount commentId pairKey) s H).
Qed.

Lemma quiet_facilitateCoordination commentId agent1 agent2 pairKey :
  preserves (quiet commentId) (facilitateCoordination agent1 agent2 pairKey).
Proof.
  intros s. rewrite facilitateCoordination_exchange.
  apply (quiet_trans commentId s (entered pairKey s)).
  - apply (quiet_emit commentId (Facilitated pairKey)). discriminate.
  - apply preserves_try_catch; [apply quiet_trans | | intros; apply quiet_logError].
    apply preserves_bind; [apply quiet_trans | apply quiet_exchange |].
    intros _. apply quiet_exchange.
Qed.

Lemma quiet_coordinatePairs commentId agentPairs :
  preserves (quiet commentId) (coordinatePairs agentPairs).
Proof.
  induction agentPairs as [|p rest IH]; intros s.
  - apply quiet_refl.
  - rewrite coordinatePairs_cons.
    apply preserves_bind; [apply quiet_trans | | intros; exact IH].
    apply preserves_if;
      [apply quiet_logCoordinationTimeout | apply quiet_facilitateCoordination].
Qed.

Lemma quiet_coordinationRound commentId agents :
  preserves (quiet commentId) (coordinationRound agents).
Proof.
  intros s. rewrite coordinationRound_eq.
  apply (quiet_trans commentId s (announced s)).
  - apply (quiet_emit commentId (RoundStarted (currentRound s))). discriminate.
  - apply quiet_coordinatePairs.
Qed.

(** ** C2: which questions a round attempts *)

Lemma questions_of_pair_attempted (agents : list Agent) (s se : State)
    (asking answering : Agent) (d : Document) (comment : Comment.t) :
  directionExamined agents s asking answering se ->
  files se !! workingFile asking = Some d ->
  comment ∈ ledger d ->
  Comment.targetAgent comment = name answering ->
  Comment.status comment = pending ->
  Comment.round comment = currentRound s ->
  Asked (name answering) (Comment.id comment) (name asking)
  ∈ trace (snd (coordinationRound agents s)).
Proof.
  intros (before & after & agent1 & agent2 & Hpairs & Hex) Hd Hin Ht Hs Hr.
  cbv zeta in Hex. destruct Hex as (Hlt & Hdir).
  rewrite coordinationRound_eq. fold (announced s).
  rewrite Hpairs, coordinatePairs_app.
  set (sp := snd (coordinatePairs before (announced s))) in *.
  set (pairKey := pairKeyOf (agent1, agent2)) in *.
  assert (Hcr : currentRound sp = currentRound s)
    by (unfold sp; rewrite currentRound_coordinatePairs; reflexivity).
  rewrite coordinatePairs_cons. fold pairKey.
  replace (Z.geb (roundCount sp pairKey) (maxRounds sp)) with false
    by (symmetry; rewrite Z.geb_leb; apply Z.leb_gt; exact Hlt).
  destruct (succeeds_run _ sp (succeeds_facilitateCoordination agent1 agent2 pairKey))
    as ([] & sf & E).
  simpl fst; simpl snd. rewrite (bind_ok _ _ _ _ _ E).
  eapply elem_of_prefix; [|apply trace_coordinatePairs].
  replace sf with (snd (facilitateCoordination agent1 agent2 pairKey sp))
    by (rewrite E; reflexivity).
  destruct Hdir as [(-> & -> & ->) | (-> & -> & Hread & ->)].
  - eapply elem_of_prefix; [|apply facilitateCoordination_first].
    eapply exchange_asks; [exact Hd | exact Hin |].
    split; [exact Ht|]. split; [exact Hs|]. rewrite Hr. symmetry. exact Hcr.
  - eapply elem_of_prefix; [|apply facilitateCoordination_second; exact Hread].
    eapply exchange_asks; [exact Hd | exact Hin |].
    split; [exact Ht|]. split; [exact Hs|]. rewrite Hr.
    pose proof (frame_exchange agent1 agent2 pairKey (entered pairKey sp))
      as [_ Hc _ _ _ _ _ _].
    rewrite Hc. symmetry. exact Hcr.
Qed.

(** C2 (as amended): in a round, for a pair that is reached with its
    counter below [maxRounds], [respondToQuestion] of the target agent is
    called for every comment in the asking agent's working file that, when
    that direction is examined, targets the other agent, is pending and
    carries the current round number; and a round requests no answer for a
    comment id all of whose comments carry another round number. *)
Theorem current_round_questions_attempted :
  (forall agents s se asking answering d comment,
     directionExamined agents s asking answering se ->
     files se !! workingFile asking = Some d ->
     comment ∈ ledger d ->
     Comment.targetAgent comment = name answering ->
     Comment.status comment = pending ->
     Comment.round comment = currentRound s ->
     Asked (name answering) (Comment.id comment) (name asking)
     ∈ trace (snd (coordinationRound agents s))) /\
  (forall agents s commentId answering asking,
     carriesOtherRound commentId s ->
     Asked answering commentId asking ∈ trace (snd (coordinationRound agents s)) ->
     Asked answering commentId asking ∈ trace s).
Proof.
  split.
  - exact questions_of_pair_attempted.
  - intros agents s commentId answering asking Hc.
    destruct (quiet_coordinationRound commentId agents s Hc) as (_ & _ & H).
    apply H.
Qed.

Lemma current_round_questions_attempted_witness :
  Asked "A" "b1" "B"
  ∈ trace (snd (coordinationRound [helpful "A"; helpful "B"]
                  (constructor None bidirectional))).
Proof.
  apply (proj1 current_round_questions_attempted
           [helpful "A"; helpful "B"] (constructor None bidirectional)
           (snd (exchange (helpful "A") (helpful "B") "A-B"
                   (entered "A-B" (announced (constructor None bidirectional)))))
           (helpful "B") (helpful "A")
           (document [ask "b1" "B" "A" "Is the API documented?" 1;
                      ask "b2" "B" "A" "Are errors documented?" 2])
           (ask "b1" "B" "A" "Is the API documented?" 1)).
  - exists [], [], (helpful "A"), (helpful "B").
    split; [reflexivity|]. cbv zeta. split; [vm_compute; reflexivity|].
    right. split; [reflexivity|]. split; [reflexivity|].
    split; [vm_compute; eexists; reflexivity | reflexivity].
  - vm_compute. reflexivity.
  - apply elem_of_cons. left. reflexivity.
  - reflexivity.
  - reflexivity.
  - reflexivity.
Defined.

(** A's question "c1" carries round number 1.  B's answer production fails
    in round 1, so "c1" is still pending when round 2 starts, with the
    counter of the pair at 1 of 3; round 2 examines the pair and asks
    nothing, because [checkForQuestions] keeps only the comments of the
    current round.  The whole run asks B once, in round 1. *)
Lemma pending_question_of_earlier_round_not_attempted :
  fst (checkPendingQuestions [helpful "A"; failing "B"] secondRoundAfterFailure)
    = Ok [ask "c1" "A" "B" "Is input validated?" 1] /\
  currentRound secondRoundAfterFailure = 2 /\
  maxRounds secondRoundAfterFailure = 3 /\
  roundCount secondRoundAfterFailure "A-B" = 1 /\
  trace (snd (coordinationRound [helpful "A"; failing "B"] secondRoundAfterFailure))
    = trace secondRoundAfterFailure ++ [RoundStarted 2; Facilitated "A-B"] /\
  (exists s',
     startCoordinationRound [helpful "A"; failing "B"] (constructor None oneQuestion)
       = Some (Ok true, s') /\
     trace s' = [RoundStarted 1; Facilitated "A-B"; Asked "B" "c1" "A";
                 RoundStarted 2; Facilitated "A-B";
                 RoundStarted 3; Facilitated "A-B"]).
Proof.
  repeat split; try (vm_compute; reflexivity).
  eexists. split; vm_compute; reflexivity.
Qed.

(** ** C3: the counter of a pair *)

(** Over a whole call no counter decreases. *)
Lemma roundCount_monotone agents s :
  exists r s',
    startCoordinationRound agents s = Some (r, s') /\
    forall pairKey, roundCount s pairKey <= roundCount s' pairKey.
Proof.
  destruct (startCoordinationRound_fuel_bounds agents
              (Z.to_nat (maxRounds s - currentRound s)) s (Nat.le_refl _))
    as (r & s' & E & _ & Hm & _).
  exists r, s'. split; [exact E | exact Hm].
Qed.

(** Every step of a round leaves each counter where it was or above. *)
Lemma roundCount_monotone_round agents s pairKey :
  roundCount s pairKey <= roundCount (snd (coordinationRound agents s)) pairKey.
Proof. destruct (coordinationRound_counts agents s) as ([_ _ _ H _ _] & _). apply H. Qed.

(** *** How far a counter can go *)

Lemma sameLimits_refl s : sameLimits s s.
Proof. reflexivity. Qed.

Lemma sameLimits_trans s1 s2 s3 : sameLimits s1 s2 -> sameLimits s2 s3 -> sameLimits s1 s3.
Proof. unfold sameLimits. congruence. Qed.

Lemma sameLimits_processQuestions answeringAgent questions askingAgentName :
  preserves sameLimits (processQuestions answeringAgent questions askingAgentName).
Proof.
  induction questions as [|question rest IH]; simpl.
  - preserves_with sameLimits_refl sameLimits_trans.
  - repeat preserves_with sameLimits_refl sameLimits_trans; auto.
    + unfold respondToQuestion. repeat preserves_with sameLimits_refl sameLimits_trans.
      * intros s. reflexivity.
      * destruct (answer _ _ _ _); preserves_with sameLimits_refl sameLimits_trans.
    + unfold respondToComment. preserves_with sameLimits_refl sameLimits_trans.
      * intros s. rewrite readFile_state. reflexivity.
      * destruct (resolveComment _ _ _); intros s; reflexivity.
    + intros s. reflexivity.
Qed.

(** One direction adds at most 1 to the counter of its pair and nothing to
    the others. *)
Lemma exchange_increment asking answering pairKey s k :
  roundCount (snd (exchange asking answering pairKey s)) k
  <= roundCount s k + (if decide (pairKey = k) then 1 else 0).
Proof.
  unfold exchange, bind at 1.
  assert (Hs : snd (checkForQuestions asking (name answering) s) = s).
  { unfold checkForQuestions, bind, readFile.
    destruct (files s !! workingFile asking); reflexivity. }
  destruct (checkForQuestions asking (name answering) s) as [[questions|e] s0];
    simpl in Hs; subst s0; cbn [snd]; [|destruct (decide _); lia].
  destruct (Nat.ltb 0 (length questions)); [|simpl; destruct (decide _); lia].
  unfold bind.
  pose proof (sameLimits_processQuestions answering questions (name asking) s) as Hl.
  destruct (processQuestions answering questions (name asking) s) as [[[]|e] s1];
    cbn [snd] in Hl |- *.
  - unfold incrementRoundCount, getRoundCount, bind, gets, modify. cbn [snd].
    fold (roundCount s1 pairKey). rewrite roundCount_increment.
    unfold roundCount. rewrite Hl. destruct (decide _); lia.
  - unfold roundCount. rewrite Hl. destruct (decide _); lia.
Qed.

Lemma facilitateCoordination_increment agent1 agent2 pairKey s k :
  roundCount (snd (facilitateCoordination agent1 agent2 pairKey s)) k
  <= roundCount s k + (if decide (pairKey = k) then 2 else 0).
Proof.
  rewrite facilitateCoordination_exchange. unfold try_catch, bind.
  pose proof (exchange_increment agent1 agent2 pairKey (entered pairKey s) k) as H1.
  change (roundCount (entered pairKey s) k) with (roundCount s k) in H1.
  destruct (exchange agent1 agent2 pairKey (entered pairKey s)) as [[[]|e] s1];
    cbn [snd] in H1 |- *.
  - pose proof (exchange_increment agent2 agent1 pairKey s1 k) as H2.
    destruct (exchange agent2 agent1 pairKey s1) as [[[]|e] s2]; cbn [snd] in H2 |- *.
    + destruct (decide _); lia.
    + change (roundCount (snd (logError _ s2)) k) with (roundCount s2 k).
      destruct (decide _); lia.
  - change (roundCount (snd (logError _ s1)) k) with (roundCount s1 k).
    destruct (decide _); lia.
Qed.

Lemma boundedCounts_coordinatePairs B agentPairs : forall s,
  maxRounds s + 1 <= B -> boundedCounts B s ->
  boundedCounts B (snd (coordinatePairs agentPairs s)).
Proof.
  induction agentPairs as [|p rest IH]; intros s HB Hs; [exact Hs|].
  rewrite coordinatePairs_cons.
  destruct (Z.geb (roundCount s (pairKeyOf p)) (maxRounds s)) eqn:Hge.
  - destruct (succeeds_run _ s (succeeds_logCoordinationTimeout (pairKeyOf p) []))
      as ([] & s1 & E).
    rewrite (bind_ok _ _ _ _ _ E).
    assert (E1 : s1 = snd (logCoordinationTimeout (pairKeyOf p) [] s))
      by (rewrite E; reflexivity).
    apply IH; subst s1; [exact HB | exact Hs].
  - rewrite Z.geb_leb in Hge. apply Z.leb_gt in Hge.
    destruct (succeeds_run _ s
                (succeeds_facilitateCoordination (fst p) (snd p) (pairKeyOf p)))
      as ([] & s1 & E).
    rewrite (bind_ok _ _ _ _ _ E).
    assert (E1 : s1 = snd (facilitateCoordination (fst p) (snd p) (pairKeyOf p) s))
      by (rewrite E; reflexivity).
    destruct (facilitateCoordination_counts (fst p) (snd p) (pairKeyOf p) s)
      as ([Hm _ _ _ _ _] & _).
    rewrite <- E1 in Hm.
    apply IH; [lia|].
    intros k. pose proof (facilitateCoordination_increment (fst p) (snd p) (pairKeyOf p) s k) as H.
    rewrite <- E1 in H. specialize (Hs k).
    destruct (decide (pairKeyOf p = k)) as [<-|]; lia.
Qed.

Lemma boundedCounts_fuel B agents fuel : forall s r s',
  maxRounds s + 1 <= B -> boundedCounts B s ->
  startCoordinationRound_fuel fuel agents s = Some (r, s') ->
  boundedCounts B s'.
Proof.
  induction fuel as [|fuel IH]; intros s r s' HB Hs; simpl.
  all: destruct (succeeds_run _ s (succeeds_coordinationRound agents)) as ([] & s1 & E).
  all: assert (H1 : boundedCounts B s1)
    by (replace s1 with (snd (coordinationRound agents s)) by (rewrite E; reflexivity);
        rewrite coordinationRound_eq;
        apply boundedCounts_coordinatePairs; [exact HB | exact Hs]).
  all: destruct (coordinationRound_counts agents s) as ([Hm _ _ _ _ _] & _).
  all: rewrite E in Hm |- *; cbn [snd] in Hm.
  all: destruct (Z.ltb _ _); [|intros [= <- <-]; exact H1].
  all: pose proof (hasPendingQuestions_state agents s1) as Hst.
  all: destruct (hasPendingQuestions agents s1) as [[[|]|e] s2]; cbn [snd] in Hst; subst s2;
    try (intros [= <- <-]; exact H1).
  apply IH; [simpl; lia | exact H1].
Qed.

(** From a fresh manager with a budget of [k] rounds, every counter ends
    between 0 and [k + 1]. *)
Lemma roundCount_at_most_one_over (k : Z) outputDir fs agents :
  0 <= k ->
  exists r s',
    startCoordinationRound agents (set_maxRounds k (constructor outputDir fs)) = Some (r, s') /\
    forall pairKey, 0 <= roundCount s' pairKey <= k + 1.
Proof.
  intros Hk. set (s := set_maxRounds k (constructor outputDir fs)).
  destruct (roundCount_monotone agents s) as (r & s' & E & Hm).
  exists r, s'. split; [exact E|]. intros key. split.
  - specialize (Hm key). unfold roundCount in Hm at 1. simpl in Hm.
    rewrite lookup_empty in Hm. exact Hm.
  - revert key. change (boundedCounts (k + 1) s').
    eapply (boundedCounts_fuel (k + 1) agents _ s r s'); [simpl; lia | | exact E].
    intros key. unfold roundCount; simpl. rewrite lookup_empty. simpl. lia.
Qed.

(** C3 (the code at the failing input): A and B ask each other a question
    in round 1 and in round 2.  [facilitateCoordination] increments the
    counter of the pair once per direction, so after two rounds the counter
    of "A-B" is 4 while [maxRounds] is 3. *)
Theorem roundCount_exceeds_maxRounds :
  exists s',
    startCoordinationRound [helpful "A"; helpful "B"] (constructor None bidirectional)
      = Some (Ok true, s') /\
    maxRounds s' = 3 /\
    roundLimits s' !! "A-B" = Some 4 /\
    roundsRun s' = 2%nat.
Proof.
  eexists. split; [vm_compute; reflexivity|]. repeat split; vm_compute; reflexivity.
Qed.

(** ** C4: exhausted budget of a pair *)

(** A pair whose counter has reached [maxRounds] is skipped: the loop only
    appends a timeout entry, whose list of questions is always empty. *)
Lemma coordinatePairs_skip p rest s :
  maxRounds s <= roundCount s (pairKeyOf p) ->
  coordinatePairs (p :: rest) s =
  coordinatePairs rest
    (set_errorLog
       (<[errorLogPath s :=
            default [] (errorLog s !! errorLogPath s)
            ++ [TimeoutEntry (pairKeyOf p) (maxRounds s) []]]> (errorLog s)) s).
Proof.
  intros H. rewrite coordinatePairs_cons.
  assert (Hge : Z.geb (roundCount s (pairKeyOf p)) (maxRounds s) = true)
    by (rewrite Z.geb_leb; apply Z.leb_le; exact H).
  rewrite Hge. reflexivity.
Qed.

(** *** A pair whose budget is used up is left alone *)

Lemma leftAlone_refl pairKey s : leftAlone pairKey s s.
Proof. intros _. split; [reflexivity|]. split; [lia | reflexivity]. Qed.

Lemma leftAlone_trans pairKey s1 s2 s3 :
  leftAlone pairKey s1 s2 -> leftAlone pairKey s2 s3 -> leftAlone pairKey s1 s3.
Proof.
  intros H12 H23 H1. destruct (H12 H1) as (M2 & C2 & F2).
  destruct H23 as (M3 & C3 & F3); [lia|].
  split; [congruence|]. split; [lia | congruence].
Qed.

Lemma facilitatedCount_app pairKey s l :
  facilitatedCount pairKey (set_trace (trace s ++ l) s)
  = (facilitatedCount pairKey s + length (filter (fun e => e = Facilitated pairKey) l))%nat.
Proof. unfold facilitatedCount. simpl. rewrite filter_app, length_app. reflexivity. Qed.

(** Steps that start no pair exchange leave the count of every key. *)
Lemma frame_facilitatedCount pairKey s s' :
  frame s s' -> facilitatedCount pairKey s' = facilitatedCount pairKey s.
Proof.
  intros [_ _ _ _ Hp _ [l Hl] _].
  unfold facilitatedCount, pairAttempts in *. rewrite Hl in Hp |- *.
  rewrite filter_app, length_app. rewrite List.filter_app, length_app in Hp.
  assert (Hnone : forall e, e ∈ l -> isFacilitated e = false).
  { intros e He. destruct (isFacilitated e) eqn:Hf; [|reflexivity].
    assert (Hin : In e (List.filter isFacilitated l))
      by (apply List.filter_In; split; [apply list_elem_of_In; exact He | exact Hf]).
    destruct (List.filter isFacilitated l); [destruct Hin | simpl in Hp; lia]. }
  rewrite (filter_none _ l); [simpl; lia|].
  intros e He ->. specialize (Hnone _ He). discriminate Hnone.
Qed.

Lemma leftAlone_frame pairKey s s' : frame s s' -> leftAlone pairKey s s'.
Proof.
  intros Hf _. split; [apply Hf|]. split; [apply Hf|].
  apply frame_facilitatedCount. exact Hf.
Qed.

Lemma leftAlone_facilitateCoordination pairKey agent1 agent2 otherKey s :
  otherKey <> pairKey ->
  leftAlone pairKey s (snd (facilitateCoordination agent1 agent2 otherKey s)).
Proof.
  intros Hne. unfold facilitateCoordination.
  match goal with |- context [bind _ (fun _ => ?b)] => set (body := b) end.
  assert (Hb : preserves frame body) by apply frame_facilitateCoordination_body.
  clearbody body. unfold bind, emit, modify. cbn iota beta.
  apply (leftAlone_trans pairKey s (set_trace (trace s ++ [Facilitated otherKey]) s)).
  - intros _. split; [reflexivity|]. split; [reflexivity|].
    rewrite facilitatedCount_app. rewrite filter_cons_False by congruence.
    simpl. lia.
  - apply leftAlone_frame. apply Hb.
Qed.

Lemma leftAlone_coordinatePairs pairKey agentPairs : forall s,
  leftAlone pairKey s (snd (coordinatePairs agentPairs s)).
Proof.
  induction agentPairs as [|p rest IH]; intros s; [apply leftAlone_refl|].
  rewrite coordinatePairs_cons. intros Hex. revert Hex.
  change (leftAlone pairKey s
            (snd (bind (if Z.geb (roundCount s (pairKeyOf p)) (maxRounds s)
                        then logCoordinationTimeout (pairKeyOf p) []
                        else facilitateCoordination (fst p) (snd p) (pairKeyOf p))
                    (fun _ => coordinatePairs rest) s))).
  destruct (Z.geb (roundCount s (pairKeyOf p)) (maxRounds s)) eqn:Hge.
  - destruct (succeeds_run _ s (succeeds_logCoordinationTimeout (pairKeyOf p) []))
      as ([] & s1 & E).
    rewrite (bind_ok _ _ _ _ _ E).
    apply (leftAlone_trans pairKey s s1); [|apply IH].
    apply leftAlone_frame.
    replace s1 with (snd (logCoordinationTimeout (pairKeyOf p) [] s))
      by (rewrite E; reflexivity).
    apply frame_logCoordinationTimeout.
  - rewrite Z.geb_leb in Hge. apply Z.leb_gt in Hge.
    destruct (succeeds_run _ s
                (succeeds_facilitateCoordination (fst p) (snd p) (pairKeyOf p)))
      as ([] & s1 & E).
    rewrite (bind_ok _ _ _ _ _ E).
    intros Hex. revert Hex.
    change (leftAlone pairKey s (snd (coordinatePairs rest s1))).
    apply (leftAlone_trans pairKey s s1); [|apply IH].
    replace s1 with (snd (facilitateCoordination (fst p) (snd p) (pairKeyOf p) s))
      by (rewrite E; reflexivity).
    intros Hex. apply leftAlone_facilitateCoordination; [|exact Hex].
    intros Heq. rewrite Heq in Hge. lia.
Qed.

Lemma leftAlone_coordinationRound pairKey agents s :
  leftAlone pairKey s (snd (coordinationRound agents s)).
Proof.
  rewrite coordinationRound_eq.
  apply (leftAlone_trans pairKey s (announced s)); [|apply leftAlone_coordinatePairs].
  intros _. split; [reflexivity|]. split; [reflexivity|].
  unfold announced. rewrite facilitatedCount_app. rewrite filter_cons_False by congruence.
  simpl. lia.
Qed.

Lemma leftAlone_fuel pairKey agents fuel : forall s r s',
  startCoordinationRound_fuel fuel agents s = Some (r, s') -> leftAlone pairKey s s'.
Proof.
  induction fuel as [|fuel IH]; intros s r s'; simpl.
  all: pose proof (leftAlone_coordinationRound pairKey agents s) as H1.
  all: destruct (coordinationRound agents s) as [[[]|e] s1]; cbn [snd] in H1;
    [|intros [= <- <-]; exact H1].
  all: destruct (Z.ltb _ _); [|intros [= <- <-]; exact H1].
  all: pose proof (hasPendingQuestions_state agents s1) as Hst.
  all: destruct (hasPendingQuestions agents s1) as [[[|]|e] s2]; cbn [snd] in Hst; subst s2;
    try (intros [= <- <-]; exact H1).
  intros E. apply (leftAlone_trans pairKey s s1); [exact H1|].
  apply (leftAlone_trans pairKey s1 (set_currentRound (currentRound s1 + 1) s1)).
  - intros _. split; [reflexivity|]. split; [reflexivity | reflexivity].
  - eapply IH. exact E.
Qed.

(** Once the counter of a pair has reached [maxRounds], no later round of
    the call processes the pair. *)
Lemma exhausted_pair_left_alone agents s pairKey :
  maxRounds s <= roundCount s pairKey ->
  exists r s',
    startCoordinationRound agents s = Some (r, s') /\
    facilitatedCount pairKey s' = facilitatedCount pairKey s.
Proof.
  intros Hex.
  destruct (roundCount_monotone agents s) as (r & s' & E & _).
  exists r, s'. split; [exact E|].
  apply (leftAlone_fuel pairKey agents _ s r s' E Hex).
Qed.

(** The exchanges of other pairs do not touch the counter of a pair: when
    the keys of the pairs differ, each pair is examined with the counter it
    had when the round started. *)
Lemma coordinatePairs_other_keys agentPairs : forall s pairKey,
  pairKey ∉ map pairKeyOf agentPairs ->
  roundCount (snd (coordinatePairs agentPairs s)) pairKey = roundCount s pairKey.
Proof.
  induction agentPairs as [|p rest IH]; intros s pairKey Hnot; [reflexivity|].
  simpl in Hnot. apply not_elem_of_cons in Hnot as [Hne Hnot].
  rewrite coordinatePairs_cons.
  destruct (Z.geb (roundCount s (pairKeyOf p)) (maxRounds s)).
  - destruct (succeeds_run _ s (succeeds_logCoordinationTimeout (pairKeyOf p) []))
      as ([] & s1 & E).
    rewrite (bind_ok _ _ _ _ _ E). rewrite (IH s1 pairKey Hnot).
    replace s1 with (snd (logCoordinationTimeout (pairKeyOf p) [] s))
      by (rewrite E; reflexivity).
    reflexivity.
  - destruct (succeeds_run _ s
                (succeeds_facilitateCoordination (fst p) (snd p) (pairKeyOf p)))
      as ([] & s1 & E).
    rewrite (bind_ok _ _ _ _ _ E). rewrite (IH s1 pairKey Hnot).
    assert (E1 : s1 = snd (facilitateCoordination (fst p) (snd p) (pairKeyOf p) s))
      by (rewrite E; reflexivity).
    pose proof (facilitateCoordination_increment (fst p) (snd p) (pairKeyOf p) s pairKey) as Hle.
    destruct (facilitateCoordination_counts (fst p) (snd p) (pairKeyOf p) s)
      as ([_ _ _ Hge _ _] & _).
    specialize (Hge pairKey). rewrite <- E1 in Hle, Hge.
    destruct (decide (pairKeyOf p = pairKey)); [congruence | lia].
Qed.

(** C4 (the code at the failing input): the counter of "A-B" reaches 3 in
    round 2; in round 3 the pair is skipped and the timeout entry is
    written with an empty question list, although A's round-3 question to B
    is still pending. *)
Theorem timeout_entry_lists_no_questions :
  exists s',
    startCoordinationRound [helpful "A"; helpful "B"] (constructor None exhausted)
      = Some (Ok true, s') /\
    roundLimits s' !! "A-B" = Some 3 /\
    errorLog s' !! errorLogPath s' = Some [TimeoutEntry "A-B" 3 []] /\
    fst (checkPendingQuestions [helpful "A"; helpful "B"] s')
      = Ok [ask "a3" "A" "B" "Any open redirects?" 3].
Proof.
  eexists. split; [vm_compute; reflexivity|]. repeat split; vm_compute; reflexivity.
Qed.

(** ** Readable working files *)

Lemma checkPendingQuestions_readable agents s :
  readable agents s -> exists l, checkPendingQuestions agents s = (Ok l, s).
Proof.
  induction agents as [|agent rest IH]; intros Hr; simpl.
  - eexists. reflexivity.
  - destruct (Hr agent) as [d Hd]; [apply elem_of_cons; left; reflexivity|].
    destruct IH as [l Hl].
    { intros a Ha. apply Hr. apply elem_of_cons. right. exact Ha. }
    unfold bind at 1, readFile. rewrite Hd.
    unfold bind. rewrite Hl. eexists. reflexivity.
Qed.

Lemma readable_stable agents s s' : stable s s' -> readable agents s -> readable agents s'.
Proof. intros [_ _ _ _ _ H] Hr agent Ha. apply H, Hr, Ha. Qed.

(** When every working file can be read, the whole call returns [true]:
    nothing that happens while questions are processed makes it throw. *)
Lemma startCoordinationRound_fuel_readable agents fuel : forall s,
  (Z.to_nat (maxRounds s - currentRound s) <= fuel)%nat ->
  readable agents s ->
  exists s', startCoordinationRound_fuel fuel agents s = Some (Ok true, s').
Proof.
  induction fuel as [|fuel IH]; intros s Hfuel Hread.
  all: destruct (succeeds_run _ s (succeeds_coordinationRound agents)) as ([] & s1 & E).
  all: destruct (coordinationRound_counts agents s) as (Hst & _).
  all: rewrite E in Hst; cbn [snd] in Hst.
  all: pose proof (readable_stable _ _ _ Hst Hread) as Hread1.
  all: destruct Hst as [S1 S2 _ _ _ _].
  all: simpl; rewrite E.
  all: destruct (Z.ltb (currentRound s1) (maxRounds s1)) eqn:Hlt; [|eexists; reflexivity].
  all: apply Z.ltb_lt in Hlt.
  all: destruct (checkPendingQuestions_readable agents s1 Hread1) as [l Hl].
  all: unfold hasPendingQuestions, bind; rewrite Hl; unfold ret.
  all: destruct (Nat.ltb 0 (length l)); [|eexists; reflexivity].
  - lia.
  - apply IH; [simpl; lia | exact Hread1].
Qed.

Lemma startCoordinationRound_readable agents s :
  readable agents s -> exists s', startCoordinationRound agents s = Some (Ok true, s').
Proof. apply startCoordinationRound_fuel_readable. reflexivity. Qed.

(** ** C5: a failing question stops nothing else *)

Lemma logError_logged message s :
  errorLog (snd (logError message s)) !! errorLogPath (snd (logError message s))
  = Some (default [] (errorLog s !! errorLogPath s) ++ [ErrorEntry message]).
Proof. simpl. apply lookup_insert_eq. Qed.

Lemma processQuestions_failure answeringAgent question rest askingAgentName s e s1 :
  answerAndRecord answeringAgent question askingAgentName s = (Throw e, s1) ->
  processQuestions answeringAgent (question :: rest) askingAgentName s
  = processQuestions answeringAgent rest askingAgentName
      (snd (logError (processingError askingAgentName (name answeringAgent) e) s1)).
Proof.
  intros E. rewrite processQuestions_cons.
  unfold bind at 1. rewrite (try_catch_throw _ _ _ _ _ E). reflexivity.
Qed.

Lemma pair_facilitated agents s before agent1 agent2 after :
  getAgentPairs agents = before ++ (agent1, agent2) :: after ->
  roundCount (snd (coordinatePairs before (announced s))) (pairKeyOf (agent1, agent2))
    < maxRounds (snd (coordinatePairs before (announced s))) ->
  Facilitated (pairKeyOf (agent1, agent2)) ∈ trace (snd (coordinationRound agents s)).
Proof.
  intros Hpairs Hlt.
  rewrite coordinationRound_eq. fold (announced s).
  rewrite Hpairs, coordinatePairs_app.
  set (sp := snd (coordinatePairs before (announced s))) in *.
  set (pairKey := pairKeyOf (agent1, agent2)) in *.
  rewrite coordinatePairs_cons. fold pairKey.
  replace (Z.geb (roundCount sp pairKey) (maxRounds sp)) with false
    by (symmetry; rewrite Z.geb_leb; apply Z.leb_gt; exact Hlt).
  destruct (succeeds_run _ sp (succeeds_facilitateCoordination agent1 agent2 pairKey))
    as ([] & sf & E).
  simpl fst; simpl snd. rewrite (bind_ok _ _ _ _ _ E).
  eapply elem_of_prefix; [|apply trace_coordinatePairs].
  replace sf with (snd (facilitateCoordination agent1 agent2 pairKey sp))
    by (rewrite E; reflexivity).
  eapply elem_of_prefix; [|apply facilitateCoordination_first].
  eapply elem_of_prefix;
    [|apply (frame_exchange agent1 agent2 pairKey (entered pairKey sp))].
  unfold entered; simpl. apply elem_of_app. right. apply list_elem_of_singleton. reflexivity.
Qed.

(** C5: a comment whose processing throws (the answer production or the
    write into the asking agent's document) is caught inside
    [processQuestions]: an error entry is appended to the error log and the
    loop goes on with the remaining comments, all of which are asked;
    [processQuestions], [facilitateCoordination] and a whole round never
    throw; every pair reached below its budget is processed whatever
    happened to the pairs before it; and with readable working files the
    run returns [true].  With three agents where both questions between A
    and B fail (B's answer production throws, and A's answer to B cannot be
    stored), C's question to A is resolved in the same round. *)
Theorem failure_isolation :
  (forall answeringAgent question rest askingAgentName s e s1,
     answerAndRecord answeringAgent question askingAgentName s = (Throw e, s1) ->
     let message := processingError askingAgentName (name answeringAgent) e in
     let s2 := snd (logError message s1) in
     processQuestions answeringAgent (question :: rest) askingAgentName s
       = processQuestions answeringAgent rest askingAgentName s2 /\
     errorLog s2 !! errorLogPath s2
       = Some (default [] (errorLog s1 !! errorLogPath s1) ++ [ErrorEntry message])) /\
  (forall answeringAgent questions askingAgentName s,
     exists s',
       processQuestions answeringAgent questions askingAgentName s = (Ok tt, s') /\
       forall question, question ∈ questions ->
         Asked (name answeringAgent) (Comment.id question) askingAgentName ∈ trace s') /\
  (forall agent1 agent2 pairKey s,
     exists s', facilitateCoordination agent1 agent2 pairKey s = (Ok tt, s')) /\
  (forall agents s, exists s', coordinationRound agents s = (Ok tt, s')) /\
  (forall agents s before agent1 agent2 after,
     getAgentPairs agents = before ++ (agent1, agent2) :: after ->
     roundCount (snd (coordinatePairs before (announced s))) (pairKeyOf (agent1, agent2))
       < maxRounds (snd (coordinatePairs before (announced s))) ->
     Facilitated (pairKeyOf (agent1, agent2)) ∈ trace (snd (coordinationRound agents s))) /\
  (forall agents s,
     readable agents s ->
     exists s', startCoordinationRound agents s = Some (Ok true, s')) /\
  (exists s1,
     coordinationRound threeAgents (constructor None fanOut) = (Ok tt, s1) /\
     files s1 !! reportPath "output" "C"
       = Some (document [resolve (ask "c1" "C" "A" "Which module is central?" 1)
                           "Answer to: Which module is central?"]) /\
     files s1 !! reportPath "output" "A"
       = Some (document [ask "a1" "A" "B" "Is input validated?" 1]) /\
     files s1 !! reportPath "tmp" "B"
       = Some (document [ask "b1" "B" "A" "Is the API documented?" 1]) /\
     errorLog s1 !! errorLogPath s1
       = Some [ErrorEntry (processingError "A" "B" "answer production failed");
               ErrorEntry (processingError "B" "A"
                 "ENOENT: no such file or directory, open 'output/B-analysis.md'")] /\
     currentRound s1 = 1).
Proof.
  split; [|split; [|split; [|split; [|split; [|split]]]]].
  - intros answeringAgent question rest askingAgentName s e s1 E. cbv zeta. split.
    + apply processQuestions_failure. exact E.
    + apply logError_logged.
  - intros answeringAgent questions askingAgentName s.
    destruct (succeeds_run _ s
                (succeeds_processQuestions answeringAgent questions askingAgentName))
      as ([] & s' & E).
    exists s'. split; [exact E|]. intros question Hin.
    replace s' with (snd (processQuestions answeringAgent questions askingAgentName s))
      by (rewrite E; reflexivity).
    apply processQuestions_asks. exact Hin.
  - intros agent1 agent2 pairKey s.
    destruct (succeeds_run _ s (succeeds_facilitateCoordination agent1 agent2 pairKey))
      as ([] & s' & E).
    exists s'. exact E.
  - intros agents s.
    destruct (succeeds_run _ s (succeeds_coordinationRound agents)) as ([] & s' & E).
    exists s'. exact E.
  - apply pair_facilitated.
  - apply startCoordinationRound_readable.
  - eexists. split; [vm_compute; reflexivity|]. repeat split; vm_compute; reflexivity.
Qed.

Lemma failure_isolation_witness :
  readable threeAgents (constructor None fanOut) /\
  exists s', startCoordinationRound threeAgents (constructor None fanOut) = Some (Ok true, s').
Proof.
  assert (H : readable threeAgents (constructor None fanOut)).
  { intros agent Ha. unfold threeAgents in Ha.
    repeat (apply elem_of_cons in Ha as [->|Ha]);
      [| | |apply elem_of_nil in Ha; destruct Ha];
      vm_compute; eexists; reflexivity. }
  split; [exact H|].
  destruct failure_isolation as (_ & _ & _ & _ & _ & Hrun & _).
  apply Hrun. exact H.
Defined.

(** ** C6: convergence *)

Lemma checkPendingQuestions_converged agents s :
  converged agents s -> checkPendingQuestions agents s = (Ok [], s).
Proof.
  induction agents as [|agent rest IH]; intros Hc; simpl; [reflexivity|].
  destruct (Hc agent) as (d & Hd & Hnone); [apply elem_of_cons; left; reflexivity|].
  unfold bind at 1, readFile. rewrite Hd.
  unfold bind. rewrite IH.
  - unfold parseComments. rewrite filter_none; [reflexivity | exact Hnone].
  - intros a Ha. apply Hc. apply elem_of_cons. right. exact Ha.
Qed.

Lemma startCoordinationRound_fuel_converged agents fuel s s1 :
  coordinationRound agents s = (Ok tt, s1) ->
  converged agents s1 ->
  startCoordinationRound_fuel fuel agents s = Some (Ok true, s1).
Proof.
  intros E Hc.
  assert (Hp : hasPendingQuestions agents s1 = (Ok false, s1)).
  { unfold hasPendingQuestions, bind.
    rewrite (checkPendingQuestions_converged _ _ Hc). reflexivity. }
  destruct fuel; simpl; rewrite E, Hp; destruct (Z.ltb _ _); reflexivity.
Qed.

(** C6: when no comment with status pending is left in any agent's document
    after a round, [startCoordinationRound] returns [true] without starting
    another round: exactly one more round has run.  With agents A and B,
    where A asked B one question in round 1 and B answers it, the call runs
    exactly one round. *)
Theorem convergence_stops :
  (forall agents s s1,
     coordinationRound agents s = (Ok tt, s1) ->
     converged agents s1 ->
     startCoordinationRound agents s = Some (Ok true, s1) /\
     roundsRun s1 = S (roundsRun s)) /\
  (exists s1,
     startCoordinationRound [helpful "A"; helpful "B"] (constructor None oneQuestion)
       = Some (Ok true, s1) /\
     roundsRun s1 = 1%nat /\
     files s1 !! reportPath "output" "A"
       = Some (document [resolve (ask "c1" "A" "B" "Is input validated?" 1)
                           "Answer to: Is input validated?"]) /\
     fst (checkPendingQuestions [helpful "A"; helpful "B"] s1) = Ok []).
Proof.
  split.
  - intros agents s s1 E Hc. split.
    + apply startCoordinationRound_fuel_converged; assumption.
    + destruct (coordinationRound_counts agents s) as (_ & Hr & _).
      rewrite E in Hr. exact Hr.
  - eexists. split; [vm_compute; reflexivity|]. repeat split; vm_compute; reflexivity.
Qed.

Lemma convergence_stops_witness :
  exists s1,
    coordinationRound [helpful "A"; helpful "B"] (constructor None oneQuestion) = (Ok tt, s1) /\
    converged [helpful "A"; helpful "B"] s1 /\
    startCoordinationRound [helpful "A"; helpful "B"] (constructor None oneQuestion)
      = Some (Ok true, s1) /\
    roundsRun s1 = 1%nat.
Proof.
  eexists. split; [vm_compute; reflexivity|].
  match goal with |- converged ?a ?s /\ _ => assert (Hc : converged a s) end.
  { intros agent Ha.
    repeat (apply elem_of_cons in Ha as [->|Ha]); [| |apply elem_of_nil in Ha; destruct Ha].
    - eexists. split; [vm_compute; reflexivity|].
      intros comment Hin. apply list_elem_of_singleton in Hin. subst comment. discriminate.
    - eexists. split; [vm_compute; reflexivity|].
      intros comment Hin. apply elem_of_nil in Hin. destruct Hin. }
  split; [exact Hc|].
  destruct convergence_stops as [Hgen _].
  eapply Hgen; [vm_compute; reflexivity | exact Hc].
Defined.

(** ** C7: what [startCoordinationRound] returns *)

Lemma startCoordinationRound_fuel_value agents fuel : forall s r s',
  startCoordinationRound_fuel fuel agents s = Some (r, s') ->
  r = Ok true \/ exists message, r = Throw message.
Proof.
  induction fuel as [|fuel IH]; intros s r s'; simpl.
  all: destruct (coordinationRound agents s) as [[[]|e] s1];
    [|intros [= <- <-]; right; eexists; reflexivity].
  all: destruct (Z.ltb _ _); [|intros [= <- <-]; left; reflexivity].
  all: destruct (hasPendingQuestions agents s1) as [[[|]|e] s2];
    try (intros [= <- <-]; (left; reflexivity) || (right; eexists; reflexivity)).
  apply IH.
Qed.

(** Two runs that both return [true] and differ in the counter of the pair
    and in the number of unresolved comments: the returned value carries
    neither. *)
Lemma returned_value_is_no_summary :
  (exists s1 s2,
     startCoordinationRound [helpful "A"; helpful "B"] (constructor None oneQuestion)
       = Some (Ok true, s1) /\
     startCoordinationRound [helpful "A"; helpful "B"] (constructor None exhausted)
       = Some (Ok true, s2) /\
     roundLimits s1 !! "A-B" = Some 1 /\ roundLimits s2 !! "A-B" = Some 3 /\
     unresolved [helpful "A"; helpful "B"] s1 = 0%nat /\
     unresolved [helpful "A"; helpful "B"] s2 = 1%nat) /\
  ~ (exists summary : bool -> gmap string Z * nat,
       forall agents s value s',
         startCoordinationRound agents s = Some (Ok value, s') ->
         summary value = (roundLimits s', unresolved agents s')).
Proof.
  assert (H : exists s1 s2,
     startCoordinationRound [helpful "A"; helpful "B"] (constructor None oneQuestion)
       = Some (Ok true, s1) /\
     startCoordinationRound [helpful "A"; helpful "B"] (constructor None exhausted)
       = Some (Ok true, s2) /\
     roundLimits s1 !! "A-B" = Some 1 /\ roundLimits s2 !! "A-B" = Some 3 /\
     unresolved [helpful "A"; helpful "B"] s1 = 0%nat /\
     unresolved [helpful "A"; helpful "B"] s2 = 1%nat).
  { eexists _, _. split; [vm_compute; reflexivity|]. split; [vm_compute; reflexivity|].
    repeat split; vm_compute; reflexivity. }
  split; [exact H|].
  destruct H as (s1 & s2 & E1 & E2 & _ & _ & U1 & U2).
  intros (summary & Hsum).
  pose proof (Hsum _ _ _ _ E1) as H1. pose proof (Hsum _ _ _ _ E2) as H2.
  rewrite H1 in H2. apply (f_equal snd) in H2. simpl in H2. congruence.
Qed.

(** C7 (as amended): when the loop ends, [startCoordinationRound] returns
    the constant [true] (it can only throw, when the convergence check
    cannot read a working file); no summary is returned.  The counters of
    the pairs stay in [roundLimits], from which [trackRoundLimits] prints
    one line per pair. *)
Theorem returns_true (agents : list Agent) (s : State) :
  (exists r s',
     startCoordinationRound agents s = Some (r, s') /\
     (r = Ok true \/ exists message, r = Throw message) /\
     (readable agents s -> r = Ok true)) /\
  (forall pairKey rounds,
     (pairKey, rounds, maxRounds s) ∈ trackRoundLimits s
     <-> roundLimits s !! pairKey = Some rounds).
Proof.
  split.
  - destruct (startCoordinationRound_fuel_bounds agents
                (Z.to_nat (maxRounds s - currentRound s)) s (Nat.le_refl _))
      as (r & s' & E & _).
    exists r, s'. split; [exact E|]. split.
    + eapply startCoordinationRound_fuel_value. exact E.
    + intros Hr. destruct (startCoordinationRound_readable agents s Hr) as (s'' & E').
      unfold startCoordinationRound in E'. congruence.
  - intros pairKey rounds. unfold trackRoundLimits.
    rewrite <- elem_of_map_to_list. rewrite list_elem_of_fmap. split.
    + intros ([k v] & [= -> ->] & Hin). exact Hin.
    + intros Hin. exists (pairKey, rounds). split; [reflexivity | exact Hin].
Qed.

Lemma returns_true_witness :
  readable [helpful "A"; helpful "B"] (constructor None oneQuestion) /\
  exists s',
    startCoordinationRound [helpful "A"; helpful "B"] (constructor None oneQuestion)
      = Some (Ok true, s').
Proof.
  assert (H : readable [helpful "A"; helpful "B"] (constructor None oneQuestion)).
  { intros agent Ha.
    repeat (apply elem_of_cons in Ha as [->|Ha]);
      [| |apply elem_of_nil in Ha; destruct Ha];
      vm_compute; eexists; reflexivity. }
  split; [exact H|].
  destruct (returns_true [helpful "A"; helpful "B"] (constructor None oneQuestion))
    as ((r & s' & E & _ & Hr) & _).
  exists s'. rewrite E, (Hr H). reflexivity.
Defined.

(** ** C8: the round budget of a new manager *)

(** No argument of the constructor gives a budget of 5. *)
Lemma constructor_takes_no_maxRounds :
  ~ (forall k : Z, exists outputDir fs, maxRounds (constructor outputDir fs) = k).
Proof. intros H. destruct (H 5) as (outputDir & fs & E). simpl in E. discriminate. Qed.

(** C8 (as amended): the constructor takes the output directory only.  A
    new manager has [maxRounds] 3 whatever the argument, starts at round 1
    with no counters, and a run on it has at most 3 rounds. *)
Theorem default_budget (outputDir : option string) (fs : gmap string Document)
    (agents : list Agent) :
  maxRounds (constructor outputDir fs) = 3 /\
  currentRound (constructor outputDir fs) = 1 /\
  roundLimits (constructor outputDir fs) = ∅ /\
  exists r s',
    startCoordinationRound agents (constructor outputDir fs) = Some (r, s') /\
    (roundsRun s' <= 3)%nat.
Proof.
  repeat (split; [reflexivity|]).
  set (s := constructor outputDir fs).
  destruct (startCoordinationRound_fuel_bounds agents
              (Z.to_nat (maxRounds s - currentRound s)) s (Nat.le_refl _))
    as (r & s' & E & _ & _ & Hr & _).
  exists r, s'. split; [exact E|].
  unfold roundsLeft in Hr.
  change (roundsRun s) with 0%nat in Hr. change (maxRounds s) with 3 in Hr.
  change (currentRound s) with 1 in Hr. lia.
Qed.

(** ** C9: resolving a comment *)

Lemma resolveComment_twice l commentId r1 r2 l1 :
  resolveComment l commentId r1 = Some l1 ->
  resolveComment l1 commentId r2 = Some l1.
Proof.
  revert l1. induction l as [|c rest IH]; intros l1; simpl; [discriminate|].
  destruct (decide (Comment.id c = commentId)) as [Heq|Hne].
  - intros [= <-]. simpl.
    assert (Hid : Comment.id (resolve c r1) = commentId)
      by (unfold resolve; destruct (Comment.status c); exact Heq).
    destruct (decide (Comment.id (resolve c r1) = commentId)); [|contradiction].
    f_equal. f_equal. unfold resolve. destruct (Comment.status c) eqn:Hs; simpl.
    + reflexivity.
    + rewrite Hs. reflexivity.
  - destruct (resolveComment rest commentId r1) as [rest'|] eqn:E; [|discriminate].
    intros [= <-]. simpl.
    destruct (decide (Comment.id c = commentId)); [contradiction|].
    rewrite (IH rest' eq_refl). reflexivity.
Qed.

Lemma resolveComment_absent l commentId r1 r2 :
  resolveComment l commentId r1 = None -> resolveComment l commentId r2 = None.
Proof.
  induction l as [|c rest IH]; simpl; [reflexivity|].
  destruct (decide (Comment.id c = commentId)); [discriminate|].
  destruct (resolveComment rest commentId r1); [discriminate|].
  intros _. rewrite IH; reflexivity.
Qed.

Lemma respondToComment_twice file commentId r1 r2 s :
  files (snd (respondToComment file commentId r2
                (snd (respondToComment file commentId r1 s))))
  = files (snd (respondToComment file commentId r1 s)).
Proof.
  unfold respondToComment, bind, readFile.
  destruct (files s !! file) as [content|] eqn:Hf.
  - destruct (resolveComment (ledger content) commentId r1) as [l1|] eqn:E1.
    + cbn [snd modify set_files files]. rewrite lookup_insert_eq. cbn [ledger reportBody].
      rewrite (resolveComment_twice _ _ _ r2 _ E1).
      cbn [snd modify set_files files]. apply insert_insert_eq.
    + cbn [snd emit modify set_trace files]. rewrite Hf.
      rewrite (resolveComment_absent _ _ _ r2 E1). reflexivity.
  - cbn [snd]. rewrite Hf. reflexivity.
Qed.

(** C9: resolving is idempotent and keeps the first response: a pending
    comment becomes resolved with the given response, a resolved comment is
    left as it is, so the status goes from pending to resolved once and
    never back; the same holds for [resolveComment] on a ledger, where the
    comment is addressed by its id, and for [respondToComment] on a
    document: a second call for the same id changes no file. *)
Theorem resolve_idempotent :
  (forall c r1 r2, resolve (resolve c r1) r2 = resolve c r1) /\
  (forall c r, Comment.status (resolve c r) = resolved) /\
  (forall c r, Comment.status c = pending -> Comment.response (resolve c r) = Some r) /\
  (forall c r, Comment.status c = resolved -> resolve c r = c) /\
  (forall l commentId r1 r2 l1,
     resolveComment l commentId r1 = Some l1 ->
     resolveComment l1 commentId r2 = Some l1) /\
  (forall file commentId r1 r2 s,
     files (snd (respondToComment file commentId r2
                   (snd (respondToComment file commentId r1 s))))
     = files (snd (respondToComment file commentId r1 s))).
Proof.
  repeat split.
  - intros c r1 r2. unfold resolve. destruct (Comment.status c) eqn:Hs; simpl.
    + reflexivity.
    + rewrite Hs. reflexivity.
  - intros c r. unfold resolve. destruct (Comment.status c) eqn:Hs; simpl; auto.
  - intros c r Hs. unfold resolve. rewrite Hs. reflexivity.
  - intros c r Hs. unfold resolve. rewrite Hs. reflexivity.
  - apply resolveComment_twice.
  - apply respondToComment_twice.
Qed.

Lemma resolve_idempotent_witness :
  resolveComment [ask "c1" "A" "B" "Is input validated?" 1] "c1" "first answer"
    = Some [resolve (ask "c1" "A" "B" "Is input validated?" 1) "first answer"] /\
  resolveComment [resolve (ask "c1" "A" "B" "Is input validated?" 1) "first answer"]
    "c1" "second answer"
    = Some [resolve (ask "c1" "A" "B" "Is input validated?" 1) "first answer"].
Proof.
  split; [reflexivity|].
  destruct resolve_idempotent as (_ & _ & _ & _ & Hledger & _).
  apply (Hledger [ask "c1" "A" "B" "Is input validated?" 1] "c1" "first answer").
  reflexivity.
Defined.

(** ** Facts about [path.join] *)

Module PathFacts.
Import Path.

Lemma append_cons c a b : String c a +:+ b = String c (a +:+ b).
Proof. reflexivity. Qed.

















End PathFacts.

(** ** C10: where an answer is written *)

Lemma onlyFile_refl file s : onlyFile file s s.
Proof. intros path _. reflexivity. Qed.

Lemma onlyFile_trans file s1 s2 s3 :
  onlyFile file s1 s2 -> onlyFile file s2 s3 -> onlyFile file s1 s3.
Proof. intros H1 H2 path Hp. rewrite (H2 path Hp). apply H1, Hp. Qed.

Lemma onlyFile_emit file e : preserves (onlyFile file) (emit e).
Proof. intros s path _. reflexivity. Qed.

Lemma onlyFile_logError file message : preserves (onlyFile file) (logError message).
Proof. intros s path _. reflexivity. Qed.

Lemma onlyFile_respondToQuestion file answeringAgent question askingAgent :
  preserves (onlyFile file) (respondToQuestion answeringAgent question askingAgent).
Proof.
  unfold respondToQuestion.
  repeat preserves_with (onlyFile_refl file) (onlyFile_trans file).
  - apply onlyFile_emit.
  - destruct (answer _ _ _ _); preserves_with (onlyFile_refl file) (onlyFile_trans file).
Qed.

Lemma onlyFile_respondToComment file commentId r :
  preserves (onlyFile file) (respondToComment file commentId r).
Proof.
  unfold respondToComment.
  preserves_with (onlyFile_refl file) (onlyFile_trans file).
  - intros s. rewrite readFile_state. apply onlyFile_refl.
  - destruct (resolveComment _ _ _).
    + intros s path Hp. simpl. apply lookup_insert_ne. congruence.
    + apply onlyFile_emit.
Qed.

(** Only the file named by [findAgentFile] can change while questions are
    processed. *)
Lemma onlyFile_processQuestions answeringAgent questions askingAgentName :
  preserves (onlyFile (findAgentFile askingAgentName))
    (processQuestions answeringAgent questions askingAgentName).
Proof.
  induction questions as [|question rest IH]; simpl.
  - preserves_with (onlyFile_refl (findAgentFile askingAgentName))
      (onlyFile_trans (findAgentFile askingAgentName)).
  - repeat preserves_with (onlyFile_refl (findAgentFile askingAgentName))
      (onlyFile_trans (findAgentFile askingAgentName)); auto.
    + apply onlyFile_respondToQuestion.
    + apply onlyFile_respondToComment.
    + apply onlyFile_logError.
Qed.







(** ** The pairs of a round *)

Lemma getAgentPairs_positions agentList a b :
  (a, b) ∈ getAgentPairs agentList ->
  exists i j, (i < j)%nat /\ agentList !! i = Some a /\ agentList !! j = Some b.
Proof.
  induction agentList as [|x rest IH]; simpl; intros H.
  - apply elem_of_nil in H. destruct H.
  - apply elem_of_app in H as [H|H].
    + apply list_elem_of_In, in_map_iff in H as (y & [= <- <-] & Hy).
      apply list_elem_of_In, list_elem_of_lookup in Hy as [j Hj].
      exists 0%nat, (S j). split; [lia|]. split; [reflexivity | exact Hj].
    + destruct (IH H) as (i & j & Hij & Hi & Hj).
      exists (S i), (S j). split; [lia|]. split; assumption.
Qed.

Lemma getAgentPairs_members agentList p :
  p ∈ getAgentPairs agentList -> fst p ∈ agentList /\ snd p ∈ agentList.
Proof.
  destruct p as [a b]. intros H.
  apply getAgentPairs_positions in H as (i & j & _ & Hi & Hj).
  split; apply list_elem_of_lookup; eauto.
Qed.

(** X1: [getAgentPairs] lists exactly the pairs of an earlier and a later
    agent of the list: (a, b) is among the pairs if and only if a stands at
    some position i and b at some position j with i < j. *)
Theorem getAgentPairs_earlier_later agentList a b :
  (a, b) ∈ getAgentPairs agentList <->
  exists i j, (i < j)%nat /\ agentList !! i = Some a /\ agentList !! j = Some b.
Proof.
  split; [apply getAgentPairs_positions|].
  revert a b. induction agentList as [|x rest IH]; intros a b (i & j & Hij & Hi & Hj).
  - rewrite lookup_nil in Hi. discriminate.
  - simpl. apply elem_of_app. destruct j as [|j]; [lia|]. simpl in Hj.
    destruct i as [|i]; simpl in Hi.
    + injection Hi as <-. left. apply list_elem_of_In, in_map_iff.
      exists b. split; [reflexivity|]. apply list_elem_of_In.
      apply list_elem_of_lookup. exists j. exact Hj.
    + right. apply IH. exists i, j. split; [lia|]. split; assumption.
Qed.

Lemma lookup_name_inj (agentList : list Agent) i j a b :
  NoDup (map name agentList) ->
  agentList !! i = Some a -> agentList !! j = Some b -> name a = name b -> i = j.
Proof.
  intros Hnd Hi Hj Hn.
  eapply NoDup_lookup; [exact Hnd| |].
  - change (map name agentList) with (name <$> agentList).
    rewrite list_lookup_fmap, Hi. reflexivity.
  - change (map name agentList) with (name <$> agentList).
    rewrite list_lookup_fmap, Hj. simpl. congruence.
Qed.

Lemma getAgentPairs_NoDup agentList :
  NoDup agentList -> NoDup (getAgentPairs agentList).
Proof.
  induction agentList as [|x rest IH]; intros Hnd; simpl; [constructor|].
  apply NoDup_cons in Hnd as [Hx Hrest].
  apply NoDup_app. split; [|split].
  - change (map (pair x) rest) with (pair x <$> rest).
    apply NoDup_fmap_2; [intros y z [= ->]; reflexivity | exact Hrest].
  - intros [a b] H1 H2.
    apply list_elem_of_In, in_map_iff in H1 as (y & [= <- <-] & _).
    apply getAgentPairs_members in H2 as [H2 _]. simpl in H2. contradiction.
  - apply IH. exact Hrest.
Qed.

(** X2: when the agents have pairwise different names, no pair is listed
    twice, no agent is paired with itself, and a pair is never listed in
    both orders: every unordered pair is exchanged at most once per
    round. *)
Theorem getAgentPairs_unordered agentList :
  NoDup (map name agentList) ->
  NoDup (getAgentPairs agentList) /\
  forall a b, (a, b) ∈ getAgentPairs agentList ->
    name a <> name b /\ (b, a) ∉ getAgentPairs agentList.
Proof.
  intros Hnd. split.
  - apply getAgentPairs_NoDup.
    change (map name agentList) with (name <$> agentList) in Hnd.
    eapply NoDup_fmap_1. exact Hnd.
  - intros a b H. apply getAgentPairs_positions in H as (i & j & Hij & Hi & Hj). split.
    + intros Hn. pose proof (lookup_name_inj _ _ _ _ _ Hnd Hi Hj Hn). lia.
    + intros H'. apply getAgentPairs_positions in H' as (i' & j' & Hij' & Hi' & Hj').
      pose proof (lookup_name_inj _ _ _ _ _ Hnd Hi Hj' eq_refl).
      pose proof (lookup_name_inj _ _ _ _ _ Hnd Hj Hi' eq_refl). lia.
Qed.

Lemma getAgentPairs_unordered_witness :
  NoDup (map name threeAgents) /\
  NoDup (getAgentPairs threeAgents) /\
  forall a b, (a, b) ∈ getAgentPairs threeAgents ->
    name a <> name b /\ (b, a) ∉ getAgentPairs threeAgents.
Proof.
  assert (H : NoDup (map name threeAgents)).
  { simpl. repeat (apply NoDup_cons; split; [|]); try apply NoDup_nil_2.
    all: rewrite ?elem_of_cons, ?elem_of_nil; intros H; intuition discriminate. }
  split; [exact H|]. apply (getAgentPairs_unordered threeAgents H).
Defined.

(** ** Pair keys *)

Lemma hyphen_split a a' b b' :
  hyphenFree a = true -> hyphenFree a' = true ->
  a +:+ "-" +:+ b = a' +:+ "-" +:+ b' -> a = a' /\ b = b'.
Proof.
  revert a'. induction a as [|c a IH]; intros [|c' a'] Ha Ha' E.
  - change ("" +:+ "-" +:+ b) with (String "-" b) in E.
    change ("" +:+ "-" +:+ b') with (String "-" b') in E.
    injection E as ->. split; reflexivity.
  - change ("" +:+ "-" +:+ b) with (String "-" b) in E.
    rewrite PathFacts.append_cons in E. injection E as <- _.
    simpl in Ha'. discriminate.
  - change ("" +:+ "-" +:+ b') with (String "-" b') in E.
    rewrite PathFacts.append_cons in E. injection E as -> _.
    simpl in Ha. discriminate.
  - rewrite !PathFacts.append_cons in E. injection E as -> E.
    simpl in Ha, Ha'. apply andb_prop in Ha as [_ Ha]. apply andb_prop in Ha' as [_ Ha'].
    destruct (IH a' Ha Ha' E) as [-> ->]. split; reflexivity.
Qed.

(** X3: the key "name1-name2" identifies the pair when the first names
    contain no '-': two pairs with the same key then have the same two
    names, so they share a counter only if they are the same pair of
    names. *)
Theorem pairKeyOf_injective (p q : Agent * Agent) :
  hyphenFree (name (fst p)) = true ->
  hyphenFree (name (fst q)) = true ->
  pairKeyOf p = pairKeyOf q ->
  name (fst p) = name (fst q) /\ name (snd p) = name (snd q).
Proof. intros Hp Hq E. apply hyphen_split; assumption. Qed.

Lemma pairKeyOf_injective_witness :
  name (fst (helpful "A", helpful "B")) = name (fst (helpful "A", failing "B")) /\
  name (snd (helpful "A", helpful "B")) = name (snd (helpful "A", failing "B")).
Proof.
  apply (pairKeyOf_injective (helpful "A", helpful "B") (helpful "A", failing "B"));
    reflexivity.
Defined.

(** With a '-' in a first name two different pairs can have one key. *)
Lemma pairKeyOf_collision :
  pairKeyOf (helpful "api", helpful "quality-security")
  = pairKeyOf (helpful "api-quality", helpful "security").
Proof. reflexivity. Qed.

(** ** Invariants of a round, of an exchange and of a whole call

    A relation that is kept by the few state changes a round is made of is
    kept by every method: [okFile] and [okKey] say to which documents and
    to which counters the hypotheses on [respondToComment] and
    [incrementRoundCount] apply. *)

Section RoundInvariant.
Variable R : State -> State -> Prop.
Variable okFile : string -> Prop.
Variable okKey : string -> Prop.
Hypothesis R_refl : forall s, R s s.
Hypothesis R_trans : forall s1 s2 s3, R s1 s2 -> R s2 s3 -> R s1 s3.
Hypothesis R_emit : forall e, preserves R (emit e).
Hypothesis R_logError : forall message, preserves R (logError message).
Hypothesis R_respondToComment : forall file commentId r,
  okFile file -> preserves R (respondToComment file commentId r).
Hypothesis R_incrementRoundCount : forall pairKey,
  okKey pairKey -> preserves R (incrementRoundCount pairKey).
Hypothesis R_logCoordinationTimeout : forall agentPair questions,
  preserves R (logCoordinationTimeout agentPair questions).
Hypothesis R_nextRound : forall s v, R s (set_currentRound v s).

Ltac invariant_step := preserves_with R_refl R_trans.

Lemma invariant_readFile path : preserves R (readFile path).
Proof. intros s. rewrite readFile_state. apply R_refl. Qed.

Lemma invariant_respondToQuestion answeringAgent question askingAgent :
  preserves R (respondToQuestion answeringAgent question askingAgent).
Proof.
  unfold respondToQuestion. repeat invariant_step; [apply R_emit|].
  destruct (answer _ _ _ _); invariant_step.
Qed.

Lemma invariant_checkForQuestions fromAgent toAgentName :
  preserves R (checkForQuestions fromAgent toAgentName).
Proof. unfold checkForQuestions. repeat invariant_step. apply invariant_readFile. Qed.

Lemma invariant_processQuestions answeringAgent questions askingAgentName :
  okFile (findAgentFile askingAgentName) ->
  preserves R (processQuestions answeringAgent questions askingAgentName).
Proof.
  intros Hfile. induction questions as [|question rest IH]; simpl.
  - invariant_step.
  - repeat invariant_step; auto.
    apply invariant_respondToQuestion.
Qed.

Lemma invariant_exchange asking answering pairKey :
  okFile (findAgentFile (name asking)) -> okKey pairKey ->
  preserves R (exchange asking answering pairKey).
Proof.
  intros Hfile Hkey. unfold exchange. repeat invariant_step;
    auto using invariant_checkForQuestions, invariant_processQuestions.
Qed.

Lemma invariant_facilitateCoordination agent1 agent2 pairKey :
  okFile (findAgentFile (name agent1)) -> okFile (findAgentFile (name agent2)) ->
  okKey pairKey ->
  preserves R (facilitateCoordination agent1 agent2 pairKey).
Proof.
  intros Hfile1 Hfile2 Hkey. unfold facilitateCoordination. repeat invariant_step;
    auto using invariant_checkForQuestions, invariant_processQuestions.
Qed.

Lemma invariant_coordinatePairs agentPairs :
  (forall p, p ∈ agentPairs ->
     okFile (findAgentFile (name (fst p))) /\ okFile (findAgentFile (name (snd p))) /\
     okKey (pairKeyOf p)) ->
  preserves R (coordinatePairs agentPairs).
Proof.
  induction agentPairs as [|p rest IH]; intros Hok; simpl.
  - invariant_step.
  - destruct (Hok p) as (H1 & H2 & H3); [apply elem_of_cons; left; reflexivity|].
    invariant_step; [intros s; apply R_refl|].
    repeat invariant_step.
    + apply R_logCoordinationTimeout.
    + apply invariant_facilitateCoordination; assumption.
    + apply IH. intros q Hq. apply Hok. apply elem_of_cons. right. exact Hq.
Qed.

Lemma invariant_coordinationRound agents :
  (forall p, p ∈ getAgentPairs agents ->
     okFile (findAgentFile (name (fst p))) /\ okFile (findAgentFile (name (snd p))) /\
     okKey (pairKeyOf p)) ->
  preserves R (coordinationRound agents).
Proof.
  intros Hok. unfold coordinationRound. repeat invariant_step; [apply R_emit|].
  apply invariant_coordinatePairs. exact Hok.
Qed.

Lemma invariant_fuel agents fuel : forall s r s',
  (forall p, p ∈ getAgentPairs agents ->
     okFile (findAgentFile (name (fst p))) /\ okFile (findAgentFile (name (snd p))) /\
     okKey (pairKeyOf p)) ->
  startCoordinationRound_fuel fuel agents s = Some (r, s') -> R s s'.
Proof.
  induction fuel as [|fuel IH]; intros s r s' Hok; simpl.
  all: pose proof (invariant_coordinationRound agents Hok s) as H1.
  all: destruct (coordinationRound agents s) as [[[]|e] s1]; cbn [snd] in H1;
    [|intros [= <- <-]; exact H1].
  all: destruct (Z.ltb _ _); [|intros [= <- <-]; exact H1].
  all: pose proof (hasPendingQuestions_state agents s1) as Hst.
  all: destruct (hasPendingQuestions agents s1) as [[[|]|e] s2]; cbn [snd] in Hst; subst s2;
    try (intros [= <- <-]; exact H1).
  intros E. eapply R_trans; [exact H1|]. eapply R_trans; [apply R_nextRound|].
    eapply IH; [exact Hok | exact E].
Qed.
End RoundInvariant.

(** ** The error log only grows *)

Lemma appendOnly_refl s : appendOnly s s.
Proof. split; [reflexivity|]. intros path. split; reflexivity. Qed.

Lemma appendOnly_trans s1 s2 s3 : appendOnly s1 s2 -> appendOnly s2 s3 -> appendOnly s1 s3.
Proof.
  intros [P1 H1] [P2 H2]. split; [congruence|]. intros path.
  destruct (H1 path) as [A1 B1]. destruct (H2 path) as [A2 B2]. split.
  - etransitivity; eassumption.
  - intros Hp. rewrite B2, B1; congruence.
Qed.

Lemma appendOnly_same s s' :
  errorLogPath s' = errorLogPath s -> errorLog s' = errorLog s -> appendOnly s s'.
Proof.
  intros Hp Hl. split; [exact Hp|]. intros path. unfold logAt. rewrite Hl.
  split; reflexivity.
Qed.

Lemma appendOnly_appendToErrorLog content : preserves appendOnly (appendToErrorLog content).
Proof.
  intros s. split; [reflexivity|]. intros path. unfold logAt. simpl.
  destruct (decide (errorLogPath s = path)) as [<-|Hne].
  - rewrite lookup_insert_eq. simpl. split; [apply prefix_app_r; reflexivity|].
    intros H. contradiction.
  - rewrite lookup_insert_ne by exact Hne. split; reflexivity.
Qed.

Lemma appendOnly_emit e : preserves appendOnly (emit e).
Proof. intros s. apply appendOnly_same; reflexivity. Qed.

Lemma appendOnly_respondToComment file commentId r :
  preserves appendOnly (respondToComment file commentId r).
Proof.
  intros s. unfold respondToComment, bind, readFile.
  destruct (files s !! file) as [d|]; [|apply appendOnly_refl].
  destruct (resolveComment _ _ _); apply appendOnly_same; reflexivity.
Qed.

Lemma appendOnly_incrementRoundCount pairKey :
  preserves appendOnly (incrementRoundCount pairKey).
Proof. intros s. apply appendOnly_same; reflexivity. Qed.

Lemma appendOnly_logCoordinationTimeout agentPair questions :
  preserves appendOnly (logCoordinationTimeout agentPair questions).
Proof. intros s. apply (appendOnly_appendToErrorLog _ s). Qed.

Lemma appendOnly_fuel agents fuel s r s' :
  startCoordinationRound_fuel fuel agents s = Some (r, s') -> appendOnly s s'.
Proof.
  apply (invariant_fuel appendOnly (fun _ => True) (fun _ => True)
           appendOnly_refl appendOnly_trans appendOnly_emit
           (fun message => appendOnly_appendToErrorLog (ErrorEntry message))
           (fun file commentId r _ => appendOnly_respondToComment file commentId r)
           (fun pairKey _ => appendOnly_incrementRoundCount pairKey)
           appendOnly_logCoordinationTimeout
           (fun s v => appendOnly_same s (set_currentRound v s) eq_refl eq_refl)).
  intros p _. auto.
Qed.

Lemma startCoordinationRound_total agents s :
  exists r s', startCoordinationRound agents s = Some (r, s').
Proof.
  destruct (startCoordinationRound_fuel_bounds agents
              (Z.to_nat (maxRounds s - currentRound s)) s (Nat.le_refl _))
    as (r & s' & E & _).
  exists r, s'. exact E.
Qed.

(** X4: the error log is append-only.  A call of [startCoordinationRound]
    returns or throws, and whatever happened, the log at every path begins
    with the entries it had before the call; the manager's log path does
    not change and the logs at all other paths are untouched. *)
Theorem error_log_append_only (agents : list Agent) (s : State) :
  exists r s',
    startCoordinationRound agents s = Some (r, s') /\
    errorLogPath s' = errorLogPath s /\
    forall path,
      logAt s path `prefix_of` logAt s' path /\
      (path <> errorLogPath s -> errorLog s' !! path = errorLog s !! path).
Proof.
  destruct (startCoordinationRound_total agents s) as (r & s' & E).
  exists r, s'. split; [exact E|].
  apply (appendOnly_fuel agents _ s r s' E).
Qed.

(** ** Which documents and which counters a call can change *)

Lemma agentFile_pairs agents p :
  p ∈ getAgentPairs agents ->
  agentFile agents (findAgentFile (name (fst p))) /\
  agentFile agents (findAgentFile (name (snd p))) /\
  pairKeyIn agents (pairKeyOf p).
Proof.
  intros Hp. destruct (getAgentPairs_members agents p Hp) as [H1 H2].
  split; [|split].
  - exists (fst p). split; [exact H1 | reflexivity].
  - exists (snd p). split; [exact H2 | reflexivity].
  - exists p. split; [exact Hp | reflexivity].
Qed.

Lemma writesOnly_refl agents s : writesOnly agents s s.
Proof. intros path. split; reflexivity. Qed.

Lemma writesOnly_trans agents s1 s2 s3 :
  writesOnly agents s1 s2 -> writesOnly agents s2 s3 -> writesOnly agents s1 s3.
Proof.
  intros H1 H2 path. destruct (H1 path) as [A1 B1]. destruct (H2 path) as [A2 B2]. split.
  - rewrite A2. exact A1.
  - intros Hp. rewrite B2, B1; auto.
Qed.

Lemma writesOnly_same agents s s' : files s' = files s -> writesOnly agents s s'.
Proof. intros H path. rewrite H. split; reflexivity. Qed.

Lemma writesOnly_respondToComment agents file commentId r :
  agentFile agents file -> preserves (writesOnly agents) (respondToComment file commentId r).
Proof.
  intros Hfile s. unfold respondToComment, bind, readFile.
  destruct (files s !! file) as [d|] eqn:Hd; [|apply writesOnly_refl].
  destruct (resolveComment _ _ _); [|apply writesOnly_same; reflexivity].
  intros path. simpl. destruct (decide (file = path)) as [<-|Hne].
  - rewrite lookup_insert_eq, Hd. split; [split; eauto|]. intros H. contradiction.
  - rewrite lookup_insert_ne by exact Hne. split; reflexivity.
Qed.

Lemma writesOnly_fuel agents fuel s r s' :
  startCoordinationRound_fuel fuel agents s = Some (r, s') -> writesOnly agents s s'.
Proof.
  apply (invariant_fuel (writesOnly agents) (agentFile agents) (fun _ => True)
           (writesOnly_refl agents) (writesOnly_trans agents)
           (fun e s => writesOnly_same agents s _ eq_refl)
           (fun message s => writesOnly_same agents s _ eq_refl)
           (writesOnly_respondToComment agents)
           (fun pairKey _ s => writesOnly_same agents s _ eq_refl)
           (fun agentPair questions s => writesOnly_same agents s _ eq_refl)
           (fun s v => writesOnly_same agents s (set_currentRound v s) eq_refl)).
  intros p Hp. destruct (agentFile_pairs agents p Hp) as (H1 & H2 & _). auto.
Qed.

(** X5: a call of [startCoordinationRound] creates and deletes no document,
    and the only documents it can change are the files
    output/<name>-analysis.md of the agents it was given: every other
    document is the same after the call as before. *)
Theorem only_agent_files_written (agents : list Agent) (s : State) :
  exists r s',
    startCoordinationRound agents s = Some (r, s') /\
    forall path,
      (is_Some (files s' !! path) <-> is_Some (files s !! path)) /\
      ((forall agent, agent ∈ agents -> path <> findAgentFile (name agent)) ->
       files s' !! path = files s !! path).
Proof.
  destruct (startCoordinationRound_total agents s) as (r & s' & E).
  exists r, s'. split; [exact E|]. intros path.
  destruct (writesOnly_fuel agents _ s r s' E path) as [H1 H2].
  split; [exact H1|]. intros Hne. apply H2.
  intros (agent & Ha & Hp). exact (Hne agent Ha Hp).
Qed.

Lemma countsOnly_refl agents s : countsOnly agents s s.
Proof. intros key _. reflexivity. Qed.

Lemma countsOnly_trans agents s1 s2 s3 :
  countsOnly agents s1 s2 -> countsOnly agents s2 s3 -> countsOnly agents s1 s3.
Proof. intros H1 H2 key Hk. rewrite H2, H1; auto. Qed.

Lemma countsOnly_same agents s s' : roundLimits s' = roundLimits s -> countsOnly agents s s'.
Proof. intros H key _. rewrite H. reflexivity. Qed.

Lemma countsOnly_respondToComment agents file commentId r :
  preserves (countsOnly agents) (respondToComment file commentId r).
Proof.
  intros s. unfold respondToComment, bind, readFile.
  destruct (files s !! file) as [d|]; [|apply countsOnly_refl].
  destruct (resolveComment _ _ _); apply countsOnly_same; reflexivity.
Qed.

Lemma countsOnly_incrementRoundCount agents pairKey :
  pairKeyIn agents pairKey -> preserves (countsOnly agents) (incrementRoundCount pairKey).
Proof.
  intros Hk s key Hkey. simpl. apply lookup_insert_ne. intros ->. contradiction.
Qed.

Lemma countsOnly_fuel agents fuel s r s' :
  startCoordinationRound_fuel fuel agents s = Some (r, s') -> countsOnly agents s s'.
Proof.
  apply (invariant_fuel (countsOnly agents) (fun _ => True) (pairKeyIn agents)
           (countsOnly_refl agents) (countsOnly_trans agents)
           (fun e s => countsOnly_same agents s _ eq_refl)
           (fun message s => countsOnly_same agents s _ eq_refl)
           (fun file commentId r _ => countsOnly_respondToComment agents file commentId r)
           (countsOnly_incrementRoundCount agents)
           (fun agentPair questions s => countsOnly_same agents s _ eq_refl)
           (fun s v => countsOnly_same agents s (set_currentRound v s) eq_refl)).
  intros p Hp. destruct (agentFile_pairs agents p Hp) as (_ & _ & H3). auto.
Qed.

Lemma pairKeyIn_dec agents pairKey : pairKeyIn agents pairKey \/ ~ pairKeyIn agents pairKey.
Proof.
  destruct (decide (pairKey ∈ map pairKeyOf (getAgentPairs agents))) as [H|H].
  - left. apply list_elem_of_In, in_map_iff in H as (p & <- & Hp).
    exists p. split; [apply list_elem_of_In; exact Hp | reflexivity].
  - right. intros (p & Hp & ->). apply H. apply list_elem_of_In, in_map_iff.
    exists p. split; [reflexivity | apply list_elem_of_In; exact Hp].
Qed.

Lemma keepsPositive_same s s' : roundLimits s' = roundLimits s -> keepsPositive s s'.
Proof. intros H Hs key count. rewrite H. apply Hs. Qed.

Lemma keepsPositive_respondToComment file commentId r :
  preserves keepsPositive (respondToComment file commentId r).
Proof.
  intros s. unfold respondToComment, bind, readFile.
  destruct (files s !! file) as [d|]; [|apply keepsPositive_same; reflexivity].
  destruct (resolveComment _ _ _); apply keepsPositive_same; reflexivity.
Qed.

Lemma keepsPositive_incrementRoundCount pairKey :
  preserves keepsPositive (incrementRoundCount pairKey).
Proof.
  intros s Hs key count. simpl. destruct (decide (pairKey = key)) as [<-|Hne].
  - rewrite lookup_insert_eq. intros [= <-].
    destruct (roundLimits s !! pairKey) as [v|] eqn:Hv; simpl; [|lia].
    specialize (Hs _ _ Hv). lia.
  - rewrite lookup_insert_ne by exact Hne. apply Hs.
Qed.

Lemma keepsPositive_fuel agents fuel s r s' :
  startCoordinationRound_fuel fuel agents s = Some (r, s') -> keepsPositive s s'.
Proof.
  apply (invariant_fuel keepsPositive (fun _ => True) (fun _ => True)
           (fun s H => H) (fun s1 s2 s3 H1 H2 H => H2 (H1 H))
           (fun e s => keepsPositive_same s _ eq_refl)
           (fun message s => keepsPositive_same s _ eq_refl)
           (fun file commentId r _ => keepsPositive_respondToComment file commentId r)
           (fun pairKey _ => keepsPositive_incrementRoundCount pairKey)
           (fun agentPair questions s => keepsPositive_same s _ eq_refl)
           (fun s v => keepsPositive_same s (set_currentRound v s) eq_refl)).
  intros p _. auto.
Qed.

Lemma trackRoundLimits_elem s pairKey count limit :
  (pairKey, count, limit) ∈ trackRoundLimits s <->
  roundLimits s !! pairKey = Some count /\ limit = maxRounds s.
Proof.
  unfold trackRoundLimits. rewrite list_elem_of_In, in_map_iff. split.
  - intros ([k v] & [= <- <- <-] & Hin). apply list_elem_of_In, elem_of_map_to_list in Hin.
    split; [exact Hin | reflexivity].
  - intros [Hk ->]. exists (pairKey, count). split; [reflexivity|].
    apply list_elem_of_In, elem_of_map_to_list. exact Hk.
Qed.

(** X6: the summary of [trackRoundLimits] after a call on a new manager has
    lines for pairs of the given agents only, at most one line per pair
    key, and never more lines than there are pairs; every line shows a
    count of at least 1 and [maxRounds] as its limit. *)
Theorem summary_lists_pairs (outputDir : option string) (fs : gmap string Document)
    (agents : list Agent) :
  exists r s',
    startCoordinationRound agents (constructor outputDir fs) = Some (r, s') /\
    (length (trackRoundLimits s') <= length (getAgentPairs agents))%nat /\
    NoDup (map (fun line => fst (fst line)) (trackRoundLimits s')) /\
    forall pairKey count limit,
      (pairKey, count, limit) ∈ trackRoundLimits s' ->
      pairKeyIn agents pairKey /\ 1 <= count /\ limit = 3.
Proof.
  set (s := constructor outputDir fs).
  destruct (startCoordinationRound_fuel_bounds agents
              (Z.to_nat (maxRounds s - currentRound s)) s (Nat.le_refl _))
    as (r & s' & E & Hmax & Hmono & _).
  pose proof (countsOnly_fuel agents _ s r s' E) as Hc.
  exists r, s'. split; [exact E|].
  assert (Hkeys : forall pairKey, is_Some (roundLimits s' !! pairKey) -> pairKeyIn agents pairKey).
  { intros key [v Hv]. destruct (pairKeyIn_dec agents key) as [H|H]; [exact H|].
    rewrite (Hc key H) in Hv. simpl in Hv. rewrite lookup_empty in Hv. discriminate. }
  assert (Hnd : NoDup (map (fun line => fst (fst line)) (trackRoundLimits s'))).
  { unfold trackRoundLimits. rewrite map_map. simpl.
    change (map (fun x => fst x) (map_to_list (roundLimits s')))
      with (fst <$> map_to_list (roundLimits s')).
    apply NoDup_fst_map_to_list. }
  split; [|split; [exact Hnd|]].
  - rewrite <- (length_map (fun line => fst (fst line)) (trackRoundLimits s')).
    rewrite <- (length_map pairKeyOf (getAgentPairs agents)).
    apply submseteq_length, NoDup_submseteq; [exact Hnd|].
    intros key Hkey. apply list_elem_of_In, in_map_iff in Hkey as ([[k c] l] & <- & Hin).
    apply list_elem_of_In, trackRoundLimits_elem in Hin as [Hk _]. simpl.
    destruct (Hkeys k) as (p & Hp & ->); [eexists; exact Hk|].
    apply list_elem_of_In, in_map_iff. exists p. split; [reflexivity|].
    apply list_elem_of_In. exact Hp.
  - intros key count limit Hin. apply trackRoundLimits_elem in Hin as [Hk ->].
    split; [apply Hkeys; eexists; exact Hk|]. split; [|rewrite Hmax; reflexivity].
    apply (keepsPositive_fuel agents _ s r s' E) with key; [|exact Hk].
    intros k v Hv. simpl in Hv. rewrite lookup_empty in Hv. discriminate.
Qed.

(** ** Every pair of a round is exchanged or timed out *)

Lemma sameTimeouts_refl s : sameTimeouts s s.
Proof. split; reflexivity. Qed.

Lemma sameTimeouts_trans s1 s2 s3 :
  sameTimeouts s1 s2 -> sameTimeouts s2 s3 -> sameTimeouts s1 s3.
Proof. intros [] []. split; congruence. Qed.

Lemma sameTimeouts_same s s' :
  errorLogPath s' = errorLogPath s -> errorLog s' = errorLog s -> sameTimeouts s s'.
Proof.
  intros Hp Hl. split; [exact Hp|]. unfold timeoutEntries, logAt. rewrite Hp, Hl. reflexivity.
Qed.

Lemma timeoutEntries_append content s :
  timeoutEntries (snd (appendToErrorLog content s))
  = (timeoutEntries s + (if isTimeoutEntry content then 1 else 0))%nat.
Proof.
  unfold timeoutEntries, logAt. simpl. rewrite lookup_insert_eq. simpl.
  rewrite List.filter_app, length_app. simpl.
  destruct (isTimeoutEntry content); reflexivity.
Qed.

Lemma sameTimeouts_logError message : preserves sameTimeouts (logError message).
Proof.
  intros s. split; [reflexivity|]. unfold logError. rewrite timeoutEntries_append. simpl. lia.
Qed.

Lemma sameTimeouts_respondToComment file commentId r :
  preserves sameTimeouts (respondToComment file commentId r).
Proof.
  intros s. unfold respondToComment, bind, readFile.
  destruct (files s !! file) as [d|]; [|apply sameTimeouts_refl].
  destruct (resolveComment _ _ _); apply sameTimeouts_same; reflexivity.
Qed.

Lemma sameTimeouts_facilitateCoordination agent1 agent2 pairKey :
  preserves sameTimeouts (facilitateCoordination agent1 agent2 pairKey).
Proof.
  apply (invariant_facilitateCoordination sameTimeouts (fun _ => True) (fun _ => True)
           sameTimeouts_refl sameTimeouts_trans
           (fun e s => sameTimeouts_same s _ eq_refl eq_refl)
           sameTimeouts_logError
           (fun file commentId r _ => sameTimeouts_respondToComment file commentId r)
           (fun key _ s => sameTimeouts_same s _ eq_refl eq_refl)); exact I.
Qed.

Lemma coordinatePairs_accounted agentPairs : forall s,
  let s' := snd (coordinatePairs agentPairs s) in
  (pairAttempts s' + timeoutEntries s'
   = pairAttempts s + timeoutEntries s + length agentPairs)%nat.
Proof.
  induction agentPairs as [|p rest IH]; intros s; [simpl; lia|].
  cbv zeta. rewrite coordinatePairs_cons.
  destruct (Z.geb (roundCount s (pairKeyOf p)) (maxRounds s)).
  - destruct (succeeds_run _ s (succeeds_logCoordinationTimeout (pairKeyOf p) []))
      as ([] & s1 & E).
    rewrite (bind_ok _ _ _ _ _ E). specialize (IH s1). cbv zeta in IH. rewrite IH.
    pose proof (frame_logCoordinationTimeout (pairKeyOf p) [] s) as Hf.
    pose proof (timeoutEntries_append (TimeoutEntry (pairKeyOf p) (maxRounds s) []) s) as Ht.
    change (snd (appendToErrorLog (TimeoutEntry (pairKeyOf p) (maxRounds s) []) s))
      with (snd (logCoordinationTimeout (pairKeyOf p) [] s)) in Ht.
    rewrite E in Hf, Ht. cbn [snd] in Hf, Ht. destruct Hf as [_ _ _ _ Hp _ _ _].
    rewrite Hp, Ht. simpl. lia.
  - destruct (succeeds_run _ s
                (succeeds_facilitateCoordination (fst p) (snd p) (pairKeyOf p)))
      as ([] & s1 & E).
    rewrite (bind_ok _ _ _ _ _ E). specialize (IH s1). cbv zeta in IH. rewrite IH.
    destruct (facilitateCoordination_counts (fst p) (snd p) (pairKeyOf p) s) as (_ & _ & Hp).
    destruct (sameTimeouts_facilitateCoordination (fst p) (snd p) (pairKeyOf p) s) as [_ Ht].
    rewrite E in Hp, Ht. cbn [snd] in Hp, Ht. rewrite Hp, Ht. simpl. lia.
Qed.

(** X7: in a round every pair is dealt with exactly once, either by an
    exchange or by a timeout entry: the number of calls of
    [facilitateCoordination] plus the number of timeout entries written in
    the round is the number n(n-1)/2 of pairs; an exchange itself never
    writes a timeout entry. *)
Theorem round_accounts_for_every_pair (agents : list Agent) (s : State) :
  let s' := snd (coordinationRound agents s) in
  (pairAttempts s' + timeoutEntries s'
   = pairAttempts s + timeoutEntries s + length (getAgentPairs agents))%nat /\
  2 * Z.of_nat (length (getAgentPairs agents))
  = Z.of_nat (length agents) * (Z.of_nat (length agents) - 1).
Proof.
  cbv zeta. split.
  - rewrite coordinationRound_eq.
    pose proof (coordinatePairs_accounted (getAgentPairs agents)
                  (set_trace (trace s ++ [RoundStarted (currentRound s)]) s)) as H.
    cbv zeta in H. rewrite H. rewrite pairAttempts_emit. simpl.
    unfold timeoutEntries, logAt. simpl. lia.
  - pose proof (getAgentPairs_length_double agents). nia.
Qed.

(** ** The answers requested by [processQuestions] *)

Lemma askedSoFar_emit e s :
  askedSoFar (set_trace (trace s ++ [e]) s)
  = askedSoFar s ++ (if isAsked e then [e] else []).
Proof.
  unfold askedSoFar. simpl. rewrite List.filter_app. simpl.
  destruct (isAsked e); reflexivity.
Qed.

Lemma askedSoFar_respondToComment file commentId r s :
  askedSoFar (snd (respondToComment file commentId r s)) = askedSoFar s.
Proof.
  unfold respondToComment, bind, readFile.
  destruct (files s !! file) as [d|]; [|reflexivity].
  destruct (resolveComment _ _ _); [reflexivity|].
  unfold emit, modify. cbn [snd]. rewrite askedSoFar_emit. simpl. apply app_nil_r.
Qed.

Lemma askedSoFar_step answeringAgent question askingAgentName s :
  askedSoFar
    (snd (try_catch (answerAndRecord answeringAgent question askingAgentName)
            (fun message =>
               logError (processingError askingAgentName (name answeringAgent) message)) s))
  = askedSoFar s ++ [Asked (name answeringAgent) (Comment.id question) askingAgentName].
Proof.
  unfold try_catch, answerAndRecord, respondToQuestion, bind at 1 2 3, gets, emit, modify.
  cbn iota beta.
  set (s1 := set_trace _ s).
  assert (H1 : askedSoFar s1
               = askedSoFar s ++ [Asked (name answeringAgent) (Comment.id question)
                                    askingAgentName])
    by (unfold s1; rewrite askedSoFar_emit; reflexivity).
  destruct (answer answeringAgent _ question askingAgentName) as [text|e]; cbn iota beta.
  - unfold ret. cbn iota beta. destruct (truthy _); [|exact H1].
    pose proof (askedSoFar_respondToComment
                  (findAgentFile askingAgentName) (Comment.id question) text s1) as H2.
    destruct (respondToComment _ _ _ s1) as [[[]|e] s2]; cbn [snd] in H2 |- *;
      rewrite <- H1; exact H2.
  - exact H1.
Qed.

(** X8: [processQuestions] requests the answer to every question it is
    given exactly once and in the order of the list, whether answers fail
    or not: the calls of [respondToQuestion] it adds to the record of the
    run are one per question. *)
Theorem processQuestions_asks_each_once answeringAgent questions askingAgentName s :
  askedSoFar (snd (processQuestions answeringAgent questions askingAgentName s))
  = askedSoFar s
    ++ map (fun question =>
              Asked (name answeringAgent) (Comment.id question) askingAgentName)
         questions.
Proof.
  revert s. induction questions as [|question rest IH]; intros s.
  - simpl. rewrite app_nil_r. reflexivity.
  - rewrite processQuestions_cons.
    set (step := try_catch _ _).
    assert (Hstep : succeeds step)
      by (apply succeeds_try_catch; intros; apply succeeds_logError).
    destruct (succeeds_run _ s Hstep) as ([] & s1 & E).
    rewrite (bind_ok _ _ _ _ _ E), IH.
    replace s1 with (snd (step s)) by (rewrite E; reflexivity).
    unfold step. rewrite askedSoFar_step, <- app_assoc. reflexivity.
Qed.

(** ** What an exchange adds to the counter of its pair *)

Lemma onlyFile_exchange asking answering pairKey :
  preserves (onlyFile (findAgentFile (name asking))) (exchange asking answering pairKey).
Proof.
  unfold exchange.
  repeat preserves_with (onlyFile_refl (findAgentFile (name asking)))
    (onlyFile_trans (findAgentFile (name asking))).
  - intros s. unfold checkForQuestions, bind, readFile.
    destruct (files s !! workingFile asking); apply onlyFile_refl.
  - apply onlyFile_processQuestions.
  - intros s path _. reflexivity.
Qed.

Lemma exchange_count asking answering pairKey s d :
  files s !! workingFile asking = Some d ->
  exists s',
    exchange asking answering pairKey s = (Ok tt, s') /\
    roundCount s' pairKey = roundCount s pairKey + anyQuestion (questionsFor s d answering).
Proof.
  intros Hd. unfold exchange.
  rewrite (bind_ok _ _ _ _ _ (checkForQuestions_readable _ _ _ _ Hd)).
  unfold anyQuestion, questionsFor.
  destruct (Nat.ltb 0 (length _)); [|eexists; split; [reflexivity | lia]].
  set (questions := filter _ _).
  destruct (succeeds_run _ s (succeeds_processQuestions answering questions (name asking)))
    as ([] & s1 & E).
  rewrite (bind_ok _ _ _ _ _ E).
  pose proof (sameLimits_processQuestions answering questions (name asking) s) as Hl.
  rewrite E in Hl. cbn [snd] in Hl.
  exists (set_roundLimits (<[pairKey := roundCount s1 pairKey + 1]> (roundLimits s1)) s1).
  split; [reflexivity|]. rewrite roundCount_increment.
  destruct (decide (pairKey = pairKey)) as [_|Hne]; [|contradiction].
  unfold roundCount. rewrite Hl. reflexivity.
Qed.

(** X9: when both working files can be read (and the second agent's file is
    not the first agent's file under 'output'), [facilitateCoordination]
    adds to the counter of the pair exactly the number of directions, 0, 1
    or 2, in which a pending question of the running round was found.
    This does not depend on the answers: a direction whose answers all fail
    uses up budget like one whose questions are resolved. *)
Theorem facilitateCoordination_counts_directions agent1 agent2 pairKey s d1 d2 :
  files s !! workingFile agent1 = Some d1 ->
  files s !! workingFile agent2 = Some d2 ->
  workingFile agent2 <> findAgentFile (name agent1) ->
  roundCount (snd (facilitateCoordination agent1 agent2 pairKey s)) pairKey
  = roundCount s pairKey
    + anyQuestion (questionsFor s d1 agent2) + anyQuestion (questionsFor s d2 agent1).
Proof.
  intros H1 H2 Hne. rewrite facilitateCoordination_exchange.
  set (s0 := entered pairKey s).
  destruct (exchange_count agent1 agent2 pairKey s0 d1 H1) as (s1 & E1 & C1).
  rewrite (try_catch_bind_ok _ _ _ _ _ _ E1).
  pose proof (onlyFile_exchange agent1 agent2 pairKey s0 _ Hne) as Hf.
  pose proof (frame_exchange agent1 agent2 pairKey s0) as [_ Hr _ _ _ _ _ _].
  rewrite E1 in Hf, Hr. cbn [snd] in Hf, Hr.
  assert (H2' : files s1 !! workingFile agent2 = Some d2) by (rewrite Hf; exact H2).
  destruct (exchange_count agent2 agent1 pairKey s1 d2 H2') as (s2 & E2 & C2).
  rewrite (try_catch_ok _ _ _ _ _ E2). cbn [snd].
  rewrite C2, C1. unfold questionsFor. rewrite Hr. reflexivity.
Qed.

Lemma facilitateCoordination_counts_directions_witness :
  roundCount
    (snd (facilitateCoordination (failing "A") (failing "B") "A-B"
            (constructor None bidirectional))) "A-B" = 2.
Proof.
  rewrite (facilitateCoordination_counts_directions (failing "A") (failing "B") "A-B"
             (constructor None bidirectional)
             (document [ask "a1" "A" "B" "Is input validated?" 1;
                        ask "a2" "A" "B" "Which routes need auth?" 2])
             (document [ask "b1" "B" "A" "Is the API documented?" 1;
                        ask "b2" "B" "A" "Are errors documented?" 2])).
  - reflexivity.
  - vm_compute. reflexivity.
  - vm_compute. reflexivity.
  - vm_compute. discriminate.
Defined.

(** ** The convergence check *)

Lemma checkPendingQuestions_elem agents : forall s l,
  checkPendingQuestions agents s = (Ok l, s) ->
  forall comment,
    comment ∈ l <->
    exists agent d,
      agent ∈ agents /\ files s !! workingFile agent = Some d /\
      comment ∈ ledger d /\ Comment.status comment = pending.
Proof.
  induction agents as [|agent rest IH]; intros s l E comment.
  - injection E as <-. split; [intros H; apply elem_of_nil in H; destruct H|].
    intros (a & d & Ha & _). apply elem_of_nil in Ha. destruct Ha.
  - simpl in E. unfold bind at 1, readFile in E.
    destruct (files s !! workingFile agent) as [d|] eqn:Hd; [|discriminate].
    unfold bind in E. pose proof (checkPendingQuestions_state rest s) as Hst.
    destruct (checkPendingQuestions rest s) as [[others|e] s1] eqn:Er; [|discriminate].
    cbn [snd] in Hst. subst s1. injection E as <-.
    rewrite elem_of_app, (IH s others Er comment). unfold parseComments.
    rewrite list_elem_of_filter. split.
    + intros [[Hp Hin]|(a & d' & Ha & Hd' & Hin & Hp)].
      * exists agent, d. split; [apply elem_of_cons; left; reflexivity|]. auto.
      * exists a, d'. split; [apply elem_of_cons; right; exact Ha|]. auto.
    + intros (a & d' & Ha & Hd' & Hin & Hp). apply elem_of_cons in Ha as [->|Ha].
      * left. rewrite Hd in Hd'. injection Hd' as <-. auto.
      * right. exists a, d'. auto.
Qed.

Lemma checkPendingQuestions_unreadable agents : forall s,
  ~ readable agents s -> exists message, checkPendingQuestions agents s = (Throw message, s).
Proof.
  induction agents as [|agent rest IH]; intros s Hnot.
  - exfalso. apply Hnot. intros a Ha. apply elem_of_nil in Ha. destruct Ha.
  - simpl. unfold bind at 1, readFile.
    destruct (files s !! workingFile agent) as [d|] eqn:Hd; [|eexists; reflexivity].
    destruct (IH s) as [message E].
    { intros Hr. apply Hnot. intros a Ha. apply elem_of_cons in Ha as [->|Ha].
      - eexists; exact Hd.
      - apply Hr, Ha. }
    unfold bind. rewrite E. eexists. reflexivity.
Qed.

(** X10: [checkPendingQuestions] changes nothing.  When every agent's
    working file can be read it returns exactly the comments with status
    pending of the agents' documents, whatever their round number and
    whoever they are addressed to; when some working file cannot be read it
    throws. *)
Theorem checkPendingQuestions_spec (agents : list Agent) (s : State) :
  (readable agents s ->
   exists l,
     checkPendingQuestions agents s = (Ok l, s) /\
     forall comment,
       comment ∈ l <->
       exists agent d,
         agent ∈ agents /\ files s !! workingFile agent = Some d /\
         comment ∈ ledger d /\ Comment.status comment = pending) /\
  (~ readable agents s ->
   exists message, checkPendingQuestions agents s = (Throw message, s)).
Proof.
  split.
  - intros Hr. destruct (checkPendingQuestions_readable agents s Hr) as [l E].
    exists l. split; [exact E|]. apply checkPendingQuestions_elem. exact E.
  - apply checkPendingQuestions_unreadable.
Qed.

Lemma hasPendingQuestions_false agents s :
  hasPendingQuestions agents s = (Ok false, s) -> converged agents s.
Proof.
  unfold hasPendingQuestions, bind. pose proof (checkPendingQuestions_state agents s) as Hst.
  destruct (checkPendingQuestions agents s) as [[l|e] s1] eqn:E; [|discriminate].
  cbn [snd] in Hst. subst s1. unfold ret. intros [= Hl].
  destruct l as [|c l]; [|discriminate].
  assert (Hr : readable agents s).
  { intros agent Ha. destruct (files s !! workingFile agent) eqn:Hd; [eauto|].
    exfalso. destruct (checkPendingQuestions_unreadable agents s) as [m Em].
    - intros H. destruct (H agent Ha) as [d Hd']. congruence.
    - congruence. }
  intros agent Ha. destruct (Hr agent Ha) as [d Hd]. exists d. split; [exact Hd|].
  intros comment Hin Hp.
  assert (Hc : comment ∈ []).
  { apply (checkPendingQuestions_elem agents s [] E). exists agent, d. auto. }
  apply elem_of_nil in Hc. destruct Hc.
Qed.

(** X11: [hasPendingQuestions] answers false exactly when all working files
    can be read and no comment in them is pending. *)
Theorem hasPendingQuestions_false_iff_converged (agents : list Agent) (s : State) :
  hasPendingQuestions agents s = (Ok false, s) <-> converged agents s.
Proof.
  split; [apply hasPendingQuestions_false|].
  intros Hc. unfold hasPendingQuestions, bind.
  rewrite (checkPendingQuestions_converged _ _ Hc). reflexivity.
Qed.

(** ** How a call ends *)

Lemma fuel_ends agents fuel : forall s r s',
  startCoordinationRound_fuel fuel agents s = Some (r, s') ->
  maxRounds s' = maxRounds s /\
  currentRound s <= currentRound s' <= Z.max (currentRound s) (maxRounds s) /\
  Z.of_nat (roundsRun s') = Z.of_nat (roundsRun s) + (currentRound s' - currentRound s) + 1 /\
  (r = Ok true -> maxRounds s <= currentRound s' \/ converged agents s').
Proof.
  induction fuel as [|fuel IH]; intros s r s'; simpl.
  all: destruct (succeeds_run _ s (succeeds_coordinationRound agents)) as ([] & s1 & E).
  all: destruct (coordinationRound_counts agents s) as ([S1 S2 _ _ _ _] & Hr & _).
  all: rewrite E in *; cbn [snd] in S1, S2, Hr.
  all: destruct (Z.ltb (currentRound s1) (maxRounds s1)) eqn:Hlt;
    [apply Z.ltb_lt in Hlt | apply Z.ltb_ge in Hlt; intros [= <- <-];
       split; [exact S1|]; split; [lia|]; split; [lia|]; intros _; left; lia].
  all: pose proof (hasPendingQuestions_state agents s1) as Hst.
  all: destruct (hasPendingQuestions agents s1) as [[[|]|e] s2] eqn:Ep;
    cbn [snd] in Hst; subst s2.
  all: try (intros [= <- <-]; split; [exact S1|]; split; [lia|]; split; [lia|];
            first [ intros _; right; apply hasPendingQuestions_false; exact Ep
                  | intros H; discriminate H ]).
  { intros H. discriminate H. }
  intros E'. apply IH in E' as (M1 & M2 & M3 & M4). simpl in M1, M2, M3, M4.
  change (roundsRun (set_currentRound (currentRound s1 + 1) s1)) with (roundsRun s1) in M3.
  split; [congruence|]. split; [lia|]. split; [lia|].
  intros Hok. destruct (M4 Hok) as [H|H]; [left; lia | right; exact H].
Qed.

(** X12: when [startCoordinationRound] returns, the round number has
    reached [maxRounds] or no comment is left pending in any agent's
    document. *)
Theorem return_means_budget_or_convergence (agents : list Agent) (s s' : State) :
  startCoordinationRound agents s = Some (Ok true, s') ->
  maxRounds s' <= currentRound s' \/ converged agents s'.
Proof.
  intros E. destruct (fuel_ends agents _ s _ s' E) as (M1 & _ & _ & M4).
  rewrite M1. apply M4. reflexivity.
Qed.

Lemma return_means_budget_or_convergence_witness :
  exists s',
    startCoordinationRound [helpful "A"; failing "B"] (constructor None oneQuestion)
      = Some (Ok true, s') /\
    (maxRounds s' <= currentRound s' \/ converged [helpful "A"; failing "B"] s').
Proof.
  eexists. split; [vm_compute; reflexivity|].
  apply (return_means_budget_or_convergence [helpful "A"; failing "B"]
           (constructor None oneQuestion)).
  vm_compute. reflexivity.
Defined.

(** X13: a call never resets the round number.  [maxRounds] is unchanged,
    [currentRound] does not decrease and does not pass the larger of its
    old value and [maxRounds], and the number of rounds the call has run is
    the increase of [currentRound] plus one. *)
Theorem currentRound_only_advances (agents : list Agent) (s : State) :
  exists r s',
    startCoordinationRound agents s = Some (r, s') /\
    maxRounds s' = maxRounds s /\
    currentRound s <= currentRound s' <= Z.max (currentRound s) (maxRounds s) /\
    Z.of_nat (roundsRun s') = Z.of_nat (roundsRun s) + (currentRound s' - currentRound s) + 1.
Proof.
  destruct (startCoordinationRound_total agents s) as (r & s' & E).
  exists r, s'. split; [exact E|].
  destruct (fuel_ends agents _ s r s' E) as (M1 & M2 & M3 & _). auto.
Qed.

Lemma startCoordinationRound_spent agents s :
  maxRounds s <= currentRound s ->
  startCoordinationRound agents s = Some (Ok true, snd (coordinationRound agents s)).
Proof.
  intros Hle. unfold startCoordinationRound.
  destruct (succeeds_run _ s (succeeds_coordinationRound agents)) as ([] & s1 & E).
  destruct (coordinationRound_counts agents s) as ([S1 S2 _ _ _ _] & _).
  rewrite E in *. cbn [snd] in S1, S2 |- *.
  destruct (Z.to_nat _); simpl; rewrite E;
    (replace (Z.ltb (currentRound s1) (maxRounds s1)) with false
       by (symmetry; apply Z.ltb_ge; lia)); reflexivity.
Qed.

(** X14: a manager is used up by one call.  When a call has returned and
    some comment is still pending, every further call on the same manager
    runs exactly one round, with the round number the first call ended
    with, and returns true. *)
Theorem second_call_runs_one_round (agents : list Agent) (s s1 : State) :
  startCoordinationRound agents s = Some (Ok true, s1) ->
  ~ converged agents s1 ->
  exists s2,
    startCoordinationRound agents s1 = Some (Ok true, s2) /\
    roundsRun s2 = S (roundsRun s1) /\
    currentRound s2 = currentRound s1.
Proof.
  intros E Hnot.
  destruct (fuel_ends agents _ s _ s1 E) as (M1 & _ & _ & M4).
  destruct (M4 eq_refl) as [Hle|Hc]; [|contradiction].
  exists (snd (coordinationRound agents s1)).
  split; [apply startCoordinationRound_spent; lia|].
  destruct (coordinationRound_counts agents s1) as ([_ S2 _ _ _ _] & Hr & _).
  split; [exact Hr | exact S2].
Qed.

Lemma second_call_runs_one_round_witness :
  exists s1 s2,
    startCoordinationRound [helpful "A"; failing "B"] (constructor None oneQuestion)
      = Some (Ok true, s1) /\
    startCoordinationRound [helpful "A"; failing "B"] s1 = Some (Ok true, s2) /\
    roundsRun s2 = S (roundsRun s1) /\
    currentRound s2 = currentRound s1.
Proof.
  eexists. 
  match goal with |- exists s2, ?E /\ _ => assert (H1 : E) by (vm_compute; reflexivity) end.
  destruct (second_call_runs_one_round _ _ _ H1) as (s2 & H2).
  - intros Hc. destruct (Hc (helpful "A")) as (d & Hd & Hn);
      [apply elem_of_cons; left; reflexivity|].
    vm_compute in Hd. injection Hd as <-.
    apply (Hn (ask "c1" "A" "B" "Is input validated?" 1));
      [apply elem_of_cons; left; reflexivity | reflexivity].
  - exists s2. split; [exact H1 | exact H2].
Defined.

(** ** Fewer than two agents *)

Lemma getAgentPairs_few agents : (length agents <= 1)%nat -> getAgentPairs agents = [].
Proof. destruct agents as [|a [|b rest]]; simpl; intros H; [reflexivity | reflexivity | lia]. Qed.

Lemma untouched_fuel agents fuel : forall s r s',
  getAgentPairs agents = [] ->
  startCoordinationRound_fuel fuel agents s = Some (r, s') -> untouched s s'.
Proof.
  induction fuel as [|fuel IH]; intros s r s' Hp; simpl.
  all: rewrite coordinationRound_eq, Hp; cbn [coordinatePairs ret].
  all: set (s1 := set_trace _ s).
  all: assert (H1 : untouched s s1)
    by (unfold untouched, s1; rewrite askedSoFar_emit, pairAttempts_emit; simpl;
        rewrite app_nil_r, Nat.add_0_r; auto).
  all: destruct (Z.ltb _ _); [|intros [= <- <-]; exact H1].
  all: pose proof (hasPendingQuestions_state agents s1) as Hst.
  all: destruct (hasPendingQuestions agents s1) as [[[|]|e] s2]; cbn [snd] in Hst; subst s2;
    try (intros [= <- <-]; exact H1).
  intros E. apply IH in E; [|exact Hp].
  destruct H1 as (A1 & A2 & A3 & A4 & A5). destruct E as (B1 & B2 & B3 & B4 & B5).
  simpl in B1, B2, B3. unfold askedSoFar in B4. unfold pairAttempts in B5. simpl in B4, B5.
  unfold untouched. rewrite B1, B2, B3. unfold askedSoFar at 1. unfold pairAttempts at 1.
  rewrite B4, B5. auto.
Qed.

(** X26: with no agent or a single agent there is no pair, and a call of
    [startCoordinationRound] only announces its rounds: it requests no
    answer, exchanges no pair, and changes no document, no counter and no
    log, however many comments are pending. *)
Theorem lone_agent_is_never_asked (agents : list Agent) (s : State) :
  (length agents <= 1)%nat ->
  exists r s',
    startCoordinationRound agents s = Some (r, s') /\
    files s' = files s /\ errorLog s' = errorLog s /\ roundLimits s' = roundLimits s /\
    askedSoFar s' = askedSoFar s /\ pairAttempts s' = pairAttempts s.
Proof.
  intros Hfew. destruct (startCoordinationRound_total agents s) as (r & s' & E).
  exists r, s'. split; [exact E|].
  apply (untouched_fuel agents _ s r s' (getAgentPairs_few agents Hfew) E).
Qed.

Lemma lone_agent_is_never_asked_witness :
  exists r s',
    startCoordinationRound [helpful "A"] (constructor None oneQuestion) = Some (r, s') /\
    files s' = files (constructor None oneQuestion) /\
    errorLog s' = errorLog (constructor None oneQuestion) /\
    roundLimits s' = roundLimits (constructor None oneQuestion) /\
    askedSoFar s' = askedSoFar (constructor None oneQuestion) /\
    pairAttempts s' = pairAttempts (constructor None oneQuestion).
Proof.
  apply (lone_agent_is_never_asked [helpful "A"] (constructor None oneQuestion)).
  simpl. lia.
Defined.

(** ** Questions answered by a [BaseAgent] *)

Lemma normalize_nonempty path : Path.normalize path <> "".
Proof.
  unfold Path.normalize. destruct (String.eqb path ""); [discriminate|].
  cbv zeta.
  destruct (String.eqb (Path.intercalate _) "") eqn:Hp.
  - destruct (Path.is_slash (Path.first_char path)); [discriminate|].
    destruct (Path.is_slash (Path.last_char path)); discriminate.
  - apply String.eqb_neq in Hp.
    set (p := Path.intercalate _) in *.
    assert (Hq : (if Path.is_slash (Path.last_char path) then p +:+ "/" else p) <> "").
    { destruct (Path.is_slash (Path.last_char path)); [|exact Hp].
      destruct p; [contradiction | rewrite PathFacts.append_cons; discriminate]. }
    destruct (Path.is_slash (Path.first_char path)); [|exact Hq].
    change ("/" +:+ ?x) with (String "/" x). discriminate.
Qed.

Lemma findAgentFile_truthy agentName : truthy (findAgentFile agentName) = true.
Proof.
  unfold truthy, findAgentFile, Path.join. simpl Path.glue.
  apply negb_true_iff, String.eqb_neq.
  destruct (String.eqb _ ""); apply normalize_nonempty.
Qed.

Lemma answerAndRecord_ok answeringAgent question askingAgentName s text :
  answer answeringAgent (length (trace s)) question askingAgentName = Ok text ->
  answerAndRecord answeringAgent question askingAgentName s
  = respondToComment (findAgentFile askingAgentName) (Comment.id question) text
      (set_trace
         (trace s ++ [Asked (name answeringAgent) (Comment.id question) askingAgentName]) s).
Proof.
  intros H. unfold answerAndRecord, respondToQuestion, bind at 1 2 3, gets, emit, modify.
  cbn iota beta. rewrite H. unfold ret. cbn iota beta. rewrite findAgentFile_truthy.
  reflexivity.
Qed.

Lemma baseAgent_answers this file moment question askingAgent :
  exists text, answer (BaseAgent.facade this file) moment question askingAgent = Ok text.
Proof.
  simpl. unfold BaseAgent.respondToQuestion.
  destruct (BaseAgent.callAnthropic _ _ _ _); eexists; reflexivity.
Qed.

Lemma respondToComment_stored file commentId r s :
  is_Some (files s !! file) ->
  exists s', respondToComment file commentId r s = (Ok tt, s') /\
             errorLog s' = errorLog s /\ errorLogPath s' = errorLogPath s.
Proof.
  intros [d Hd]. unfold respondToComment, bind, readFile. rewrite Hd.
  destruct (resolveComment _ _ _); eexists; split; try reflexivity; split; reflexivity.
Qed.

(** X15: an agent that answers with [BaseAgent.respondToQuestion] never
    makes [processQuestions] log an error: a failed model call is turned
    into an answer text, so as long as the asking agent's file under
    'output' exists, every question is answered and stored without an
    entry in the error log. *)
Theorem baseAgent_questions_never_logged this file questions askingAgentName s :
  is_Some (files s !! findAgentFile askingAgentName) ->
  errorLog (snd (processQuestions (BaseAgent.facade this file) questions askingAgentName s))
  = errorLog s.
Proof.
  revert s. induction questions as [|question rest IH]; intros s Hfile; [reflexivity|].
  rewrite processQuestions_cons.
  assert (Hstep : exists s1,
    answerAndRecord (BaseAgent.facade this file) question askingAgentName s = (Ok tt, s1) /\
    errorLog s1 = errorLog s /\ is_Some (files s1 !! findAgentFile askingAgentName)).
  { destruct (baseAgent_answers this file (length (trace s)) question askingAgentName)
      as [text Ht].
    rewrite (answerAndRecord_ok _ _ _ _ _ Ht).
    set (s0 := set_trace _ s).
    destruct (respondToComment_stored (findAgentFile askingAgentName)
                (Comment.id question) text s0 Hfile) as (s1 & E & Hl & _).
    exists s1. split; [exact E|]. split; [exact Hl|].
    pose proof (frame_respondToComment (findAgentFile askingAgentName)
                  (Comment.id question) text s0) as Hf.
    rewrite E in Hf. cbn [snd] in Hf. destruct Hf as [_ _ _ _ _ _ _ Hfiles].
    apply Hfiles. exact Hfile. }
  destruct Hstep as (s1 & E & Hl & Hfile1).
  unfold bind at 1. rewrite (try_catch_ok _ _ _ _ _ E).
  rewrite (IH s1 Hfile1). exact Hl.
Qed.

Lemma baseAgent_questions_never_logged_witness :
  errorLog
    (snd (processQuestions
            (BaseAgent.facade
               (BaseAgent.constructor "B" None None (fun _ _ _ _ => Throw "No API key configured"))
               (reportPath "output" "B"))
            [ask "c1" "A" "B" "Is input validated?" 1] "A"
            (constructor None oneQuestion)))
  = errorLog (constructor None oneQuestion).
Proof.
  apply (baseAgent_questions_never_logged
           (BaseAgent.constructor "B" None None (fun _ _ _ _ => Throw "No API key configured"))).
  vm_compute. eexists. reflexivity.
Defined.

(** X16: when the model call of a [BaseAgent] fails with some message, the
    question is nevertheless marked as answered: [processQuestions] stores
    the text 'I encountered an error while trying to respond: <message>'
    as the response of the comment with the question's id in the asking
    agent's file, and logs nothing. *)
Theorem baseAgent_failure_is_stored_as_answer this file question askingAgentName s d
    message l' :
  BaseAgent.anthropicClient this (length (trace s))
    (BaseAgent.responsePrompt this question askingAgentName)
    (BaseAgent.systemPrompt this) (BaseAgent.maxTokens this) = Throw message ->
  files s !! findAgentFile askingAgentName = Some d ->
  resolveComment (ledger d) (Comment.id question)
    ("I encountered an error while trying to respond: " +:+ message) = Some l' ->
  let s' := snd (processQuestions (BaseAgent.facade this file) [question] askingAgentName s) in
  files s' !! findAgentFile askingAgentName = Some (mkDocument (reportBody d) l') /\
  errorLog s' = errorLog s.
Proof.
  intros Hcall Hd Hres. cbv zeta. split.
  - rewrite processQuestions_cons.
    assert (Ha : answer (BaseAgent.facade this file) (length (trace s)) question
                   askingAgentName
                 = Ok ("I encountered an error while trying to respond: " +:+ message)).
    { unfold BaseAgent.facade. cbn [answer].
      unfold BaseAgent.respondToQuestion, BaseAgent.callAnthropic.
      change (truthy "") with false. cbv iota zeta. rewrite Hcall. reflexivity. }
    pose proof (answerAndRecord_ok _ _ _ _ _ Ha) as E.
    set (s0 := set_trace _ s) in E.
    assert (E2 : respondToComment (findAgentFile askingAgentName) (Comment.id question)
                   ("I encountered an error while trying to respond: " +:+ message) s0
                 = (Ok tt, set_files (<[findAgentFile askingAgentName
                                         := mkDocument (reportBody d) l']> (files s0)) s0)).
    { unfold respondToComment, bind, readFile. change (files s0) with (files s).
      rewrite Hd. cbn iota beta. rewrite Hres. reflexivity. }
    rewrite E2 in E. unfold bind at 1. rewrite (try_catch_ok _ _ _ _ _ E).
    simpl. apply lookup_insert_eq.
  - apply baseAgent_questions_never_logged. eexists. exact Hd.
Qed.

Lemma baseAgent_failure_is_stored_as_answer_witness :
  let this :=
    BaseAgent.constructor "B" None None (fun _ _ _ _ => Throw "No API key configured") in
  let s' :=
    snd (processQuestions (BaseAgent.facade this (reportPath "output" "B"))
           [ask "c1" "A" "B" "Is input validated?" 1] "A" (constructor None oneQuestion)) in
  files s' !! findAgentFile "A"
  = Some (mkDocument "# Analysis"
            [resolve (ask "c1" "A" "B" "Is input validated?" 1)
               "I encountered an error while trying to respond: No API key configured"]) /\
  errorLog s' = errorLog (constructor None oneQuestion).
Proof.
  cbv zeta.
  apply (baseAgent_failure_is_stored_as_answer
           (BaseAgent.constructor "B" None None (fun _ _ _ _ => Throw "No API key configured"))
           (reportPath "output" "B") (ask "c1" "A" "B" "Is input validated?" 1) "A"
           (constructor None oneQuestion)
           (document [ask "c1" "A" "B" "Is input validated?" 1])
           "No API key configured").
  - reflexivity.
  - vm_compute. reflexivity.
  - vm_compute. reflexivity.
Defined.

(** ** Reading files of the repository *)

Lemma readFiles_fold this repository filePaths : forall results filePath,
  fold_left
    (fun results filePath =>
       match BaseAgent.readFile this repository filePath with
       | Ok content => BaseAgent.assign results filePath content
       | Throw message =>
           BaseAgent.assign results filePath ("Error reading file: " +:+ message)
       end)
    filePaths results !! filePath
  = if decide (filePath ∈ filePaths /\ filePath <> "__proto__")
    then Some (BaseAgent.entryFor this repository filePath)
    else results !! filePath.
Proof.
  induction filePaths as [|p rest IH]; intros results filePath.
  - cbn [fold_left]. rewrite decide_False; [reflexivity|].
    intros [H _]. apply elem_of_nil in H. destruct H.
  - cbn [fold_left]. rewrite IH.
    assert (Hstep :
      match BaseAgent.readFile this repository p with
      | Ok content => BaseAgent.assign results p content
      | Throw message => BaseAgent.assign results p ("Error reading file: " +:+ message)
      end = BaseAgent.assign results p (BaseAgent.entryFor this repository p)).
    { unfold BaseAgent.entryFor. destruct (BaseAgent.readFile _ _ _); reflexivity. }
    rewrite Hstep. unfold BaseAgent.assign.
    destruct (decide (filePath ∈ rest /\ filePath <> "__proto__")) as [[H1 H2]|Hn].
    + rewrite decide_True; [reflexivity|]. split; [apply elem_of_cons; right; exact H1 | exact H2].
    + destruct (decide (p = "__proto__")) as [Hp|Hp].
      * rewrite decide_False; [reflexivity|].
        intros [H1 H2]. apply elem_of_cons in H1 as [->|H1]; [contradiction|]. apply Hn. auto.
      * destruct (decide (p = filePath)) as [<-|Hne].
        -- rewrite lookup_insert_eq. rewrite decide_True; [reflexivity|].
           split; [apply elem_of_cons; left; reflexivity | exact Hp].
        -- rewrite lookup_insert_ne by exact Hne. rewrite decide_False; [reflexivity|].
           intros [H1 H2]. apply elem_of_cons in H1 as [->|H1]; [contradiction|].
           apply Hn. auto.
Qed.

(** X17: [readFiles] never throws and its result has one entry for each
    requested path (other than '__proto__', which an object literal does
    not take as a key) and no other entry.  The entry is the content of the
    file; for a path that does not exist under the repository it is the
    text 'Error reading file: File not found: <path>'. *)
Theorem readFiles_one_entry_per_path this repository filePaths filePath :
  BaseAgent.readFiles this repository filePaths !! filePath
  = (if decide (filePath ∈ filePaths /\ filePath <> "__proto__")
     then Some (BaseAgent.entryFor this repository filePath)
     else None) /\
  (forall repo content,
     BaseAgent.repoPath this = Some repo ->
     repository !! Path.join [repo; filePath] = Some (BaseAgent.File content) ->
     BaseAgent.entryFor this repository filePath = content) /\
  (forall repo,
     BaseAgent.repoPath this = Some repo ->
     repository !! Path.join [repo; filePath] = None ->
     BaseAgent.entryFor this repository filePath
     = "Error reading file: File not found: " +:+ filePath).
Proof.
  split; [|split].
  - unfold BaseAgent.readFiles. rewrite readFiles_fold, lookup_empty. reflexivity.
  - intros repo content Hrepo Hfile. unfold BaseAgent.entryFor, BaseAgent.readFile.
    rewrite Hrepo. cbv zeta. rewrite Hfile. reflexivity.
  - intros repo Hrepo Hfile. unfold BaseAgent.entryFor, BaseAgent.readFile.
    rewrite Hrepo. cbv zeta. rewrite Hfile. reflexivity.
Qed.

(** ** The largest files of [AnalysisMetrics] *)

Lemma insertBySize_length file sorted :
  length (AnalysisMetrics.insertBySize file sorted) = S (length sorted).
Proof.
  induction sorted as [|other rest IH]; simpl; [reflexivity|].
  destruct (Z.ltb _ _); simpl; [reflexivity | rewrite IH; reflexivity].
Qed.

Lemma insertBySize_perm file sorted :
  AnalysisMetrics.insertBySize file sorted ≡ₚ file :: sorted.
Proof.
  induction sorted as [|other rest IH]; simpl; [reflexivity|].
  destruct (Z.ltb _ _); [reflexivity|].
  rewrite IH. apply Permutation_swap.
Qed.

Lemma insertBySize_sorted file sorted :
  bySizeDescending sorted -> bySizeDescending (AnalysisMetrics.insertBySize file sorted).
Proof.
  unfold bySizeDescending.
  induction sorted as [|other rest IH]; intros Hs; simpl.
  - apply StronglySorted_cons. split; constructor.
  - apply StronglySorted_cons in Hs as [Hall Hrest].
    destruct (Z.ltb (LargestFile.size other) (LargestFile.size file)) eqn:Hlt.
    + apply Z.ltb_lt in Hlt. apply StronglySorted_cons. split.
      * constructor; [lia|]. eapply Forall_impl; [exact Hall|]. simpl. intros g Hg. lia.
      * apply StronglySorted_cons. split; assumption.
    + apply Z.ltb_ge in Hlt. apply StronglySorted_cons. split; [|apply IH; exact Hrest].
      rewrite insertBySize_perm. constructor; [exact Hlt | exact Hall].
Qed.

Lemma insertBySize_last file sorted :
  Forall (fun other => LargestFile.size file <= LargestFile.size other) sorted ->
  AnalysisMetrics.insertBySize file sorted = sorted ++ [file].
Proof.
  induction 1 as [|other rest Hle _ IH]; simpl; [reflexivity|].
  replace (Z.ltb (LargestFile.size other) (LargestFile.size file)) with false
    by (symmetry; apply Z.ltb_ge; exact Hle).
  rewrite IH. reflexivity.
Qed.

Lemma sortBySize_fold files : forall sorted,
  bySizeDescending (sorted ++ files) ->
  fold_left (fun sorted file => AnalysisMetrics.insertBySize file sorted) files sorted
  = sorted ++ files.
Proof.
  unfold bySizeDescending.
  induction files as [|file rest IH]; intros sorted Hs; simpl; [rewrite app_nil_r; reflexivity|].
  rewrite insertBySize_last.
  - rewrite IH; rewrite <- app_assoc; [reflexivity | exact Hs].
  - apply Forall_forall. intros other Ho.
    apply (StronglySorted_app_1_elem_of _ _ _ _ _ Hs Ho). apply elem_of_cons. left. reflexivity.
Qed.

Lemma sortBySize_sorted_id files :
  bySizeDescending files -> AnalysisMetrics.sortBySize files = files.
Proof. intros Hs. apply (sortBySize_fold files []). exact Hs. Qed.

Lemma sortBySize_snoc files file :
  AnalysisMetrics.sortBySize (files ++ [file])
  = AnalysisMetrics.insertBySize file (AnalysisMetrics.sortBySize files).
Proof. unfold AnalysisMetrics.sortBySize. rewrite fold_left_app. reflexivity. Qed.

Lemma sortBySize_sorted files : bySizeDescending (AnalysisMetrics.sortBySize files).
Proof.
  induction files as [|file rest IH] using rev_ind; [constructor|].
  rewrite sortBySize_snoc. apply insertBySize_sorted. exact IH.
Qed.

Lemma sortBySize_perm files : AnalysisMetrics.sortBySize files ≡ₚ files.
Proof.
  induction files as [|file rest IH] using rev_ind; [reflexivity|].
  rewrite sortBySize_snoc, insertBySize_perm, IH. apply Permutation_cons_append.
Qed.

Lemma take_insertBySize n file : forall files,
  take n (AnalysisMetrics.insertBySize file (take n files))
  = take n (AnalysisMetrics.insertBySize file files).
Proof.
  induction n as [|n IH]; intros files; [reflexivity|].
  destruct files as [|other rest]; [reflexivity|]. simpl.
  destruct (Z.ltb _ _); simpl.
  - f_equal. destruct n as [|n]; [reflexivity|]. simpl. rewrite take_take.
    f_equal. f_equal. lia.
  - f_equal. apply IH.
Qed.

Lemma bySizeDescending_take n files :
  bySizeDescending files -> bySizeDescending (take n files).
Proof.
  intros Hs. rewrite <- (take_drop n files) in Hs. exact (StronglySorted_app_1_l _ _ _ Hs).
Qed.

Lemma take_keeps_largest n files file :
  bySizeDescending files -> file ∈ files ->
  file ∈ take n files \/
  (length (take n files) = n /\
   forall other, other ∈ take n files -> LargestFile.size file <= LargestFile.size other).
Proof.
  intros Hs Hin. rewrite <- (take_drop n files) in Hin. apply elem_of_app in Hin as [Hin|Hin].
  - left. exact Hin.
  - right. split.
    + rewrite length_take. destruct (decide (n <= length files)%nat) as [Hle|Hgt]; [lia|].
      rewrite drop_ge in Hin by lia. apply elem_of_nil in Hin. destruct Hin.
    + intros other Ho. rewrite <- (take_drop n files) in Hs.
      exact (StronglySorted_app_1_elem_of _ _ _ _ _ Hs Ho Hin).
Qed.

Section MetricsFacts.
Context {Num : Type} {floating : Floating Num}.

Lemma after_snoc now (calls : list (@AnalysisMetrics.Call Num)) call :
  AnalysisMetrics.after now (calls ++ [call])
  = AnalysisMetrics.perform (AnalysisMetrics.after now calls) call.
Proof. unfold AnalysisMetrics.after. rewrite fold_left_app. reflexivity. Qed.

Lemma updateAgent_globalMetrics agentName change (this : AnalysisMetrics.t Num) :
  AnalysisMetrics.globalMetrics (AnalysisMetrics.updateAgent agentName change this)
  = AnalysisMetrics.globalMetrics this.
Proof.
  unfold AnalysisMetrics.updateAgent.
  destruct (AnalysisMetrics.agentMetrics this !! agentName); reflexivity.
Qed.

Lemma updateAgent_repositoryStats agentName change (this : AnalysisMetrics.t Num) :
  AnalysisMetrics.repositoryStats (AnalysisMetrics.updateAgent agentName change this)
  = AnalysisMetrics.repositoryStats this.
Proof.
  unfold AnalysisMetrics.updateAgent.
  destruct (AnalysisMetrics.agentMetrics this !! agentName); reflexivity.
Qed.

Lemma updateAgent_performanceMetrics agentName change (this : AnalysisMetrics.t Num) :
  AnalysisMetrics.performanceMetrics (AnalysisMetrics.updateAgent agentName change this)
  = AnalysisMetrics.performanceMetrics this.
Proof.
  unfold AnalysisMetrics.updateAgent.
  destruct (AnalysisMetrics.agentMetrics this !! agentName); reflexivity.
Qed.

(** What a call does to the statistics of the repository. *)
Lemma perform_repositoryStats (this : AnalysisMetrics.t Num) call :
  AnalysisMetrics.repositoryStats (AnalysisMetrics.perform this call)
  = match call with
    | AnalysisMetrics.RecordFileProcessing agentName fileMetrics =>
        let r := AnalysisMetrics.repositoryStats this in
        let fileName := default "" (FileMetrics.fileName fileMetrics) in
        let fileSize := default 0 (FileMetrics.fileSize fileMetrics) in
        RepositoryStats.mk
          (RepositoryStats.fileCount r + 1)
          (RepositoryStats.totalSize r + fileSize)
          (RepositoryStats.averageFileSize r)
          (take 10 (AnalysisMetrics.sortBySize
                      (RepositoryStats.largestFiles r ++ [LargestFile.mk fileName fileSize])))
          (if default false (FileMetrics.wasTruncated fileMetrics)
           then RepositoryStats.truncatedFiles r
                ++ [TruncatedFile.mk fileName fileSize
                      (default 0 (FileMetrics.contentSize fileMetrics))]
           else RepositoryStats.truncatedFiles r)
          (RepositoryStats.contentBreakdown r)
    | _ => AnalysisMetrics.repositoryStats this
    end.
Proof.
  destruct call; simpl.
  - reflexivity.
  - apply updateAgent_repositoryStats.
  - apply updateAgent_repositoryStats.
  - unfold AnalysisMetrics.recordApiCall. simpl. apply updateAgent_repositoryStats.
  - unfold AnalysisMetrics.recordFileProcessing. simpl.
    rewrite updateAgent_repositoryStats. reflexivity.
  - unfold AnalysisMetrics.completeAgent.
    destruct (AnalysisMetrics.agentMetrics this !! agentName); [|reflexivity].
    simpl. apply updateAgent_repositoryStats.
Qed.

Lemma largestFiles_after now (calls : list (@AnalysisMetrics.Call Num)) :
  RepositoryStats.largestFiles (AnalysisMetrics.repositoryStats (AnalysisMetrics.after now calls))
  = take 10 (AnalysisMetrics.sortBySize (omap AnalysisMetrics.recorded calls)).
Proof.
  induction calls as [|call calls IH] using rev_ind; [reflexivity|].
  rewrite after_snoc, perform_repositoryStats, omap_app.
  destruct call; simpl; rewrite ?app_nil_r; try exact IH.
  rewrite IH, !sortBySize_snoc.
  rewrite (sortBySize_sorted_id (take 10 _))
    by (apply bySizeDescending_take, sortBySize_sorted).
  apply take_insertBySize.
Qed.

(** X18: [largestFiles] always holds the ten largest files recorded so
    far, largest first.  After any sequence of calls on a new metrics
    object the list is ordered by size, descending; it has as many entries
    as files were recorded, but at most 10; every entry is a recorded file;
    and a recorded file that is not in the list is no larger than any file
    in the list, which is then full. *)
Theorem largestFiles_top_ten now (calls : list (@AnalysisMetrics.Call Num)) :
  let largest :=
    RepositoryStats.largestFiles
      (AnalysisMetrics.repositoryStats (AnalysisMetrics.after now calls)) in
  let files := omap AnalysisMetrics.recorded calls in
  bySizeDescending largest /\
  length largest = Nat.min 10 (length files) /\
  (forall file, file ∈ largest -> file ∈ files) /\
  (forall file, file ∈ files ->
     file ∈ largest \/
     (length largest = 10%nat /\
      forall other, other ∈ largest -> LargestFile.size file <= LargestFile.size other)).
Proof.
  cbv zeta. rewrite largestFiles_after.
  set (files := omap AnalysisMetrics.recorded calls).
  pose proof (sortBySize_sorted files) as Hs.
  pose proof (sortBySize_perm files) as Hp.
  split; [apply bySizeDescending_take; exact Hs|].
  split; [rewrite length_take, Hp; reflexivity|].
  split.
  - intros file Hin. rewrite <- Hp, <- (take_drop 10 (AnalysisMetrics.sortBySize files)).
    apply elem_of_app. left. exact Hin.
  - intros file Hin. apply take_keeps_largest; [exact Hs|]. rewrite Hp. exact Hin.
Qed.
End MetricsFacts.

(** ** The counters of [AnalysisMetrics] *)

Lemma sumOf_app {A} (quantity : A -> Z) l1 l2 :
  sumOf quantity (l1 ++ l2) = sumOf quantity l1 + sumOf quantity l2.
Proof. induction l1 as [|x l1 IH]; simpl; [reflexivity|]. rewrite IH. lia. Qed.

Lemma total_snoc times time :
  AnalysisMetrics.total (times ++ [time]) = AnalysisMetrics.total times + time.
Proof. unfold AnalysisMetrics.total. rewrite fold_left_app. reflexivity. Qed.

Lemma total_sumOf times : AnalysisMetrics.total times = sumOf (fun time => time) times.
Proof.
  induction times as [|time times IH] using rev_ind; [reflexivity|].
  rewrite total_snoc, sumOf_app, IH. simpl. lia.
Qed.

Lemma sum_insert {A} (counter : A -> Z) (m : gmap string A) key x :
  map_fold (fun _ y sum => counter y + sum) 0 (<[key := x]> m)
  = map_fold (fun _ y sum => counter y + sum) 0 m
    - from_option counter 0 (m !! key) + counter x.
Proof.
  assert (Hfresh : forall (m' : gmap string A) z, m' !! key = None ->
    map_fold (fun _ y sum => counter y + sum) 0 (<[key := z]> m')
    = counter z + map_fold (fun _ y sum => counter y + sum) 0 m').
  { intros m' z Hm'. apply (map_fold_insert_L (fun _ y sum => counter y + sum)); [|exact Hm'].
    intros. lia. }
  destruct (m !! key) as [old|] eqn:Hold; simpl.
  - rewrite <- (insert_delete_eq m key x).
    rewrite <- (insert_delete_id m key old Hold) at 2.
    rewrite !Hfresh by apply lookup_delete_eq. lia.
  - rewrite Hfresh by exact Hold. lia.
Qed.

Section CounterFacts.
Context {Num : Type} {floating : Floating Num}.

Lemma perform_globalMetrics (this : AnalysisMetrics.t Num) call :
  AnalysisMetrics.globalMetrics (AnalysisMetrics.perform this call)
  = let g := AnalysisMetrics.globalMetrics this in
    match call with
    | AnalysisMetrics.RecordApiCall agentName callMetrics =>
        GlobalMetrics.mk
          (GlobalMetrics.totalInputTokens g + default 0 (CallMetrics.inputTokens callMetrics))
          (GlobalMetrics.totalOutputTokens g + default 0 (CallMetrics.outputTokens callMetrics))
          (fadd (GlobalMetrics.totalCost g) (default fzero (CallMetrics.cost callMetrics)))
          (GlobalMetrics.totalApiCalls g + 1)
          (GlobalMetrics.filesProcessed g) (GlobalMetrics.contentTruncated g)
          (GlobalMetrics.totalFileSize g)
    | AnalysisMetrics.RecordFileProcessing agentName fileMetrics =>
        GlobalMetrics.mk
          (GlobalMetrics.totalInputTokens g) (GlobalMetrics.totalOutputTokens g)
          (GlobalMetrics.totalCost g) (GlobalMetrics.totalApiCalls g)
          (GlobalMetrics.filesProcessed g + 1)
          (if default false (FileMetrics.wasTruncated fileMetrics)
           then GlobalMetrics.contentTruncated g + 1 else GlobalMetrics.contentTruncated g)
          (GlobalMetrics.totalFileSize g + default 0 (FileMetrics.fileSize fileMetrics))
    | _ => g
    end.
Proof.
  destruct call; simpl.
  - reflexivity.
  - apply updateAgent_globalMetrics.
  - apply updateAgent_globalMetrics.
  - unfold AnalysisMetrics.recordApiCall. simpl. rewrite updateAgent_globalMetrics. reflexivity.
  - unfold AnalysisMetrics.recordFileProcessing. simpl.
    rewrite updateAgent_globalMetrics. reflexivity.
  - unfold AnalysisMetrics.completeAgent.
    destruct (AnalysisMetrics.agentMetrics this !! agentName); [|reflexivity].
    simpl. apply updateAgent_globalMetrics.
Qed.

Lemma perform_performanceMetrics (this : AnalysisMetrics.t Num) call :
  let p := AnalysisMetrics.performanceMetrics this in
  let p' := AnalysisMetrics.performanceMetrics (AnalysisMetrics.perform this call) in
  match call with
  | AnalysisMetrics.RecordApiCall agentName callMetrics =>
      let times :=
        PerformanceMetrics.apiResponseTimes p
        ++ [default 0 (CallMetrics.responseTime callMetrics)] in
      PerformanceMetrics.apiResponseTimes p' = times /\
      PerformanceMetrics.averageResponseTime p'
      = fdiv (AnalysisMetrics.total times) (Z.of_nat (length times))
  | _ =>
      PerformanceMetrics.apiResponseTimes p' = PerformanceMetrics.apiResponseTimes p /\
      PerformanceMetrics.averageResponseTime p' = PerformanceMetrics.averageResponseTime p
  end.
Proof.
  cbv zeta. destruct call; cbn [AnalysisMetrics.perform];
    unfold AnalysisMetrics.initializeAgent, AnalysisMetrics.startAgentWork,
      AnalysisMetrics.endAgentWork, AnalysisMetrics.recordApiCall,
      AnalysisMetrics.recordFileProcessing, AnalysisMetrics.completeAgent,
      AnalysisMetrics.updateAgent;
    cbv zeta; destruct (AnalysisMetrics.agentMetrics this !! agentName);
    simpl; split; reflexivity.
Qed.

(** X19: the file counters agree with each other and with the calls made.
    After any sequence of calls on a new metrics object,
    [globalMetrics.filesProcessed] and [repositoryStats.fileCount] are the
    number of calls of [recordFileProcessing], whether or not their agent
    is known; [totalFileSize] and [totalSize] are the sum of the recorded
    sizes; [contentTruncated] is the number of entries of [truncatedFiles]
    and of calls with [wasTruncated], and is at most [filesProcessed]. *)
Theorem file_counters_agree now (calls : list (@AnalysisMetrics.Call Num)) :
  let this := AnalysisMetrics.after now calls in
  let g := AnalysisMetrics.globalMetrics this in
  let r := AnalysisMetrics.repositoryStats this in
  let files := omap AnalysisMetrics.recorded calls in
  GlobalMetrics.filesProcessed g = Z.of_nat (length files) /\
  RepositoryStats.fileCount r = Z.of_nat (length files) /\
  GlobalMetrics.totalFileSize g = sumOf LargestFile.size files /\
  RepositoryStats.totalSize r = sumOf LargestFile.size files /\
  GlobalMetrics.contentTruncated g
  = Z.of_nat (length (List.filter AnalysisMetrics.truncated calls)) /\
  length (RepositoryStats.truncatedFiles r)
  = length (List.filter AnalysisMetrics.truncated calls) /\
  GlobalMetrics.contentTruncated g <= GlobalMetrics.filesProcessed g.
Proof.
  cbv zeta. induction calls as [|call calls IH] using rev_ind.
  - simpl. repeat split; reflexivity || lia.
  - destruct IH as (I1 & I2 & I3 & I4 & I5 & I6 & I7).
    rewrite after_snoc, perform_globalMetrics, perform_repositoryStats.
    rewrite omap_app, List.filter_app, !length_app, sumOf_app.
    destruct call; simpl; rewrite ?Nat.add_0_r, ?Z.add_0_r; auto 10.
    destruct (default false (FileMetrics.wasTruncated fileMetrics)); simpl;
      rewrite ?length_app; simpl; repeat split; lia.
Qed.

(** X20: the API counters follow the calls.  After any sequence of calls
    on a new metrics object the global token totals are the sums of the
    tokens given to [recordApiCall] (0 where none were given),
    [totalApiCalls] is the number of those calls, [apiResponseTimes] lists
    their response times in order, and [averageResponseTime] is 0 before
    the first call and afterwards the quotient of the sum of the response
    times by their number. *)
Theorem api_counters_follow_calls now (calls : list (@AnalysisMetrics.Call Num)) :
  let this := AnalysisMetrics.after now calls in
  let g := AnalysisMetrics.globalMetrics this in
  let p := AnalysisMetrics.performanceMetrics this in
  let made := omap AnalysisMetrics.apiCall calls in
  let times := map (fun callMetrics => default 0 (CallMetrics.responseTime callMetrics)) made in
  GlobalMetrics.totalInputTokens g
  = sumOf (fun callMetrics => default 0 (CallMetrics.inputTokens callMetrics)) made /\
  GlobalMetrics.totalOutputTokens g
  = sumOf (fun callMetrics => default 0 (CallMetrics.outputTokens callMetrics)) made /\
  GlobalMetrics.totalApiCalls g = Z.of_nat (length made) /\
  PerformanceMetrics.apiResponseTimes p = times /\
  PerformanceMetrics.averageResponseTime p
  = match made with
    | [] => fzero
    | _ => fdiv (sumOf (fun time => time) times) (Z.of_nat (length made))
    end.
Proof.
  cbv zeta. induction calls as [|call calls IH] using rev_ind.
  - simpl. repeat split; reflexivity.
  - destruct IH as (I1 & I2 & I3 & I4 & I5).
    pose proof (perform_performanceMetrics (AnalysisMetrics.after now calls) call) as Hp.
    cbv zeta in Hp.
    rewrite after_snoc, perform_globalMetrics.
    rewrite omap_app, map_app, !sumOf_app, length_app.
    destruct call; cbv beta iota zeta in Hp; destruct Hp as [Hp1 Hp2]; rewrite Hp1, Hp2;
      simpl; rewrite ?app_nil_r, ?Nat.add_0_r, ?Z.add_0_r; auto 10.
    rewrite I4. split; [lia|]. split; [lia|]. split; [lia|]. split; [reflexivity|].
    rewrite total_sumOf, length_app, length_map.
    destruct (omap AnalysisMetrics.apiCall calls ++ [callMetrics]) eqn:E.
    + apply app_eq_nil in E as [_ E]. discriminate.
    + rewrite sumOf_app. simpl. rewrite Z.add_0_r. reflexivity.
Qed.
End CounterFacts.

(** ** Agents and totals of [AnalysisMetrics] *)

Section AgentFacts.
Context {Num : Type} {floating : Floating Num}.

Lemma overAgents_insert (this : AnalysisMetrics.t Num) counter agentName d' g r p :
  AnalysisMetrics.overAgents counter
    (AnalysisMetrics.mk (AnalysisMetrics.startTime this) (AnalysisMetrics.endTime this)
       (<[agentName := d']> (AnalysisMetrics.agentMetrics this)) g r p)
  = AnalysisMetrics.overAgents counter this
    - from_option counter 0 (AnalysisMetrics.agentMetrics this !! agentName) + counter d'.
Proof. unfold AnalysisMetrics.overAgents. simpl. apply sum_insert. Qed.

Lemma covered_insert (this : AnalysisMetrics.t Num) agentName d' g' :
  AnalysisMetrics.covered this ->
  0 <= AgentData.filesProcessed d' -> 0 <= AgentData.contentTruncated d' ->
  0 <= AgentData.apiCalls d' ->
  (let old := AnalysisMetrics.agentMetrics this !! agentName in
   let g := AnalysisMetrics.globalMetrics this in
   AgentData.filesProcessed d' - from_option AgentData.filesProcessed 0 old
     <= GlobalMetrics.filesProcessed g' - GlobalMetrics.filesProcessed g /\
   AgentData.contentTruncated d' - from_option AgentData.contentTruncated 0 old
     <= GlobalMetrics.contentTruncated g' - GlobalMetrics.contentTruncated g /\
   AgentData.apiCalls d' - from_option AgentData.apiCalls 0 old
     <= GlobalMetrics.totalApiCalls g' - GlobalMetrics.totalApiCalls g) ->
  forall r p,
  AnalysisMetrics.covered
    (AnalysisMetrics.mk (AnalysisMetrics.startTime this) (AnalysisMetrics.endTime this)
             (<[agentName := d']> (AnalysisMetrics.agentMetrics this)) g' r p).
Proof.
  intros (Hnn & H1 & H2 & H3) N1 N2 N3 D r p. cbv zeta in D. destruct D as (D1 & D2 & D3).
  unfold AnalysisMetrics.covered. rewrite !overAgents_insert. simpl. split.
  - intros k d Hd. apply lookup_insert_Some in Hd as [[_ <-]|[_ Hd]]; [auto|].
    apply (Hnn k d Hd).
  - clear - H1 H2 H3 D1 D2 D3. split; [|split]; lia.
Qed.

Lemma covered_same (this : AnalysisMetrics.t Num) g' :
  AnalysisMetrics.covered this ->
  GlobalMetrics.filesProcessed (AnalysisMetrics.globalMetrics this)
    <= GlobalMetrics.filesProcessed g' ->
  GlobalMetrics.contentTruncated (AnalysisMetrics.globalMetrics this)
    <= GlobalMetrics.contentTruncated g' ->
  GlobalMetrics.totalApiCalls (AnalysisMetrics.globalMetrics this)
    <= GlobalMetrics.totalApiCalls g' ->
  forall r p,
  AnalysisMetrics.covered
    (AnalysisMetrics.mk (AnalysisMetrics.startTime this) (AnalysisMetrics.endTime this)
             (AnalysisMetrics.agentMetrics this) g' r p).
Proof.
  intros (Hnn & H1 & H2 & H3) G1 G2 G3 r p.
  unfold AnalysisMetrics.covered.
  change (AnalysisMetrics.overAgents ?c
            (AnalysisMetrics.mk _ _ (AnalysisMetrics.agentMetrics this) _ _ _))
    with (AnalysisMetrics.overAgents c this).
  simpl. split; [exact Hnn|]. split; [|split]; lia.
Qed.

Lemma covered_perform (this : AnalysisMetrics.t Num) call :
  AnalysisMetrics.covered this -> AnalysisMetrics.covered (AnalysisMetrics.perform this call).
Proof.
  intros Hc. pose proof Hc as (Hnn & _).
  destruct call; cbn [AnalysisMetrics.perform];
    unfold AnalysisMetrics.initializeAgent, AnalysisMetrics.startAgentWork,
      AnalysisMetrics.endAgentWork, AnalysisMetrics.recordApiCall,
      AnalysisMetrics.recordFileProcessing, AnalysisMetrics.completeAgent,
      AnalysisMetrics.updateAgent, AnalysisMetrics.set_agentMetrics;
    cbv zeta;
    destruct (AnalysisMetrics.agentMetrics this !! agentName) as [d|] eqn:Hd;
    cbn [AnalysisMetrics.startTime AnalysisMetrics.endTime AnalysisMetrics.agentMetrics
         AnalysisMetrics.globalMetrics AnalysisMetrics.repositoryStats
         AnalysisMetrics.performanceMetrics];
    try (destruct this; exact Hc);
    try (destruct (Hnn _ _ Hd) as (N1 & N2 & N3));
    try (apply covered_insert; [exact Hc | simpl; try lia ..|];
         rewrite ?Hd; simpl;
         try destruct (default false (FileMetrics.wasTruncated fileMetrics)); lia);
    try (apply covered_same; [exact Hc | simpl; try lia ..];
         try destruct (default false (FileMetrics.wasTruncated fileMetrics)); lia).
Qed.

(** X21: the agents' counters never add up to more than the totals.  After
    any sequence of calls on a new metrics object, the sum over the agents
    of [filesProcessed], of [contentTruncated] and of [apiCalls] is at most
    the corresponding global counter: a call for an agent that was not
    initialized is counted in the totals only, and [initializeAgent] on a
    known agent drops what that agent had counted. *)
Theorem agent_counters_within_totals now (calls : list (@AnalysisMetrics.Call Num)) :
  let this := AnalysisMetrics.after now calls in
  let g := AnalysisMetrics.globalMetrics this in
  AnalysisMetrics.overAgents AgentData.filesProcessed this <= GlobalMetrics.filesProcessed g /\
  AnalysisMetrics.overAgents AgentData.contentTruncated this
    <= GlobalMetrics.contentTruncated g /\
  AnalysisMetrics.overAgents AgentData.apiCalls this <= GlobalMetrics.totalApiCalls g.
Proof.
  cbv zeta.
  assert (Hc : AnalysisMetrics.covered (AnalysisMetrics.after now calls)).
  { induction calls as [|call calls IH] using rev_ind.
    - unfold AnalysisMetrics.covered, AnalysisMetrics.overAgents. simpl. split.
      + intros k d Hd. rewrite lookup_empty in Hd. discriminate.
      + rewrite !map_fold_empty. lia.
    - rewrite after_snoc. apply covered_perform. exact IH. }
  destruct Hc as (_ & H1 & H2 & H3). auto.
Qed.

Lemma perform_known (this : AnalysisMetrics.t Num) call agentName :
  is_Some (AnalysisMetrics.agentMetrics (AnalysisMetrics.perform this call) !! agentName) <->
  AnalysisMetrics.initializes agentName call = true \/
  is_Some (AnalysisMetrics.agentMetrics this !! agentName).
Proof.
  destruct call as [a t|a t|a t|a cm|a fm|a t]; cbn [AnalysisMetrics.perform];
    unfold AnalysisMetrics.initializeAgent, AnalysisMetrics.startAgentWork,
      AnalysisMetrics.endAgentWork, AnalysisMetrics.recordApiCall,
      AnalysisMetrics.recordFileProcessing, AnalysisMetrics.completeAgent,
      AnalysisMetrics.updateAgent, AnalysisMetrics.set_agentMetrics;
    cbv zeta;
    destruct (AnalysisMetrics.agentMetrics this !! a) as [d|] eqn:Hd;
    cbn [AnalysisMetrics.agentMetrics AnalysisMetrics.initializes];
    rewrite ?lookup_insert_is_Some, ?bool_decide_eq_true;
    try (split; [intros [?|[? ?]]; [subst; rewrite ?Hd |]; eauto
                | intros [?|?]; [try discriminate|]]);
    try (destruct (decide (a = agentName)); [left; assumption | right; split; assumption]);
    try (split; [intros ?; right; assumption | intros [?|?]; [discriminate | assumption]]);
    try (subst; left; reflexivity);
    try (right; rewrite Hd; eauto).
Qed.

(** X22: an agent has metrics exactly if [initializeAgent] was called for
    it: recording an API call or a file for a name that was never
    initialized creates no entry in [agentMetrics]. *)
Theorem agents_are_the_initialized now (calls : list (@AnalysisMetrics.Call Num)) agentName :
  is_Some (AnalysisMetrics.agentMetrics (AnalysisMetrics.after now calls) !! agentName) <->
  exists call, call ∈ calls /\ AnalysisMetrics.initializes agentName call = true.
Proof.
  induction calls as [|call calls IH] using rev_ind.
  - simpl. rewrite lookup_empty. split.
    + intros [d Hd]. discriminate.
    + intros (call & Hin & _). apply elem_of_nil in Hin. destruct Hin.
  - rewrite after_snoc, perform_known, IH. split.
    + intros [Hi|(c & Hin & Hi)].
      * exists call. split; [apply elem_of_app; right; apply list_elem_of_singleton; reflexivity|].
        exact Hi.
      * exists c. split; [apply elem_of_app; left; exact Hin | exact Hi].
    + intros (c & Hin & Hi). apply elem_of_app in Hin as [Hin|Hin].
      * right. exists c. split; assumption.
      * apply list_elem_of_singleton in Hin. subst c. left. exact Hi.
Qed.
End AgentFacts.

(** ** Searching a text *)

Lemma startsWith_spec needle s :
  startsWith needle s = true <-> exists t, s = needle ++ t.
Proof.
  revert s. induction needle as [|c needle IH]; intros s; simpl.
  - split; [intros _; exists s; reflexivity | reflexivity].
  - destruct s as [|d s]; [split; [discriminate | intros [t Ht]; discriminate]|].
    rewrite andb_true_iff, Ascii.eqb_eq, IH. split.
    + intros [-> [t ->]]. exists t. reflexivity.
    + intros [t [= -> ->]]. split; [reflexivity | exists t; reflexivity].
Qed.

Lemma startsWith_length needle s :
  startsWith needle s = true -> (length needle <= length s)%nat.
Proof. intros H. apply startsWith_spec in H as [t ->]. rewrite length_app. lia. Qed.

Lemma startsWith_app_long needle : forall u y,
  (length needle <= length u)%nat -> startsWith needle (u ++ y) = startsWith needle u.
Proof.
  induction needle as [|c needle IH]; intros u y Hlen; [reflexivity|].
  destruct u as [|d u]; simpl in *; [lia|]. rewrite IH by lia. reflexivity.
Qed.

Lemma startsWith_app_true needle u y :
  startsWith needle u = true -> startsWith needle (u ++ y) = true.
Proof.
  intros H. apply startsWith_spec in H as [t ->]. apply startsWith_spec.
  exists (t ++ y). rewrite app_assoc. reflexivity.
Qed.

(** An occurrence that begins in [u] and goes on beyond a character [c]
    contains [c]. *)
Lemma startsWith_straddle needle : forall u c y,
  startsWith needle (u ++ c :: y) = true ->
  (length needle <= length u)%nat \/ c ∈ needle.
Proof.
  induction needle as [|a needle IH]; intros u c y H; [left; simpl; lia|].
  destruct u as [|d u]; simpl in H; apply andb_true_iff in H as [Ha H].
  - apply Ascii.eqb_eq in Ha. subst. right. apply elem_of_cons. left. reflexivity.
  - destruct (IH u c y H) as [Hl|Hin]; [left; simpl; lia|].
    right. apply elem_of_cons. right. exact Hin.
Qed.

Lemma firstOccurrence_sound needle s : forall n,
  firstOccurrence needle s = Some n ->
  (n <= length s)%nat /\ startsWith needle (drop n s) = true /\
  forall m, (m < n)%nat -> startsWith needle (drop m s) = false.
Proof.
  induction s as [|c s IH]; intros n; simpl.
  - destruct (startsWith needle []) eqn:E; [|discriminate].
    intros [= <-]. split; [lia|]. split; [exact E|]. intros m Hm. lia.
  - destruct (startsWith needle (c :: s)) eqn:E.
    + intros [= <-]. split; [lia|]. split; [exact E|]. intros m Hm. lia.
    + destruct (firstOccurrence needle s) as [k|]; [|discriminate].
      simpl. intros [= <-]. destruct (IH k eq_refl) as (H1 & H2 & H3).
      split; [lia|]. split; [exact H2|]. intros [|m] Hm; [exact E|].
      simpl. apply H3. lia.
Qed.

Lemma firstOccurrence_complete needle s : forall n,
  (n <= length s)%nat -> startsWith needle (drop n s) = true ->
  (forall m, (m < n)%nat -> startsWith needle (drop m s) = false) ->
  firstOccurrence needle s = Some n.
Proof.
  induction s as [|c s IH]; intros n Hn Hs Hm; simpl.
  - simpl in Hn. assert (n = 0)%nat by lia. subst. simpl in Hs. rewrite Hs. reflexivity.
  - destruct n as [|n].
    + simpl in Hs. rewrite Hs. reflexivity.
    + pose proof (Hm 0%nat ltac:(lia)) as H0. rewrite drop_0 in H0. rewrite H0.
      simpl in Hn, Hs.
      rewrite (IH n); [reflexivity | lia | exact Hs |].
      intros m Hlt. apply (Hm (S m)). lia.
Qed.

Lemma firstOccurrence_None needle s :
  firstOccurrence needle s = None ->
  forall m, startsWith needle (drop m s) = false.
Proof.
  induction s as [|c s IH]; simpl.
  - destruct (startsWith needle []) eqn:E; [discriminate|].
    intros _ m. rewrite drop_nil. exact E.
  - destruct (startsWith needle (c :: s)) eqn:E; [discriminate|].
    destruct (firstOccurrence needle s); [discriminate|].
    intros _ [|m]; [exact E | apply IH; reflexivity].
Qed.

(** The first occurrence lies behind a part of the text in which no
    occurrence begins. *)
Lemma firstOccurrence_skip needle x y :
  (forall m, (m < length x)%nat -> startsWith needle (drop m x ++ y) = false) ->
  firstOccurrence needle (x ++ y)
  = (fun n => (length x + n)%nat) <$> firstOccurrence needle y.
Proof.
  induction x as [|c x IH]; intros H.
  - simpl. destruct (firstOccurrence needle y); reflexivity.
  - pose proof (H 0%nat ltac:(simpl; lia)) as H0. rewrite drop_0 in H0.
    simpl. simpl in H0. rewrite H0.
    rewrite IH by (intros m Hm; apply (H (S m)); simpl; lia).
    destruct (firstOccurrence needle y); reflexivity.
Qed.

(** No occurrence of [needle] begins in [x] when [x] is followed by [y]. *)
Lemma clean_app needle x1 x2 y :
  (forall m, (m < length x1)%nat -> startsWith needle (drop m x1 ++ x2 ++ y) = false) ->
  (forall m, (m < length x2)%nat -> startsWith needle (drop m x2 ++ y) = false) ->
  forall m, (m < length (x1 ++ x2))%nat -> startsWith needle (drop m (x1 ++ x2) ++ y) = false.
Proof.
  intros H1 H2 m Hm. rewrite length_app in Hm.
  destruct (decide (m < length x1)%nat) as [Hlt|Hge].
  - rewrite drop_app_le by lia. rewrite <- app_assoc. apply H1. exact Hlt.
  - rewrite drop_app_ge by lia. apply H2. lia.
Qed.

Lemma clean_before_separator needle x c y :
  c ∉ needle ->
  (forall m, startsWith needle (drop m x) = false) ->
  forall m, (m < length x)%nat -> startsWith needle (drop m x ++ c :: y) = false.
Proof.
  intros Hc Hx m Hm. destruct (startsWith needle (drop m x ++ c :: y)) eqn:E; [|reflexivity].
  destruct (startsWith_straddle _ _ _ _ E) as [Hlen|Hin]; [|contradiction].
  rewrite startsWith_app_long in E by exact Hlen. rewrite Hx in E. discriminate.
Qed.

(** ** [substring] on indexes that are in range *)

Lemma substring_to s (n : nat) :
  (n <= length s)%nat -> substring s 0 (Some (Z.of_nat n)) = take n s.
Proof.
  intros Hn. unfold substring. cbv zeta.
  replace (clamp s 0) with 0%nat by (unfold clamp; lia).
  replace (clamp s (Z.of_nat n)) with n by (unfold clamp; lia).
  replace (Nat.max 0 n - Nat.min 0 n)%nat with n by lia.
  replace (Nat.min 0 n) with 0%nat by lia. rewrite drop_0. reflexivity.
Qed.

Lemma substring_from s (n : nat) :
  (n <= length s)%nat -> substring s (Z.of_nat n) None = drop n s.
Proof.
  intros Hn. unfold substring. cbv zeta.
  replace (clamp s (Z.of_nat n)) with n by (unfold clamp; lia).
  replace (Nat.min n (length s)) with n by lia.
  apply take_ge. rewrite length_drop. lia.
Qed.

Lemma substring_between s (a b : nat) :
  (a <= b)%nat -> (b <= length s)%nat ->
  substring s (Z.of_nat a) (Some (Z.of_nat b)) = take (b - a) (drop a s).
Proof.
  intros Hab Hb. unfold substring. cbv zeta.
  replace (clamp s (Z.of_nat a)) with a by (unfold clamp; lia).
  replace (clamp s (Z.of_nat b)) with b by (unfold clamp; lia).
  replace (Nat.max a b - Nat.min a b)%nat with (b - a)%nat by lia.
  replace (Nat.min a b) with a by lia. reflexivity.
Qed.

(** ** [trim] *)

Lemma trimStart_app_white w s :
  forallb isWhiteSpace w = true -> trimStart (w ++ s) = trimStart s.
Proof.
  induction w as [|c w IH]; simpl; [reflexivity|].
  intros H. apply andb_true_iff in H as [Hc Hw]. rewrite Hc. apply IH, Hw.
Qed.

Lemma trimEnd_app_white s w :
  forallb isWhiteSpace w = true -> trimEnd (s ++ w) = trimEnd s.
Proof.
  intros Hw. unfold trimEnd. rewrite rev_app_distr, trimStart_app_white; [reflexivity|].
  rewrite forallb_forall in *. intros c Hc. apply Hw. apply in_rev. exact Hc.
Qed.

Lemma trim_app_white s w :
  forallb isWhiteSpace w = true -> trim (s ++ w) = trim s.
Proof.
  intros Hw. unfold trim. induction s as [|c s IH]; simpl.
  - rewrite <- (app_nil_r w), trimStart_app_white by exact Hw. reflexivity.
  - destruct (isWhiteSpace c); [exact IH|].
    rewrite app_comm_cons. apply trimEnd_app_white. exact Hw.
Qed.

Lemma trim_between_white w1 s w2 :
  forallb isWhiteSpace w1 = true -> forallb isWhiteSpace w2 = true ->
  trim (w1 ++ s ++ w2) = trim s.
Proof.
  intros H1 H2. rewrite app_assoc, trim_app_white by exact H2.
  unfold trim. rewrite trimStart_app_white by exact H1. reflexivity.
Qed.

(** ** Updating and reading the analysis section of a working file *)

Lemma occurrence_decompose needle s n :
  firstOccurrence needle s = Some n ->
  exists a t, s = a ++ needle ++ t /\ length a = n.
Proof.
  intros H. apply firstOccurrence_sound in H as (Hn & Hs & _).
  apply startsWith_spec in Hs as [t Ht].
  exists (take n s), t. split; [rewrite <- Ht, take_drop; reflexivity|].
  rewrite length_take. lia.
Qed.

Lemma occurrence_split needle s n :
  firstOccurrence needle s = Some n ->
  s = take n s ++ needle ++ drop (n + length needle) s /\
  (n + length needle <= length s)%nat /\
  take (n + length needle) s = take n s ++ needle.
Proof.
  intros H. destruct (occurrence_decompose _ _ _ H) as (a & t & -> & <-).
  assert (Hd : drop (length a + length needle) (a ++ needle ++ t) = t).
  { rewrite app_assoc. rewrite <- length_app. apply drop_app_length. }
  assert (Ht : take (length a + length needle) (a ++ needle ++ t) = a ++ needle).
  { rewrite app_assoc. rewrite <- length_app. apply take_app_length. }
  rewrite Hd, Ht, take_app_length, !length_app.
  split; [reflexivity|]. split; [lia | reflexivity].
Qed.

(** The first occurrence stays where it is when the text behind it is
    replaced. *)
Lemma firstOccurrence_prefix needle s n rest :
  firstOccurrence needle s = Some n ->
  firstOccurrence needle (take (n + length needle) s ++ rest) = Some n.
Proof.
  intros H. pose proof (occurrence_split _ _ _ H) as (_ & _ & Htake).
  pose proof (firstOccurrence_sound _ _ _ H) as (_ & _ & Hmin).
  destruct (occurrence_decompose _ _ _ H) as (a & t & -> & <-).
  rewrite Htake, take_app_length. clear Htake H.
  apply firstOccurrence_complete.
  - rewrite !length_app. lia.
  - rewrite <- app_assoc, drop_app_length. apply startsWith_spec. eexists. reflexivity.
  - intros m Hm. specialize (Hmin m Hm).
    rewrite (app_assoc a needle t) in Hmin.
    rewrite drop_app_le in Hmin by (rewrite length_app; lia).
    rewrite startsWith_app_long in Hmin by (rewrite length_drop, length_app; lia).
    rewrite drop_app_le by (rewrite length_app; lia).
    rewrite startsWith_app_long by (rewrite length_drop, length_app; lia).
    exact Hmin.
Qed.

Lemma newline_not_in_heading : "010"%char ∉ coordinationHeading.
Proof.
  intros H. vm_compute in H. repeat (apply elem_of_cons in H as [H|H]; [discriminate H|]).
  apply elem_of_nil in H. exact H.
Qed.

Lemma heading_not_at_newline y : startsWith coordinationHeading ("010"%char :: y) = false.
Proof. reflexivity. Qed.

Lemma clean_blankLine y :
  forall m, (m < length blankLine)%nat ->
    startsWith coordinationHeading (drop m blankLine ++ y) = false.
Proof. intros [|[|m]] Hm; simpl in Hm; try lia; reflexivity. Qed.

(** Where the headings are after an update: the analysis heading has not
    moved, and the first coordination heading is the one the old text
    had. *)
Lemma headings_after_update current content rs cs :
  firstOccurrence analysisHeading current = Some rs ->
  firstOccurrence coordinationHeading current = Some cs ->
  (rs + length analysisHeading <= cs)%nat ->
  firstOccurrence coordinationHeading content = None ->
  let before := take (rs + length analysisHeading) current in
  let new := before ++ blankLine ++ content ++ blankLine ++ drop cs current in
  firstOccurrence analysisHeading new = Some rs /\
  firstOccurrence coordinationHeading new
  = Some (length (before ++ blankLine ++ content ++ blankLine)) /\
  drop (length (before ++ blankLine ++ content ++ blankLine)) new = drop cs current /\
  take (rs + length analysisHeading) new = before.
Proof.
  intros H1 H2 Horder Hc. cbv zeta.
  set (before := take (rs + length analysisHeading) current).
  set (after := drop cs current).
  pose proof (occurrence_split _ _ _ H1) as (_ & Hlen1 & _).
  pose proof (firstOccurrence_sound _ _ _ H2) as (Hcs & Hs2 & Hmin2).
  assert (Hbl : length before = (rs + length analysisHeading)%nat)
    by (unfold before; rewrite length_take; lia).
  split; [apply firstOccurrence_prefix; exact H1|].
  assert (Hnew : before ++ blankLine ++ content ++ blankLine ++ after
                 = (before ++ blankLine ++ content ++ blankLine) ++ after)
    by (rewrite <- !app_assoc; reflexivity).
  split; [|split].
  - rewrite Hnew, firstOccurrence_skip.
    + unfold after. replace (firstOccurrence coordinationHeading (drop cs current))
        with (Some 0%nat).
      * simpl. rewrite Nat.add_0_r. reflexivity.
      * symmetry. apply firstOccurrence_complete; [lia | exact Hs2 | intros m Hm; lia].
    + apply clean_app; [|apply clean_app; [|apply clean_app]].
      * change (blankLine ++ content ++ blankLine) with
          ("010"%char :: ("010"%char :: content ++ blankLine)).
        rewrite <- app_comm_cons.
        apply clean_before_separator; [exact newline_not_in_heading|].
        intros m. destruct (startsWith coordinationHeading (drop m before)) eqn:E;
          [|reflexivity].
        pose proof (startsWith_length _ _ E) as Hl. rewrite length_drop in Hl.
        change (length coordinationHeading) with 15%nat in Hl.
        assert (Hm : (m < cs)%nat) by lia.
        pose proof (Hmin2 m Hm) as Hno.
        rewrite <- (take_drop (rs + length analysisHeading) current) in Hno.
        fold before in Hno. rewrite drop_app_le in Hno by lia.
        rewrite (startsWith_app_true _ _ _ E) in Hno. discriminate Hno.
      * intros m Hm. rewrite <- app_assoc. apply clean_blankLine. exact Hm.
      * change (blankLine ++ after) with ("010"%char :: ("010"%char :: after)).
        apply clean_before_separator; [exact newline_not_in_heading|].
        apply firstOccurrence_None. exact Hc.
      * apply clean_blankLine.
  - rewrite Hnew. apply drop_app_length.
  - rewrite <- Hbl. apply take_app_length.
Qed.

Lemma indexOf_found s needle n :
  firstOccurrence needle s = Some n ->
  indexOf s needle = Z.of_nat n /\ Z.eqb (indexOf s needle) (-1) = false.
Proof.
  intros H. unfold indexOf. rewrite H. split; [reflexivity|]. apply Z.eqb_neq. lia.
Qed.

Lemma indexOf_missing s needle :
  firstOccurrence needle s = None <-> indexOf s needle = -1.
Proof.
  unfold indexOf. destruct (firstOccurrence needle s); split; intros H;
    try reflexivity; try discriminate; lia.
Qed.

Lemma update_found this file current analysisContent rs cs :
  BaseAgent.workingFile this = Some file ->
  firstOccurrence analysisHeading current = Some rs ->
  firstOccurrence coordinationHeading current = Some cs ->
  BaseAgent.updateAnalysisSection this current analysisContent
  = Ok (take (rs + length analysisHeading) current ++ blankLine
        ++ BaseAgent.contentOr "Analysis failed to generate content" analysisContent
        ++ blankLine ++ drop cs current).
Proof.
  intros Hf H1 H2. unfold BaseAgent.updateAnalysisSection. rewrite Hf. cbv zeta.
  destruct (indexOf_found _ _ _ H1) as [E1 N1]. destruct (indexOf_found _ _ _ H2) as [E2 N2].
  rewrite N1, N2. simpl orb. cbv iota. rewrite E1, E2, <- Nat2Z.inj_add.
  pose proof (occurrence_split _ _ _ H1) as (_ & Hlen1 & _).
  pose proof (firstOccurrence_sound _ _ _ H2) as (Hcs & _).
  rewrite substring_to by exact Hlen1. rewrite substring_from by exact Hcs. reflexivity.
Qed.

(** What a successful update says about the old text. *)
Lemma update_ok this current analysisContent new :
  BaseAgent.updateAnalysisSection this current analysisContent = Ok new ->
  exists file rs cs,
    BaseAgent.workingFile this = Some file /\
    firstOccurrence analysisHeading current = Some rs /\
    firstOccurrence coordinationHeading current = Some cs.
Proof.
  unfold BaseAgent.updateAnalysisSection, indexOf.
  destruct (BaseAgent.workingFile this) as [file|]; [|discriminate]. cbv zeta.
  destruct (firstOccurrence analysisHeading current) as [rs|]; [|discriminate].
  destruct (firstOccurrence coordinationHeading current) as [cs|].
  - intros _. exists file, rs, cs. auto.
  - rewrite orb_true_r. discriminate.
Qed.

Lemma Ok_inj {A} (a b : A) : Ok a = Ok b -> a = b.
Proof. intros [= ->]. reflexivity. Qed.

Lemma update_order current rs cs :
  firstOccurrence analysisHeading current = Some rs ->
  firstOccurrence coordinationHeading current = Some cs ->
  indexOf current analysisHeading + Z.of_nat (length analysisHeading)
    <= indexOf current coordinationHeading ->
  (rs + length analysisHeading <= cs)%nat.
Proof.
  intros H1 H2. unfold indexOf. rewrite H1, H2. lia.
Qed.

(** X23: the last update wins and the coordination section is left alone.
    When the analysis heading stands before the coordination heading and
    the text written does not contain '## Coordination', a second
    [updateAnalysisSection] gives the same working file as if it had been
    the only one, and the first update keeps the text from the
    coordination heading on (the comments) and the text up to the analysis
    heading as they were. *)
Theorem update_last_write_wins this current first second new :
  BaseAgent.updateAnalysisSection this current first = Ok new ->
  indexOf current analysisHeading + Z.of_nat (length analysisHeading)
    <= indexOf current coordinationHeading ->
  indexOf (BaseAgent.contentOr "Analysis failed to generate content" first)
    coordinationHeading = -1 ->
  BaseAgent.updateAnalysisSection this new second
  = BaseAgent.updateAnalysisSection this current second /\
  substring new (indexOf new coordinationHeading) None
  = substring current (indexOf current coordinationHeading) None /\
  substring new 0 (Some (indexOf new analysisHeading + Z.of_nat (length analysisHeading)))
  = substring current 0
      (Some (indexOf current analysisHeading + Z.of_nat (length analysisHeading))).
Proof.
  intros Hup Horder Hclean.
  destruct (update_ok _ _ _ _ Hup) as (file & rs & cs & Hf & H1 & H2).
  pose proof (update_order _ _ _ H1 H2 Horder) as Hle.
  apply indexOf_missing in Hclean.
  rewrite (update_found _ _ _ _ _ _ Hf H1 H2) in Hup. apply Ok_inj in Hup. subst new.
  destruct (headings_after_update current _ rs cs H1 H2 Hle Hclean) as (N1 & N2 & N3 & N4).
  cbv zeta in N1, N2, N3, N4.
  set (new := take _ current ++ _) in *.
  split; [|split].
  - rewrite (update_found _ _ _ _ _ _ Hf N1 N2), (update_found _ _ _ _ _ _ Hf H1 H2).
    rewrite N3, N4. reflexivity.
  - destruct (indexOf_found _ _ _ N2) as [-> _]. destruct (indexOf_found _ _ _ H2) as [-> _].
    pose proof (firstOccurrence_sound _ _ _ N2) as (L2 & _).
    pose proof (firstOccurrence_sound _ _ _ H2) as (L1 & _).
    rewrite !substring_from by assumption. exact N3.
  - destruct (indexOf_found _ _ _ N1) as [-> _]. destruct (indexOf_found _ _ _ H1) as [-> _].
    pose proof (occurrence_split _ _ _ N1) as (_ & L2 & _).
    pose proof (occurrence_split _ _ _ H1) as (_ & L1 & _).
    rewrite <- Nat2Z.inj_add, !substring_to by assumption. exact N4.
Qed.

Lemma update_last_write_wins_witness :
  exists new,
    BaseAgent.updateAnalysisSection initialized workingText (Some (text "First report."))
      = Ok new /\
    BaseAgent.updateAnalysisSection initialized new (Some (text "Second report."))
    = BaseAgent.updateAnalysisSection initialized workingText (Some (text "Second report.")).
Proof.
  eexists. split; [vm_compute; reflexivity|].
  apply (update_last_write_wins initialized workingText (Some (text "First report."))
           (Some (text "Second report."))).
  - vm_compute. reflexivity.
  - vm_compute. discriminate.
  - vm_compute. reflexivity.
Defined.

Lemma blankLine_white : forallb isWhiteSpace blankLine = true.
Proof. reflexivity. Qed.

(** X24: reading back what was written.  Under the conditions of the last
    update winning, [extractAnalysisSection] applied to the working file
    that [updateAnalysisSection] has produced returns the content that was
    written, trimmed (the placeholder when the content was empty). *)
Theorem extract_after_update this current analysisContent new :
  BaseAgent.updateAnalysisSection this current analysisContent = Ok new ->
  indexOf current analysisHeading + Z.of_nat (length analysisHeading)
    <= indexOf current coordinationHeading ->
  indexOf (BaseAgent.contentOr "Analysis failed to generate content" analysisContent)
    coordinationHeading = -1 ->
  NextTaskAgent.extractAnalysisSection new
  = trim (BaseAgent.contentOr "Analysis failed to generate content" analysisContent).
Proof.
  intros Hup Horder Hclean.
  destruct (update_ok _ _ _ _ Hup) as (file & rs & cs & Hf & H1 & H2).
  pose proof (update_order _ _ _ H1 H2 Horder) as Hle.
  apply indexOf_missing in Hclean.
  rewrite (update_found _ _ _ _ _ _ Hf H1 H2) in Hup. apply Ok_inj in Hup. subst new.
  set (content := BaseAgent.contentOr _ analysisContent) in *.
  destruct (headings_after_update current content rs cs H1 H2 Hle Hclean)
    as (N1 & N2 & _ & _).
  cbv zeta in N1, N2.
  pose proof (occurrence_split _ _ _ H1) as (_ & _ & Htake).
  pose proof (firstOccurrence_sound _ _ _ H1) as (Hrs & _).
  rewrite Htake in N1, N2 |- *.
  set (a := take rs current) in *.
  assert (Ha : length a = rs) by (unfold a; rewrite length_take; lia).
  set (after := drop cs current) in *.
  unfold NextTaskAgent.extractAnalysisSection. cbv zeta.
  destruct (indexOf_found _ _ _ N1) as [-> ->]. destruct (indexOf_found _ _ _ N2) as [-> ->].
  simpl negb. cbv iota.
  rewrite substring_between.
  - assert (Hsection :
      take (length ((a ++ analysisHeading) ++ blankLine ++ content ++ blankLine) - rs)
        (drop rs ((a ++ analysisHeading) ++ blankLine ++ content ++ blankLine ++ after))
      = analysisHeading ++ blankLine ++ content ++ blankLine).
    { clear - Ha. clearbody a. subst rs.
      rewrite <- !app_assoc, drop_app_length, (length_app a).
      replace (length a + length (analysisHeading ++ blankLine ++ content ++ blankLine)
               - length a)%nat
        with (length (analysisHeading ++ blankLine ++ content ++ blankLine)) by lia.
      replace (analysisHeading ++ blankLine ++ content ++ blankLine ++ after)
        with ((analysisHeading ++ blankLine ++ content ++ blankLine) ++ after)
        by (rewrite <- !app_assoc; reflexivity).
      apply take_app_length. }
    rewrite Hsection. unfold replace.
    replace (firstOccurrence analysisHeading
               (analysisHeading ++ blankLine ++ content ++ blankLine))
      with (Some 0%nat).
    + rewrite take_0, !app_nil_l.
      change (0 + length analysisHeading)%nat with (length analysisHeading).
      rewrite drop_app_length.
      apply trim_between_white; exact blankLine_white.
    + symmetry. apply firstOccurrence_complete; [lia | | intros m Hm; lia].
      rewrite drop_0. apply startsWith_spec. eexists. reflexivity.
  - rewrite !length_app. lia.
  - rewrite !length_app. lia.
Qed.

Lemma extract_after_update_witness :
  exists new,
    BaseAgent.updateAnalysisSection initialized workingText (Some (text "  First report."))
      = Ok new /\
    NextTaskAgent.extractAnalysisSection new = text "First report.".
Proof.
  eexists. split; [vm_compute; reflexivity|].
  rewrite (extract_after_update initialized workingText (Some (text "  First report."))).
  - reflexivity.
  - vm_compute. reflexivity.
  - vm_compute. discriminate.
  - vm_compute. reflexivity.
Defined.

(** X25: the [updateAnalysisSection] of [NextTaskAgent] writes what the one
    of [BaseAgent] writes, and fails when it fails, whenever the content is
    not empty: cutting the old text before the heading and writing the
    heading again gives the text up to the end of the heading.  (For an
    empty content the two write different placeholders.) *)
Theorem nextTask_update_agrees this current content :
  content <> [] ->
  NextTaskAgent.updateAnalysisSection this current (Some content)
  = BaseAgent.updateAnalysisSection this current (Some content).
Proof.
  intros Hne. destruct content as [|c content]; [contradiction|].
  unfold NextTaskAgent.updateAnalysisSection, BaseAgent.updateAnalysisSection.
  destruct (BaseAgent.workingFile this); [|reflexivity]. cbv zeta.
  destruct (firstOccurrence analysisHeading current) as [rs|] eqn:H1.
  - destruct (indexOf_found _ _ _ H1) as [-> ->].
    destruct (Z.eqb (indexOf current coordinationHeading) (-1)); [reflexivity|].
    simpl orb. cbv iota.
    pose proof (occurrence_split _ _ _ H1) as (_ & Hlen & Htake).
    rewrite <- Nat2Z.inj_add, !substring_to by lia.
    rewrite Htake, <- !app_assoc. reflexivity.
  - apply indexOf_missing in H1. rewrite H1. reflexivity.
Qed.

Lemma nextTask_update_agrees_witness :
  NextTaskAgent.updateAnalysisSection initialized workingText (Some (text "Next task."))
  = BaseAgent.updateAnalysisSection initialized workingText (Some (text "Next task.")).
Proof.
  apply (nextTask_update_agrees initialized workingText (text "Next task.")).
  discriminate.
Defined.

Lemma firstOccurrence_app_found needle s n rest :
  firstOccurrence needle s = Some n -> firstOccurrence needle (s ++ rest) = Some n.
Proof.
  intros H. rewrite <- (take_drop (n + length needle) s), <- app_assoc.
  apply firstOccurrence_prefix. exact H.
Qed.

Lemma clean_before_blankLine current rs cs y :
  firstOccurrence analysisHeading current = Some rs ->
  firstOccurrence coordinationHeading current = Some cs ->
  (rs + length analysisHeading <= cs)%nat ->
  let before := take (rs + length analysisHeading) current in
  forall m, (m < length (before ++ blankLine))%nat ->
    startsWith coordinationHeading (drop m (before ++ blankLine) ++ y) = false.
Proof.
  intros H1 H2 Hle. cbv zeta.
  set (before := take (rs + length analysisHeading) current).
  pose proof (occurrence_split _ _ _ H1) as (_ & Hlen1 & _).
  pose proof (firstOccurrence_sound _ _ _ H2) as (Hcs & _ & Hmin2).
  assert (Hbl : length before = (rs + length analysisHeading)%nat)
    by (unfold before; rewrite length_take; lia).
  apply clean_app; [|apply clean_blankLine].
  change (blankLine ++ y) with ("010"%char :: ("010"%char :: y)).
  apply clean_before_separator; [exact newline_not_in_heading|].
  intros m. destruct (startsWith coordinationHeading (drop m before)) eqn:E; [|reflexivity].
  pose proof (startsWith_length _ _ E) as Hl. rewrite length_drop in Hl.
  change (length coordinationHeading) with 15%nat in Hl.
  assert (Hm : (m < cs)%nat) by lia.
  pose proof (Hmin2 m Hm) as Hno.
  rewrite <- (take_drop (rs + length analysisHeading) current) in Hno.
  fold before in Hno. rewrite drop_app_le in Hno by lia.
  rewrite (startsWith_app_true _ _ _ E) in Hno. discriminate Hno.
Qed.

(** X27: a content that contains '## Coordination' spoils the next update.
    When the text written by [updateAnalysisSection] has its first
    '## Coordination' at position k, the next update takes that place for
    the coordination section: it keeps the rest of the old content from
    position k on, in front of the real coordination section. *)
Theorem update_after_heading_in_content this current first second new k :
  BaseAgent.updateAnalysisSection this current first = Ok new ->
  indexOf current analysisHeading + Z.of_nat (length analysisHeading)
    <= indexOf current coordinationHeading ->
  indexOf (BaseAgent.contentOr "Analysis failed to generate content" first)
    coordinationHeading = Z.of_nat k ->
  BaseAgent.updateAnalysisSection this new second
  = Ok (substring current 0
          (Some (indexOf current analysisHeading + Z.of_nat (length analysisHeading)))
        ++ blankLine
        ++ BaseAgent.contentOr "Analysis failed to generate content" second
        ++ blankLine
        ++ drop k (BaseAgent.contentOr "Analysis failed to generate content" first)
        ++ blankLine
        ++ substring current (indexOf current coordinationHeading) None).
Proof.
  intros Hup Horder Hk.
  destruct (update_ok _ _ _ _ Hup) as (file & rs & cs & Hf & H1 & H2).
  pose proof (update_order _ _ _ H1 H2 Horder) as Hle.
  rewrite (update_found _ _ _ _ _ _ Hf H1 H2) in Hup. apply Ok_inj in Hup. subst new.
  set (content := BaseAgent.contentOr _ first) in *.
  assert (Hc : firstOccurrence coordinationHeading content = Some k).
  { unfold indexOf in Hk. destruct (firstOccurrence coordinationHeading content) as [n|];
      [f_equal; lia | lia]. }
  pose proof (occurrence_split _ _ _ H1) as (_ & Hlen1 & _).
  pose proof (firstOccurrence_sound _ _ _ H2) as (Hcs & _).
  pose proof (firstOccurrence_sound _ _ _ Hc) as (Hkc & _).
  destruct (indexOf_found _ _ _ H1) as [-> _]. destruct (indexOf_found _ _ _ H2) as [-> _].
  rewrite <- Nat2Z.inj_add, substring_to, substring_from by assumption.
  set (before := take (rs + length analysisHeading) current).
  set (after := drop cs current).
  assert (Hbl : length before = (rs + length analysisHeading)%nat)
    by (unfold before; rewrite length_take; lia).
  assert (N1 : firstOccurrence analysisHeading
                 (before ++ blankLine ++ content ++ blankLine ++ after) = Some rs)
    by (apply firstOccurrence_prefix; exact H1).
  assert (N2 : firstOccurrence coordinationHeading
                 (before ++ blankLine ++ content ++ blankLine ++ after)
               = Some (length (before ++ blankLine) + k)%nat).
  { rewrite (app_assoc before blankLine), firstOccurrence_skip.
    - rewrite (firstOccurrence_app_found _ _ _ _ Hc). reflexivity.
    - apply (clean_before_blankLine current rs cs _ H1 H2 Hle). }
  rewrite (update_found _ _ _ _ _ _ Hf N1 N2).
  replace (take (rs + length analysisHeading)
             (before ++ blankLine ++ content ++ blankLine ++ after)) with before
    by (rewrite <- Hbl, take_app_length; reflexivity).
  replace (drop (length (before ++ blankLine) + k)
             (before ++ blankLine ++ content ++ blankLine ++ after))
    with (drop k content ++ blankLine ++ after).
  - reflexivity.
  - rewrite (app_assoc before blankLine), <- drop_drop, drop_app_length.
    rewrite drop_app_le by exact Hkc. reflexivity.
Qed.

Lemma update_after_heading_in_content_witness :
  exists new,
    BaseAgent.updateAnalysisSection initialized workingText
      (Some (text "See ## Coordination below."))
      = Ok new /\
    BaseAgent.updateAnalysisSection initialized new (Some (text "Second report."))
    = Ok (text "# security Analysis

## Analysis Results

Second report.

## Coordination below.

## Coordination

<!-- comments -->
").
Proof.
  eexists. split; [vm_compute; reflexivity|].
  rewrite (update_after_heading_in_content initialized workingText
             (Some (text "See ## Coordination below.")) (Some (text "Second report.")) _ 4).
  - vm_compute. reflexivity.
  - vm_compute. reflexivity.
  - vm_compute. discriminate.
  - vm_compute. reflexivity.
Defined.
